(** * cooltools: numerical core ([lib/numutils.py], [insulation.py])

    A shallow embedding of the matrix balancer, the distance-decay
    normaliser, the lazy Toeplitz matrix, the diagonal and fill utilities,
    the sorted slice, the robust scores, the convolution kernels, the
    diamond insulation score and the bad-bin bookkeeping of the insulation
    boundary caller, together with the properties stated about them.

    Numbers.  The arrays hold IEEE doubles.  The model keeps their special
    values, [+inf], [-inf] and [NaN] (x/0 is an infinity or NaN, NaN is
    absorbing and is different from everything, itself included), and
    idealises the finite ones as rationals, without rounding or overflow;
    the sign of zero is not modelled: dividing by zero takes the sign of
    the numerator.  The statements are chosen so as not to depend on the
    idealisation: they rest on the order of the operations, on the
    comparisons, on the special values and on identities every double
    satisfies (x/x = 1, x*1 = x, x/1 = x, 0 + x = x, a*b = b*a).  Where
    the result of the code depends on a rounded value (the mean of a
    distance bin, the mean of the row sums), that value is named in the
    statement as the code computes it.

    Arrays.  A 1-D array is a list; a 2-D array is the list of its rows.
    Python statements that index one element ([a[i, j]]) raise
    [IndexError] out of range, numpy slices never do.

    The functions are read as the Python they are written in: [@numba.jit]
    is taken to preserve their meaning.  [scipy.linalg.toeplitz] and the
    index helpers inherited from [cooler] are outside the repository and
    enter by their documented behaviour. *)

From Stdlib Require Import QArith Qcanon ZArith Lia.
From stdpp Require Import base tactics option list numbers sorting gmap strings.

Local Open Scope Qc_scope.

(* ================================================================== *)
(** * Part I. Definitions *)
(* ================================================================== *)

(** ** Exceptions and the error monad *)

Inductive exn : Set :=
  IndexError | ValueError | ZeroDivisionError | AssertionError | Exception.

Inductive result (A : Type) : Type :=
| Ok (a : A)
| Raise (e : exn).
Arguments Ok {A} a.
Arguments Raise {A} e.

Global Instance result_ret : MRet result := λ A a, Ok a.
Global Instance result_bind : MBind result := λ A B f m,
  match m with Ok a => f a | Raise e => Raise e end.

Global Instance exn_eq_dec : EqDecision exn.
Proof. solve_decision. Defined.
Global Instance result_eq_dec {A} `{EqDecision A} : EqDecision (result A).
Proof. solve_decision. Defined.

(** [for k in ks: st = body(k, st)], stopping at the first exception. *)
Fixpoint for_each {K T : Type} (ks : list K) (body : K → T → result T) (st : T)
  : result T :=
  match ks with
  | [] => Ok st
  | k :: ks' => st' ← body k st; for_each ks' body st'
  end.

(** [for k in range(lo, hi)]. *)
Definition for_range {T : Type} (lo hi : nat) (body : nat → T → result T) (st : T)
  : result T :=
  for_each (seq lo (hi - lo)) body st.

(** ** Idealised doubles *)

Inductive float : Set := Fin (q : Qc) | PInf | NInf | NaN.

Global Instance float_eq_dec : EqDecision float.
Proof. solve_decision. Defined.

Definition f0 : float := Fin 0.
Definition f1 : float := Fin 1.
Definition of_nat (n : nat) : float := Fin (Qc_of_Z (Z.of_nat n)).

(** Sign of a value that is not NaN. *)
Definition sgn (a : float) : comparison :=
  match a with
  | Fin q => q ?= 0
  | PInf => Gt
  | NInf => Lt
  | NaN => Eq
  end.

Definition sign_mul (s t : comparison) : comparison :=
  match s with
  | Eq => Eq
  | Gt => t
  | Lt => CompOpp t
  end.

(** The infinity of a sign; a zero sign stands for an invalid operation. *)
Definition inf_of_sign (s : comparison) : float :=
  match s with
  | Gt => PInf
  | Lt => NInf
  | Eq => NaN
  end.

Definition fopp (a : float) : float :=
  match a with
  | Fin q => Fin (- q)
  | PInf => NInf
  | NInf => PInf
  | NaN => NaN
  end.

Definition fadd (a b : float) : float :=
  match a, b with
  | NaN, _ | _, NaN => NaN
  | Fin x, Fin y => Fin (x + y)
  | PInf, NInf | NInf, PInf => NaN
  | PInf, _ | _, PInf => PInf
  | NInf, _ | _, NInf => NInf
  end.

Definition fsub (a b : float) : float := fadd a (fopp b).

Definition fmul (a b : float) : float :=
  match a, b with
  | NaN, _ | _, NaN => NaN
  | Fin x, Fin y => Fin (x * y)
  | _, _ => inf_of_sign (sign_mul (sgn a) (sgn b))
  end.

Definition fdiv (a b : float) : float :=
  match a, b with
  | NaN, _ | _, NaN => NaN
  | Fin x, Fin y =>
      if bool_decide (y = 0) then inf_of_sign (sgn a) else Fin (x / y)
  | Fin _, _ => f0
  | _, Fin y =>
      inf_of_sign (sign_mul (sgn a) (if bool_decide (y = 0) then Gt else sgn b))
  | _, _ => NaN
  end.

(** [a == b] and [a < b]: false as soon as one side is NaN. *)
Definition feqb (a b : float) : bool :=
  match a, b with
  | Fin x, Fin y => bool_decide (x = y)
  | PInf, PInf | NInf, NInf => true
  | _, _ => false
  end.

Definition fltb (a b : float) : bool :=
  match a, b with
  | NaN, _ | _, NaN => false
  | Fin x, Fin y => bool_decide (x < y)
  | NInf, (Fin _ | PInf) => true
  | Fin _, PInf => true
  | _, _ => false
  end.

Definition is_nan (a : float) : bool :=
  match a with NaN => true | _ => false end.

(** [np.sum], accumulated from 0 like a [+=] loop, [np.mean] (NaN on an
    empty array: 0/0) and [np.var] (mean of the squared deviations). *)
Definition fsum (l : list float) : float := foldl fadd f0 l.
Definition fmean (l : list float) : float := fdiv (fsum l) (of_nat (length l)).
Definition fvar (l : list float) : float :=
  let m := fmean l in
  fmean (map (λ v, let d := fsub v m in fmul d d) l).

(** ** Arrays *)

Abbreviation vector := (list float).
Abbreviation matrix := (list (list float)).

(** [a[i]] and [a[i, j]] as single-element reads and writes. *)
Definition getV {A} (a : list A) (i : nat) : result A :=
  match a !! i with Some v => Ok v | None => Raise IndexError end.

Definition getM {A} (a : list (list A)) (i j : nat) : result A :=
  match a !! i with
  | Some row => getV row j
  | None => Raise IndexError
  end.

Definition set2 {A} (a : list (list A)) (i j : nat) (v : A) : list (list A) :=
  alter (λ row, <[j := v]> row) i a.

Definition setM {A} (a : list (list A)) (i j : nat) (v : A)
  : result (list (list A)) :=
  _ ← getM a i j; Ok (set2 a i j v).

(** The entry at [(i, j)], if any, and the arrays of shape [(n, k)]. *)
Definition look2 {A} (a : list (list A)) (i j : nat) : option A :=
  a !! i ≫= (.!! j).

Definition shape {A} (n k : nat) (a : list (list A)) : Prop :=
  length a = n ∧ Forall (λ row, length row = k) a.

(** [a[mask]] (boolean indexing) and [a[mask] = v]. *)
Fixpoint select {A} (mask : list bool) (a : list A) : list A :=
  match mask, a with
  | b :: mask', v :: a' => if b then v :: select mask' a' else select mask' a'
  | _, _ => []
  end.

Definition mask_assign {A} (mask : list bool) (v : A) (a : list A) : list A :=
  zip_with (λ (b : bool) x, if b then v else x) mask a.

(** ** Matrix balancer: [iterative_correction_symmetric] *)

Record ic_state : Type := IcState {
  ic_x : matrix;          (* _x *)
  ic_totalBias : vector;  (* totalBias *)
  ic_mask : list bool;    (* mask *)
  ic_iternum : nat;       (* iternum *)
  ic_converged : bool     (* converged *)
}.

Record ic_report : Set := IcReport { converged : bool; iternum : nat }.

Global Instance ic_report_eq_dec : EqDecision ic_report.
Proof. solve_decision. Defined.

(** 0.8 *)
Definition damping : float := Fin (Q2Qc (4 # 5)).

(** [for d in range(0, ignore_diags): for j in range(0, N-d):
       _x[j, j+d] = 0; _x[j+d, j] = 0], under [if ignore_diags > 0]. *)
Definition zero_ignored_diags (N ignore_diags : nat) (x : matrix) : result matrix :=
  if bool_decide (0 < ignore_diags)%nat then
    for_range 0 ignore_diags (λ d x,
      for_range 0 (N - d) (λ j x,
        x ← setM x j (j + d) f0;
        setM x (j + d) j f0) x) x
  else Ok x.

(** [for i in range(N): for j in range(N): _x[i,j] /= s[i] * s[j]]. *)
Definition divide_by_bias (N : nat) (s : vector) (x : matrix) : result matrix :=
  for_range 0 N (λ i x,
    for_range 0 N (λ j x,
      v ← getM x i j;
      si ← getV s i;
      sj ← getV s j;
      setM x i j (fdiv v (fmul si sj))) x) x.

(** The vector statements of one iteration, from the row sums to the
    damped factors:
      s = np.sum(_x, axis=1); mask = (s == 0);
      s = s / np.mean(s[~mask]); s[mask] = 1;
      s -= 1; s *= 0.8; s += 1. *)
Definition row_sums (x : matrix) : vector := map fsum x.
Definition zero_mask (s : vector) : list bool := map (λ v, feqb v f0) s.

Definition damped_factors (s : vector) (mask : list bool) : vector :=
  let s1 := map (λ v, fdiv v (fmean (select (map negb mask) s))) s in
  let s2 := mask_assign mask f1 s1 in
  let s3 := map (λ v, fsub v f1) s2 in
  let s4 := map (λ v, fmul v damping) s3 in
  map (λ v, fadd v f1) s4.

(** The body of the loop at iteration [it]; also returns [crit]. *)
Definition ic_body (N it : nat) (st : ic_state) : result (ic_state * float) :=
  let s0 := row_sums (ic_x st) in
  let mask := zero_mask s0 in
  let s := damped_factors s0 mask in
  let totalBias := zip_with fmul (ic_totalBias st) s in
  x ← divide_by_bias N s (ic_x st);
  Ok (IcState x totalBias mask it (ic_converged st), fvar s).

(** [for iternum in range(max_iter): ...; if tol > 0 and crit < tol:
    converged = True; break]. *)
Fixpoint ic_loop (N : nat) (tol : float) (its : list nat) (st : ic_state)
  : result ic_state :=
  match its with
  | [] => Ok st
  | it :: its' =>
      '(st', crit) ← ic_body N it st;
      if fltb f0 tol && fltb crit tol
      then Ok (IcState (ic_x st') (ic_totalBias st') (ic_mask st') (ic_iternum st') true)
      else ic_loop N tol its' st'
  end.

(** [corr = totalBias[~mask].mean(); _x = _x * corr * corr;
    totalBias /= corr; report = {...}] *)
Definition ic_finish (st : ic_state) : matrix * vector * ic_report :=
  let corr := fmean (select (map negb (ic_mask st)) (ic_totalBias st)) in
  (map (map (λ v, fmul (fmul v corr) corr)) (ic_x st),
   map (λ b, fdiv b corr) (ic_totalBias st),
   IcReport (ic_converged st) (ic_iternum st)).

(** Everything up to the end of the loop, on the copy [_x] of the input. *)
Definition ic_core (x : matrix) (max_iter ignore_diags : nat) (tol : float)
  : result ic_state :=
  let N := length x in
  x0 ← zero_ignored_diags N ignore_diags x;
  let st0 := IcState x0 (replicate N f1) (zero_mask (row_sums x0)) 0 false in
  ic_loop N tol (seq 0 max_iter) st0.

Definition iterative_correction_symmetric
    (x : matrix) (max_iter ignore_diags : nat) (tol : float)
  : result (matrix * vector * ic_report) :=
  st ← ic_core x max_iter ignore_diags tol;
  Ok (ic_finish st).

(** *** Closed forms of the two explicit loops *)

Definition dist (i j : nat) : nat := (i - j) + (j - i).

Definition mat_imap {A B} (f : nat → nat → A → B) (a : list (list A))
  : list (list B) :=
  imap (λ i row, imap (f i) row) a.

(** Every entry within [k] diagonals of the main one set to zero. *)
Definition zeroed_diags (k : nat) (x : matrix) : matrix :=
  mat_imap (λ i j v, if bool_decide (dist i j < k)%nat then f0 else v) x.

(** Entry [(i, j)] divided by [s[i] * s[j]]. *)
Definition scaled_by_bias (s : vector) (x : matrix) : matrix :=
  zip_with (λ si row, zip_with (λ sj v, fdiv v (fmul si sj)) s row) s x.

(** *** The balancer without its index checks

    On a square matrix no index of the two explicit loops is out of range;
    the run is then the composition of the closed forms. *)

Definition ic_step (it : nat) (st : ic_state) : ic_state * float :=
  let s0 := row_sums (ic_x st) in
  let mask := zero_mask s0 in
  let s := damped_factors s0 mask in
  (IcState (scaled_by_bias s (ic_x st)) (zip_with fmul (ic_totalBias st) s)
           mask it (ic_converged st),
   fvar s).

Definition ic_stop (st : ic_state) : ic_state :=
  IcState (ic_x st) (ic_totalBias st) (ic_mask st) (ic_iternum st) true.

Fixpoint ic_run (tol : float) (its : list nat) (st : ic_state) : ic_state :=
  match its with
  | [] => st
  | it :: its' =>
      let '(st', crit) := ic_step it st in
      if fltb f0 tol && fltb crit tol then ic_stop st' else ic_run tol its' st'
  end.

Definition ic_init (N ignore_diags : nat) (x : matrix) : ic_state :=
  let x0 := zeroed_diags ignore_diags x in
  IcState x0 (replicate N f1) (zero_mask (row_sums x0)) 0 false.

Definition ic_wf (N : nat) (st : ic_state) : Prop :=
  shape N N (ic_x st) ∧ length (ic_totalBias st) = N.

(** *** The notions the statements about the balancer use *)

Definition symmetric {A} (a : list (list A)) : Prop :=
  ∀ i j, look2 a i j = look2 a j i.


(** Every row sum is zero. *)
Definition zero_rows (x : matrix) : Prop :=
  Forall (λ row, feqb (fsum row) f0 = true) x.

Global Instance float_inhabited : Inhabited float := populate NaN.

(** One iteration in the words of the specification: the row sums, the
    excluded rows [s == 0], the sums normalised by the mean of the rows
    that are not excluded, 1 for the excluded ones, the damped factor
    [s' = 1 + 0.8 * (s - 1)], the bias multiplied by [s'] and the entry
    [(i, j)] divided by [s'[i] * s'[j]]. *)
Definition spec_excluded (x : matrix) : list bool :=
  map (λ row, feqb (fsum row) f0) x.

Definition spec_factors (x : matrix) : vector :=
  let s := map fsum x in
  let m := fmean (filter (λ v, feqb v f0 = false) s) in
  map (λ si,
         let n := if feqb si f0 then f1 else fdiv si m in
         fadd f1 (fmul damping (fsub n f1))) s.

Definition spec_iteration (it : nat) (st : ic_state) : ic_state :=
  let s' := spec_factors (ic_x st) in
  IcState (mat_imap (λ i j v, fdiv v (fmul (s' !!! i) (s' !!! j))) (ic_x st))
          (zip_with fmul (ic_totalBias st) s')
          (spec_excluded (ic_x st))
          it (ic_converged st).

(** A call that ends in an exception. *)
Definition raises {A} (r : result A) : Prop := ∃ e, r = Raise e.

(** 1e-5, the default tolerance. *)
Definition tol_default : float := Fin (Q2Qc (1 # 100000)).

(** ** Distance-decay normaliser: [logbins] and [observed_over_expected] *)

(** [np.sort(np.unique(a))] on integers: insertion without duplicates. *)
Fixpoint insert_unique (n : nat) (l : list nat) : list nat :=
  match l with
  | [] => [n]
  | m :: l' =>
      if (n <? m)%nat then n :: l
      else if (n =? m)%nat then l
      else m :: insert_unique n l'
  end.

Definition sort_unique (l : list nat) : list nat := foldr insert_unique [] l.

Definition py_assert (b : bool) : result unit :=
  if b then Ok () else Raise AssertionError.

(** [a[-1]] *)
Definition get_last {A} (a : list A) : result A :=
  match last a with Some v => Ok v | None => Raise IndexError end.

Section logbins.
(** The rounded log-spaced points
    [np.rint(np.logspace(log10(lo), log10(hi), log(hi/lo)/log(ratio)))]:
    logarithms and powers of doubles, left as a parameter. *)
Variable rint_logspace : nat → nat → float → list nat.

(** [logbins(lo, hi, ratio)], as the normaliser calls it ([N] and
    [prepend_zero] at their defaults). *)
Definition logbins (lo hi : nat) (ratio : float) : result (list nat) :=
  if negb (feqb ratio f0) then
    let data10 := sort_unique (rint_logspace lo hi ratio) in
    first ← getV data10 0;
    _ ← py_assert (first =? lo)%nat;
    final ← get_last data10;
    _ ← py_assert (final =? hi)%nat;
    Ok data10
  else Raise ValueError.

(** The [mask] argument by its number of dimensions. *)
Inductive mask_arg : Type :=
| Mask1D (m : list bool)
| Mask2D (m : list (list bool))
| MaskND.

Definition size2 {A} (a : list (list A)) : nat := sum_list (map length a).

(** [mask[:, None] * mask[None, :]] *)
Definition outer_and (m : list bool) : list (list bool) :=
  map (λ a, map (λ b, a && b) m) m.

(** [not has_mask or mask2d[offset+j, j]] *)
Definition oe_valid (has_mask : bool) (mask2d : list (list bool))
    (offset j : nat) : result bool :=
  if has_mask then getM mask2d (offset + j) j else Ok true.

(** The first pair of loops: sum and count of the valid pixels of the
    diagonals [lo <= offset < hi], read in the lower triangle. *)
Definition oe_accumulate (N : nat) (has_mask : bool) (mask2d : list (list bool))
    (data : matrix) (lo hi : nat) : result (float * nat) :=
  for_range lo hi (λ offset acc,
    for_range 0 (N - offset) (λ j '(sum_pixels, n_pixels),
      ok ← oe_valid has_mask mask2d offset j;
      if ok : bool then
        v ← getM data (offset + j) j;
        Ok (fadd sum_pixels v, S n_pixels)
      else Ok (sum_pixels, n_pixels)) acc) (f0, 0%nat).

(** The second pair of loops: the valid pixels and their mirrors divided
    by [mean_pixel]. *)
Definition oe_divide (N : nat) (has_mask : bool) (mask2d : list (list bool))
    (mean_pixel : float) (lo hi : nat) (data : matrix) : result matrix :=
  for_range lo hi (λ offset data,
    for_range 0 (N - offset) (λ j data,
      ok ← oe_valid has_mask mask2d offset j;
      if ok : bool then
        v ← getM data (offset + j) j;
        data ← setM data (offset + j) j (fdiv v mean_pixel);
        if bool_decide (0 < offset)%nat then
          w ← getM data j (offset + j);
          setM data j (offset + j) (fdiv w mean_pixel)
        else Ok data
      else Ok data) data) data.

(** [a[i] = v] *)
Definition setV {A} (a : list A) (i : nat) (v : A) : result (list A) :=
  _ ← getV a i; Ok (<[i := v]> a).

(** [sum_pixels / n_pixels], which Python refuses for a zero count. *)
Definition py_div (a : float) (n : nat) : result float :=
  if (n =? 0)%nat then Raise ZeroDivisionError else Ok (fdiv a (of_nat n)).

Definition oe_state : Type := matrix * list nat * vector.

(** One distance bin: the body of the outer loop. *)
Definition oe_bin (N : nat) (has_mask : bool) (mask2d : list (list bool))
    (bin : nat * (nat * nat)) (st : oe_state) : result oe_state :=
  let '(bin_idx, (lo, hi)) := bin in
  let '(data, n_pixels_arr, sum_pixels_arr) := st in
  '(sum_pixels, n_pixels) ← oe_accumulate N has_mask mask2d data lo hi;
  n_pixels_arr ← setV n_pixels_arr bin_idx n_pixels;
  sum_pixels_arr ← setV sum_pixels_arr bin_idx sum_pixels;
  if (n_pixels =? 0)%nat then Ok (data, n_pixels_arr, sum_pixels_arr)
  else
    mean_pixel ← py_div sum_pixels n_pixels;
    if feqb mean_pixel f0 then Ok (data, n_pixels_arr, sum_pixels_arr)
    else
      data ← oe_divide N has_mask mask2d mean_pixel lo hi data;
      Ok (data, n_pixels_arr, sum_pixels_arr).

(** [zip(range(len(dist_bins)-1), dist_bins[:-1], dist_bins[1:])] *)
Definition oe_bins (dist_bins : list nat) : list (nat * (nat * nat)) :=
  zip (seq 0 (length dist_bins - 1))
      (zip (take (length dist_bins - 1) dist_bins) (drop 1 dist_bins)).

Definition oe_mask2d (mask : mask_arg) : result (list (list bool)) :=
  match mask with
  | Mask1D m => Ok (if (0 <? length m)%nat then outer_and m else [])
  | Mask2D m => Ok m
  | MaskND => Raise ValueError
  end.

(** Returns [data, dist_bins, sum_pixels_arr, n_pixels_arr]; [data] is a
    fresh array ([np.array(matrix, ...)]). *)
Definition observed_over_expected (x : matrix) (mask : mask_arg)
    (dist_bin_edge_ratio : float)
  : result (matrix * list nat * vector * list nat) :=
  let N := length x in
  mask2d ← oe_mask2d mask;
  let has_mask := (0 <? size2 mask2d)%nat in
  edges ← logbins 1 N dist_bin_edge_ratio;
  let dist_bins := 0%nat :: edges in
  let nbins := (length dist_bins - 1)%nat in
  '(data, n_pixels_arr, sum_pixels_arr) ←
    for_each (oe_bins dist_bins) (oe_bin N has_mask mask2d)
             (x, replicate nbins 0%nat, replicate nbins f0);
  Ok (data, dist_bins, sum_pixels_arr, n_pixels_arr).
End logbins.

(** 1.03, the default ratio, and the empty default mask. *)
Definition ratio_default : float := Fin (Q2Qc (103 # 100)).
Definition mask_default : mask_arg := Mask1D [].

(** Bins numbered from [i0], each one non-empty and starting no lower than
    the one before ends. *)
Fixpoint bins_chain (i0 lo0 : nat) (bins : list (nat * (nat * nat))) : Prop :=
  match bins with
  | [] => True
  | (idx, (lo, hi)) :: rest =>
      idx = i0 ∧ (lo0 ≤ lo)%nat ∧ (lo < hi)%nat ∧ bins_chain (S i0) hi rest
  end.

(** *** The normaliser, bin by bin *)

(** The entry at [(i, j)] of an array that has one. *)
Definition ent (a : matrix) (i j : nat) : float := default NaN (look2 a i j).

(** Whether the pixel [(offset + j, j)] takes part. *)
Definition valid_px (has_mask : bool) (mask2d : list (list bool))
    (offset j : nat) : bool :=
  if has_mask then default false (look2 mask2d (offset + j) j) else true.

(** The pairs [(offset, j)] the loops go through for one bin, in order. *)
Definition cells (N lo hi : nat) : list (nat * nat) :=
  flat_map (λ o, map (pair o) (seq 0 (N - o))) (seq lo (hi - lo)).

Section bins.
Context (N : nat) (valid : nat → nat → bool).

Definition bin_pixels (lo hi : nat) : list (nat * nat) :=
  List.filter (λ c, valid c.1 c.2) (cells N lo hi).

(** Sum and count of the valid pixels [(offset + j, j)] of a bin, and
    their mean. *)
Definition bin_sum (data : matrix) (lo hi : nat) : float :=
  fsum (map (λ c, ent data (c.1 + c.2) c.2) (bin_pixels lo hi)).
Definition bin_count (lo hi : nat) : nat := length (bin_pixels lo hi).
Definition bin_mean (data : matrix) (lo hi : nat) : float :=
  fdiv (bin_sum data lo hi) (of_nat (bin_count lo hi)).

(** What one pixel adds to the running sum and count. *)
Definition accum_pixel (data : matrix) (acc : float * nat) (c : nat * nat)
  : float * nat :=
  if valid c.1 c.2 then (fadd acc.1 (ent data (c.1 + c.2) c.2), S acc.2) else acc.

(** The bin is normalised: it has a valid pixel and its mean is not 0. *)
Definition bin_normalised (data : matrix) (lo hi : nat) : bool :=
  negb (bin_count lo hi =? 0)%nat && negb (feqb (bin_mean data lo hi) f0).

(** [(a, b)] is a pixel of the bin, or the mirror of one, and the pixel
    of the lower triangle is valid. *)
Definition bin_touches (lo hi a b : nat) : bool :=
  (lo <=? dist a b)%nat && (dist a b <? hi)%nat && valid (dist a b) (a `min` b).

Definition divided (mean : float) (lo hi : nat) (data : matrix) : matrix :=
  mat_imap (λ a b v, if bin_touches lo hi a b then fdiv v mean else v) data.

(** The array after the pixels of one bin were normalised, if they were. *)
Definition bin_out (data : matrix) (lo hi : nat) : matrix :=
  if bin_normalised data lo hi
  then divided (bin_mean data lo hi) lo hi data else data.

Definition oe_bin_pure (st : oe_state) (bin : nat * (nat * nat)) : oe_state :=
  let '(bin_idx, (lo, hi)) := bin in
  let '(data, n_pixels_arr, sum_pixels_arr) := st in
  (bin_out data lo hi,
   <[bin_idx := bin_count lo hi]> n_pixels_arr,
   <[bin_idx := bin_sum data lo hi]> sum_pixels_arr).
End bins.

(** *** Inputs of the examples *)

(** [M[i, j] = |i - j|] for [N = 4]. *)
Definition decay4 : matrix :=
  [ map of_nat [0; 1; 2; 3]%nat;
    map of_nat [1; 0; 1; 2]%nat;
    map of_nat [2; 1; 0; 1]%nat;
    map of_nat [3; 2; 1; 0]%nat ].

(** The rounded log-spaced points of [logbins(1, 4, ratio=2)]:
    [np.logspace(0, log10(4), 2) = [1., 4.]]. *)
Definition points_1_4 : nat → nat → float → list nat := λ _ _ _, [1; 4]%nat.

Definition ratio_two : float := Fin (Q2Qc (2 # 1)).

(** No pixel is masked. *)
Definition all_valid : nat → nat → bool := λ _ _, true.

(** ** Lazy Toeplitz matrix: [LazyToeplitz] *)

(** Python slices with integer bounds.  [a[start:stop]]: a negative bound
    counts from the end, and both are clipped to [0 .. len]. *)
Definition clip (len : nat) (i : Z) : nat :=
  Z.to_nat (if (i <? 0)%Z then Z.max 0 (i + Z.of_nat len)
            else Z.min i (Z.of_nat len)).

Definition slice {A} (a : list A) (start stop : Z) : list A :=
  let lo := clip (length a) start in
  let hi := clip (length a) stop in
  take (hi - lo) (drop lo a).

(** [a[start:stop:-1]]: the bounds are clipped to [-1 .. len - 1] and the
    elements [a[start], a[start-1], ...] down to [a[stop+1]] are taken. *)
Definition clip_rev (len : nat) (i : Z) : Z :=
  if (i <? 0)%Z then Z.max (-1) (i + Z.of_nat len)
  else Z.min i (Z.of_nat len - 1).

Definition slice_rev {A} (a : list A) (start stop : Z) : list A :=
  let hi := clip_rev (length a) start in
  let lo := clip_rev (length a) stop in
  reverse (take (Z.to_nat (hi - lo)) (drop (Z.to_nat (lo + 1)) a)).

(** [scipy.linalg.toeplitz(c, r)]: the array of shape [(len(c), len(r))]
    with [c[i - j]] at [(i, j)] for [i >= j] and [r[j - i]] above. *)
Definition toeplitz (c r : vector) : matrix :=
  (λ i, (λ j, if (j <=? i)%nat then c !!! (i - j)%nat else r !!! (j - i)%nat)
        <$> seq 0 (length r))
  <$> seq 0 (length c).

(** [__init__(c, r)] *)
Definition LazyToeplitz_init (c : vector) (r : option vector)
  : result (vector * vector) :=
  match r with
  | None => Ok (c, c)
  | Some r =>
      c0 ← getV c 0;
      r0 ← getV r 0;
      if negb (feqb c0 r0) then Raise ValueError else Ok (c, r)
  end.

(** The asymmetric query once the block does not start below the
    diagonal:
      c = np.r_[R[(j0-i0) : max(0, j0-i1) : -1], C[0 : max(0, i1-j0)]]
      r = R[(j0-i0):(j1-i0)] *)
Definition above_diagonal (C R : vector) (i0 i1 j0 j1 : Z) : vector * vector :=
  (slice_rev R (j0 - i0) (Z.max 0 (j0 - i1)) ++ slice C 0 (Z.max 0 (i1 - j0)),
   slice R (j0 - i0) (j1 - i0)).

(** The vectors [__getitem__] hands to [toeplitz] for the rows [i0:i1] and
    the columns [j0:j1] (the bounds as [_process_slice] returns them). *)
Definition getitem_cr (self : vector * vector) (i0 i1 j0 j1 : Z)
  : vector * vector :=
  let '(C, R) := self in
  if (i0 =? j0)%Z && (i1 =? j1)%Z then
    (slice C 0 (i1 - i0), slice R 0 (j1 - j0))
  else if (j0 <? i0)%Z || ((i0 =? j0)%Z && (i1 <? j1)%Z) then
    (* the block of the transposed matrix, then [c, r = r, c] *)
    let '(c, r) := above_diagonal R C j0 j1 i0 i1 in (r, c)
  else above_diagonal C R i0 i1 j0 j1.

Definition getitem (self : vector * vector) (i0 i1 j0 j1 : Z) : matrix :=
  let '(c, r) := getitem_cr self i0 i1 j0 j1 in toeplitz c r.

(** The dense matrix a lazy Toeplitz matrix stands for, in the words of
    the specification: [C[i - j]] for [i >= j] and [R[j - i]] otherwise,
    and [full[i0:i1, j0:j1]]. *)
Definition full_matrix (C R : vector) : matrix :=
  (λ i, (λ j, if (j <=? i)%nat then C !!! (i - j)%nat else R !!! (j - i)%nat)
        <$> seq 0 (length R))
  <$> seq 0 (length C).

Definition submatrix {A} (a : list (list A)) (i0 i1 j0 j1 : Z) : list (list A) :=
  (λ row, slice row j0 j1) <$> slice a i0 i1.

Definition C_ex : vector := map of_nat [1; 2; 3; 4]%nat.
Definition R_ex : vector := map of_nat [1; 5; 6; 7]%nat.

(** ** Insulation boundary caller: the bad-bin counts of
    [find_insulating_boundaries] *)

(** [a[start:stop]] where a bound may be left out. *)
Definition slice_bounds (len : nat) (start stop : option Z) : nat * nat :=
  (from_option (clip len) 0%nat start, from_option (clip len) len stop).

Definition slice_opt {A} (a : list A) (start stop : option Z) : list A :=
  let '(lo, hi) := slice_bounds (length a) start stop in
  take (hi - lo) (drop lo a).

(** [a[start:stop] += vals]: element by element when the lengths agree, a
    single value is broadcast, anything else is refused by numpy. *)
Definition iadd_slice (a : list Z) (start stop : option Z) (vals : list Z)
  : result (list Z) :=
  let '(lo, hi) := slice_bounds (length a) start stop in
  let target := take (hi - lo) (drop lo a) in
  if (length vals =? length target)%nat then
    Ok (take lo a ++ zip_with Z.add target vals ++ drop (lo + length target) a)
  else
    match vals with
    | [v] => Ok (take lo a ++ map (Z.add v) target ++ drop (lo + length target) a)
    | _ => Raise ValueError
    end.

(** [a[start:stop] += 1] *)
Definition iadd_slice_one (a : list Z) (start stop : option Z) : list Z :=
  let '(lo, hi) := slice_bounds (length a) start stop in
  let target := take (hi - lo) (drop lo a) in
  take lo a ++ map (Z.add 1) target ++ drop (lo + length target) a.

(** The loop that fills [bad_bins_u] and [bad_bins_d]:
      for i in range(1, window_bins):
          bad_bins_u[i:] += is_bad_bin[:-i]
          bad_bins_u[:i] += 1
          bad_bins_d[:-i] += is_bad_bin[i:]
          bad_bins_u[-i:] += 1 *)
Definition bad_bin_counts (is_bad_bin : list bool) (window_bins : nat)
  : result (list Z * list Z) :=
  let flags := map Z.b2z is_bad_bin in
  for_range 1 window_bins (λ i '(bad_bins_u, bad_bins_d),
    let i := Z.of_nat i in
    bad_bins_u ← iadd_slice bad_bins_u (Some i) None (slice_opt flags None (Some (- i)%Z));
    let bad_bins_u := iadd_slice_one bad_bins_u None (Some i) in
    bad_bins_d ← iadd_slice bad_bins_d None (Some (- i)%Z) (slice_opt flags (Some i) None);
    let bad_bins_u := iadd_slice_one bad_bins_u (Some (- i)%Z) None in
    Ok (bad_bins_u, bad_bins_d)) (flags, flags).

(** [window_bp // bin_size] and [window_bp % bin_size]: [bin_size] is read
    from the attributes of the file and is a numpy integer, so a zero
    divisor gives 0 (and a warning), not an exception. *)
Definition np_floordiv (a b : nat) : nat := (a / b)%nat.
Definition np_mod (a b : nat) : nat := if (b =? 0)%nat then 0%nat else (a mod b)%nat.

(** The part of [find_insulating_boundaries] that decides which bins of one
    chromosome are marked missing; [track] is
    [np.log2(insul_diamond(m, window_bins, ignore_diags))].  Returns the
    track and the two columns of counts. *)
Definition mark_missing (window_bp bin_size : nat) (max_bad_bins : Z)
    (is_bad_bin : list bool) (track : vector)
  : result (vector * list Z * list Z) :=
  let window_bins := np_floordiv window_bp bin_size in
  if negb (np_mod window_bp bin_size =? 0)%nat then Raise Exception else
  '(bad_bins_u, bad_bins_d) ← bad_bin_counts is_bad_bin window_bins;
  let track := mask_assign is_bad_bin NaN track in
  let track := mask_assign (map (λ n, max_bad_bins <? n)%Z bad_bins_u) NaN track in
  let track := mask_assign (map (λ n, max_bad_bins <? n)%Z bad_bins_d) NaN track in
  Ok (track, bad_bins_u, bad_bins_d).

(** The marking in the words of the specification: a position is bad when
    it is a bad bin or lies outside the chromosome; the upstream window of
    bin [i] is [i, i-1, ..., i-w+1], the downstream one [i, ..., i+w-1];
    a bin is missing when it is bad or one of its windows holds more than
    [max_bad_bins] bad positions. *)
Definition bad_or_out (is_bad_bin : list bool) (p : Z) : Z :=
  if (p <? 0)%Z || (Z.of_nat (length is_bad_bin) <=? p)%Z then 1%Z
  else Z.b2z (is_bad_bin !!! Z.to_nat p).

Definition spec_upstream (is_bad_bin : list bool) (w i : nat) : Z :=
  foldr Z.add 0%Z (map (λ k, bad_or_out is_bad_bin (Z.of_nat i - Z.of_nat k)) (seq 0 w)).

Definition spec_downstream (is_bad_bin : list bool) (w i : nat) : Z :=
  foldr Z.add 0%Z (map (λ k, bad_or_out is_bad_bin (Z.of_nat i + Z.of_nat k)) (seq 0 w)).

Definition spec_missing (is_bad_bin : list bool) (w : nat) (max_bad_bins : Z)
  : list bool :=
  imap (λ i bad,
          bad || (max_bad_bins <? spec_upstream is_bad_bin w i)%Z
              || (max_bad_bins <? spec_downstream is_bad_bin w i)%Z)
       is_bad_bin.

(** ** Arrays as objects: which buffer an operation writes

    An array argument is a reference into a store of buffers; [copy()]
    and [np.array(...)] allocate a fresh buffer, every other statement
    writes the buffer its variable refers to. *)

Abbreviation store := (gmap nat matrix).

(** The buffer of a reference; a reference always has one in Python, and
    the other case only makes the function total. *)
Definition deref (h : store) (l : nat) : result matrix :=
  match h !! l with Some a => Ok a | None => Raise Exception end.

Definition alloc (h : store) (a : matrix) : store * nat :=
  let l := fresh (dom h) in (<[l := a]> h, l).

(** [arr.copy()] *)
Definition np_copy (h : store) (arr : nat) : result (store * nat) :=
  a ← deref h arr; Ok (alloc h a).

(** *** The flat view of an array *)

(** [arr.shape[1]] *)
Definition ncols (a : matrix) : nat := length (default [] (head a)).

(** The buffer cut back into the rows of [a]. *)
Fixpoint unflatten (a : matrix) (flat : vector) : matrix :=
  match a with
  | [] => []
  | row :: a' => take (length row) flat :: unflatten a' (drop (length row) flat)
  end.

Fixpoint stride_from (lo step n : nat) : list nat :=
  match n with
  | 0%nat => []
  | S n' => lo :: stride_from (lo + step) step n'
  end.

(** The positions of [flat[start:stop:step]] for a positive step. *)
Definition flat_positions (size : nat) (start stop : option Z) (step : nat)
  : list nat :=
  let '(lo, hi) := slice_bounds size start stop in
  stride_from lo step ((hi - lo + step - 1) / step).

(** What is written: a value, or an array of values repeated as needed. *)
Inductive fill_value : Type := Scalar (v : float) | Values (vs : vector).

(** The [k]-th value written by [arr.flat[...] = x]. *)
Definition value_of (x : fill_value) (k : nat) : float :=
  match x with
  | Scalar v => v
  | Values vs => vs !!! (k mod length vs)%nat
  end.

(** [arr.flat[positions] = x]; with an empty array of values numpy writes
    nothing. *)
Definition flat_assign (a : matrix) (positions : list nat) (x : fill_value)
  : result matrix :=
  match x with
  | Values [] => Ok a
  | _ =>
      flat ← for_each (zip (seq 0 (length positions)) positions)
                (λ kp flat, Ok (<[kp.2 := value_of x kp.1]> flat))
                (concat a);
      Ok (unflatten a flat)
  end.

(** *** Diagonal utilities *)

(** [max(i, -arr.shape[1]*i) : max(0, arr.shape[1]-i)*arr.shape[1]
      : arr.shape[1]+1] *)
Definition diag_positions (a : matrix) (i : Z) : list nat :=
  let k := Z.of_nat (ncols a) in
  flat_positions (length (concat a))
    (Some (Z.max i (- k * i))%Z) (Some (Z.max 0 (k - i) * k)%Z) (ncols a + 1).

(** [get_diag(arr, i)]: the values of the diagonal, nothing is written. *)
Definition get_diag (h : store) (arr : nat) (i : Z) : result (store * vector) :=
  a ← deref h arr;
  Ok (h, omap (λ p, concat a !! p) (diag_positions a i)).

(** [set_diag(arr, x, i=0, copy=False)] *)
Definition set_diag (h : store) (arr : nat) (x : fill_value) (i : Z) (copy : bool)
  : result (store * nat) :=
  '(h, arr) ← (if copy then np_copy h arr else Ok (h, arr));
  a ← deref h arr;
  a' ← flat_assign a (diag_positions a i) x;
  Ok (<[arr := a']> h, arr).

Definition set_diag_i_default : Z := 0%Z.
Definition set_diag_copy_default : bool := false.

(** [fill_diagonal(arr, values, k=0, wrap=False, copy=True)] *)
Definition fill_diagonal (h : store) (arr : nat) (values : fill_value) (k : Z)
    (wrap copy : bool) : result (store * nat) :=
  '(h, arr) ← (if copy then np_copy h arr else Ok (h, arr));
  a ← deref h arr;
  let n := Z.of_nat (ncols a) in
  let stop := if wrap then None else Some (k + n * n)%Z in
  a' ← flat_assign a
         (flat_positions (length (concat a)) (Some k) stop (ncols a + 1)) values;
  Ok (<[arr := a']> h, arr).

Definition fill_copy_default : bool := true.

(** [arr[test(arr)] = value] on a copy or in place. *)
Definition fill_where (test : float → bool) (value : float)
    (h : store) (arr : nat) (copy : bool) : result (store * nat) :=
  '(h, arr) ← (if copy then np_copy h arr else Ok (h, arr));
  a ← deref h arr;
  Ok (<[arr := map (map (λ v, if test v then value else v)) a]> h, arr).

Definition is_posinf (a : float) : bool := match a with PInf => true | _ => false end.
Definition is_neginf (a : float) : bool := match a with NInf => true | _ => false end.
Definition is_finite (a : float) : bool := match a with Fin _ => true | _ => false end.

(** [fill_na(arr, value=0, copy=True)] *)
Definition fill_na (h : store) (arr : nat) (value : float) (copy : bool)
  : result (store * nat) :=
  fill_where is_nan value h arr copy.

(** [fill_inf(arr, pos_value=0, neg_value=0, copy=True)] *)
Definition fill_inf (h : store) (arr : nat) (pos_value neg_value : float)
    (copy : bool) : result (store * nat) :=
  '(h, arr) ← fill_where is_posinf pos_value h arr copy;
  fill_where is_neginf neg_value h arr false.

(** [fill_nainf(arr, value=0, copy=True)] *)
Definition fill_nainf (h : store) (arr : nat) (value : float) (copy : bool)
  : result (store * nat) :=
  fill_where (λ v, negb (is_finite v)) value h arr copy.

(** *** Insulation score: [insul_diamond] *)

(** Order on the values that are not NaN, and [np.nanmedian]. *)
Definition fleb (a b : float) : bool :=
  match a, b with
  | NInf, _ | _, PInf => true
  | Fin x, Fin y => bool_decide (x ≤ y)
  | _, _ => false
  end.

Fixpoint finsert (v : float) (l : vector) : vector :=
  match l with
  | [] => [v]
  | w :: l' => if fleb v w then v :: l else w :: finsert v l'
  end.

Definition fsort (l : vector) : vector := foldr finsert [] l.

Definition not_nan (l : vector) : vector := List.filter (λ v, negb (is_nan v)) l.

Definition nanmean (l : vector) : float := fmean (not_nan l).

Definition nanmedian (l : vector) : float :=
  let s := fsort (not_nan l) in
  let n := length s in
  if (n =? 0)%nat then NaN
  else if Nat.odd n then s !!! (n / 2)%nat
  else fdiv (fadd (s !!! (n / 2 - 1)%nat) (s !!! (n / 2)%nat)) (of_nat 2).

(** The score of an array whose ignored diagonals are already NaN
    ([bad_bins], computed first in the source, is not used afterwards):
      for i in range(0, N):
          lo = max(0, i-window); hi = min(i+window, N)
          score[i] = np.nanmean(mat[lo:i, i:hi])
          norm[i] = (~np.isnan(mat[lo:i, i:hi])).sum()
      score = score / np.where(norm>0, norm, 1)
      score /= np.nanmedian(score) *)
Definition insul_score (mat : matrix) (window : nat) : vector :=
  let N := length mat in
  let diamond (i : nat) : vector :=
    concat (submatrix mat (Z.of_nat (i - window)) (Z.of_nat i)
                          (Z.of_nat i) (Z.of_nat ((i + window) `min` N))) in
  let score := map (λ i, nanmean (diamond i)) (seq 0 N) in
  let norm := map (λ i, length (not_nan (diamond i))) (seq 0 N) in
  let score :=
    zip_with (λ s n, fdiv s (of_nat (if (0 <? n)%nat then n else 1))) score norm in
  let med := nanmedian score in
  map (λ s, fdiv s med) score.

(** [range(lo, hi)] over the integers. *)
Definition range_Z (lo hi : Z) : list Z :=
  map (λ k, (lo + Z.of_nat k)%Z) (seq 0 (Z.to_nat (hi - lo))).

(** [insul_diamond(mat, window=10, ignore_diags=2)] *)
Definition insul_diamond (h : store) (mat : nat) (window : nat) (ignore_diags : Z)
  : result (store * vector) :=
  '(h, mat) ←
    (if bool_decide (ignore_diags ≠ 0%Z) then
       '(h, mat) ← np_copy h mat;
       for_each (range_Z (- ignore_diags) (ignore_diags + 1))
                (λ i '(h, mat), set_diag h mat (Scalar NaN) i set_diag_copy_default)
                (h, mat)
     else Ok (h, mat));
  a ← deref h mat;
  Ok (h, insul_score a window).

(** *** The balancer and the normaliser on references *)

(** [_x = x.copy()], the loop writes [_x], and [_x * corr * corr] is a new
    array, which is returned. *)
Definition iterative_correction_symmetric_ref (h : store) (x : nat)
    (max_iter ignore_diags : nat) (tol : float)
  : result (store * (nat * vector * ic_report)) :=
  '(h, _x) ← np_copy h x;
  a ← deref h _x;
  st ← ic_core a max_iter ignore_diags tol;
  let h := <[_x := ic_x st]> h in
  let '(corrected, totalBias, report) := ic_finish st in
  let '(h, out) := alloc h corrected in
  Ok (h, (out, totalBias, report)).

(** [data = np.array(matrix, ...)], the loops write [data], which is
    returned. *)
Definition observed_over_expected_ref (rl : nat → nat → float → list nat)
    (h : store) (x : nat) (mask : mask_arg) (ratio : float)
  : result (store * (nat * list nat * vector * list nat)) :=
  '(h, data) ← np_copy h x;
  a ← deref h data;
  '(a', dist_bins, sums, counts) ← observed_over_expected rl a mask ratio;
  Ok (<[data := a']> h, (data, dist_bins, sums, counts)).

(** An operation that returned left the buffer at [x] as it was. *)
Definition leaves_unchanged {V} (x : nat) (h : store) (r : result (store * V)) : Prop :=
  ∀ h' v, r = Ok (h', v) → h' !! x = h !! x.

Definition ones3 : matrix := replicate 3 (replicate 3 f1).

Definition ones2 : matrix := [[f1; f1]; [f1; f1]].
Definition zeros2 : matrix := [[f0; f0]; [f0; f0]].
Definition four : Qc := Q2Qc (4 # 1).

(** The state before the first iteration on [ones2]. *)
Definition ones2_state : ic_state := ic_init 2 0 ones2.



(** A pixel mask for [decay4] that is not symmetric. *)
Definition mask4 : list (list bool) :=
  [ [true; false; false; false];
    [true; true; false; false];
    [false; true; true; false];
    [true; true; true; true] ].

(** *** The factor of one row *)


(** Counts with an empty bin: the third row and column are zero. *)
Definition counts3 : matrix :=
  [ map of_nat [0; 2; 0]%nat;
    map of_nat [2; 1; 0]%nat;
    map of_nat [0; 0; 0]%nat ].

(** *** [logbins] with all its arguments *)

Section logbins_arguments.
(** The rounded log-spaced points for a given ratio (as above) and for a
    given number of points [np.rint(np.logspace(log10(lo), log10(hi), N))]. *)
Variable rint_logspace : nat → nat → float → list nat.
Variable rint_logspace_num : nat → nat → nat → list nat.

(** [logbins(lo, hi, ratio=0, N=0, prepend_zero=False)]; [hi / lo] is a
    division of Python integers. *)
Definition logbins_full (lo hi : nat) (ratio : float) (N : nat) (prepend_zero : bool)
  : result (list nat) :=
  points ←
    (if negb (feqb ratio f0) then
       if negb (N =? 0)%nat then Raise ValueError
       else if (lo =? 0)%nat then Raise ZeroDivisionError
       else Ok (rint_logspace lo hi ratio)
     else if (N =? 0)%nat then Raise ValueError
     else Ok (rint_logspace_num lo hi N));
  let data10 := sort_unique points in
  first ← getV data10 0;
  _ ← py_assert (first =? lo)%nat;
  final ← get_last data10;
  _ ← py_assert (final =? hi)%nat;
  Ok (if prepend_zero : bool then 0%nat :: data10 else data10).
End logbins_arguments.

(** *** What a diagonal assignment writes *)

(** [x] has a value for each of [n] positions: it is not an empty array of
    values, unless there is nothing to write. *)
Definition writable (x : fill_value) (n : nat) : Prop :=
  match x with
  | Scalar _ => True
  | Values vs => vs ≠ [] ∨ n = 0%nat
  end.

(** The matrix with the [i]-th diagonal replaced by the values of [x], in
    the order of the diagonal. *)
Definition with_diag (i : Z) (x : fill_value) (a : matrix) : matrix :=
  mat_imap (λ r c v,
    if bool_decide (Z.of_nat c - Z.of_nat r = i)%Z then value_of x (r `min` c) else v) a.

(** The positions of the downstream window of bin [p] (of width [w]) that
    lie past the end of a chromosome of [n] bins: [p + k >= n] for
    [1 <= k < w]. *)
Definition past_end (n w p : nat) : Z := Z.max 0 (Z.of_nat p + Z.of_nat w - Z.of_nat n).

(** The matrix with the entries at separations [<= d] replaced by NaN. *)
Definition nan_band (d : Z) (a : matrix) : matrix :=
  mat_imap (λ r c v,
    if bool_decide (- d ≤ Z.of_nat c - Z.of_nat r ≤ d)%Z then NaN else v) a.

(** The same, for the separations [-d <= c - r < -d + j] only: the
    diagonals [set_diag] has gone through after [j] rounds. *)
Definition nan_band_upto (d : Z) (j : nat) (a : matrix) : matrix :=
  mat_imap (λ r c v,
    if bool_decide (- d ≤ Z.of_nat c - Z.of_nat r < - d + Z.of_nat j)%Z
    then NaN else v) a.

(** ** [slice_sorted] *)

(** [np.searchsorted(arr, v)] on a sorted array of integers: the first
    index whose element is not below [v]. *)
Fixpoint searchsorted (arr : list Z) (v : Z) : nat :=
  match arr with
  | [] => 0
  | x :: arr' => if (x <? v)%Z then S (searchsorted arr' v) else 0
  end.

(** [arr[np.searchsorted(arr, lo) : np.searchsorted(arr, hi)]] *)
Definition slice_sorted (arr : list Z) (lo hi : Z) : list Z :=
  slice arr (Z.of_nat (searchsorted arr lo)) (Z.of_nat (searchsorted arr hi)).

(** [arr[(arr >= lo) & (arr < hi)]] *)
Definition between (arr : list Z) (lo hi : Z) : list Z :=
  List.filter (λ x, (lo <=? x)%Z && (x <? hi)%Z) arr.

(** The transposed array. *)
Definition transposed {A} (a b : list (list A)) : Prop :=
  ∀ i j, look2 a i j = look2 b j i.


(** ** Robust scores: [MAD] and [normalize_score] *)

(** [np.abs] *)
Definition fabs (a : float) : float := if fltb a f0 then fopp a else a.

(** [np.median] (NaN as soon as there is one) and the choice [has_nans]
    makes between it and [np.nanmedian]. *)
Definition median (l : vector) : float :=
  if existsb is_nan l then NaN else nanmedian l.

Definition median_of (has_nans : bool) (l : vector) : float :=
  if has_nans then nanmedian l else median l.

(** [MAD(arr, axis=None, has_nans)] *)
Definition MAD (arr : vector) (has_nans : bool) : float :=
  let m := median_of has_nans arr in
  median_of has_nans (map (λ v, fabs (fsub v m)) arr).

(** [str.lower] on ASCII letters. *)
Definition lower_ascii (c : Ascii.ascii) : Ascii.ascii :=
  let n := Ascii.nat_of_ascii c in
  if (65 <=? n)%nat && (n <=? 90)%nat then Ascii.ascii_of_nat (n + 32) else c.

Fixpoint lower (s : string) : string :=
  match s with
  | String.EmptyString => String.EmptyString
  | String.String c s' => String.String (lower_ascii c) (lower s')
  end.

(** 0.67449 *)
Definition madz_factor : float := Fin (Q2Qc (67449 # 100000)).

Section normalize_score_parameters.
(** [np.std] and [np.nanstd] take a square root and are left as
    parameters. *)
Variable std nanstd : vector → float.

(** [normalize_score(arr, norm='z', axis=None, has_nans=True)] *)
Definition normalize_score (arr : vector) (norm : string) (has_nans : bool)
  : result vector :=
  let norm := lower norm in
  if bool_decide (norm = "z"%string) then
    let centre := if has_nans then nanmean arr else fmean arr in
    let norm_arr := map (λ v, fsub v centre) arr in
    let spread := if has_nans then nanstd norm_arr else std norm_arr in
    Ok (map (λ v, fdiv v spread) norm_arr)
  else if bool_decide (norm = "mad"%string) || bool_decide (norm = "madz"%string) then
    let norm_arr := map (λ v, fsub v (median_of has_nans arr)) arr in
    let norm_arr := map (λ v, fdiv v (MAD norm_arr has_nans)) norm_arr in
    Ok (if bool_decide (norm = "madz"%string)
        then map (λ v, fmul v madz_factor) norm_arr else norm_arr)
  else Raise ValueError.
End normalize_score_parameters.

(** ** Convolution kernels: [get_kernel] *)

(** [kernel = np.ones((2*w+1, 2*w+1)); kernel[mask] = 0] for a mask given
    on the grid [y, x = np.ogrid[-w:w+1, -w:w+1]]. *)
Definition kernel_of (w : nat) (mask : Z → Z → bool) : list (list Z) :=
  map (λ yi, map (λ xi, if mask (Z.of_nat yi - Z.of_nat w)%Z (Z.of_nat xi - Z.of_nat w)%Z
                        then 0%Z else 1%Z)
                 (seq 0 (2 * w + 1)))
      (seq 0 (2 * w + 1)).

(** The inner square [(-p <= x) & (x <= p) & (-p <= y) & (y <= p)]. *)
Definition inner_square (p y x : Z) : bool :=
  ((- p <=? x) && (x <=? p) && ((- p <=? y) && (y <=? p)))%Z.

(** The mask of the branch ['upright']. *)
Definition upright_mask (p y x : Z) : bool :=
  (((- p <=? x) && (y <=? p)) || (0 <=? x) || (y <=? 0))%Z.

(** [get_kernel(w, p, ktype)] *)
Definition get_kernel (w : nat) (p : Z) (ktype : string) : result (list (list Z)) :=
  if bool_decide (ktype = "donut"%string) then
    Ok (kernel_of w (λ y x, inner_square p y x || ((x =? 0) || (y =? 0)))%Z)
  else if bool_decide (ktype = "vertical"%string) then
    Ok (kernel_of w (λ y x,
          (((x <? -1) || (1 <? x)) && (- Z.of_nat w <=? y)) || inner_square p y x)%Z)
  else if bool_decide (ktype = "horizontal"%string) then
    Ok (kernel_of w (λ y x,
          (((y <? -1) || (1 <? y)) && (- Z.of_nat w <=? x)) || inner_square p y x)%Z)
  else if bool_decide (ktype = "upright"%string) then
    Ok (kernel_of w (upright_mask p))
  else if bool_decide (ktype = "lowleft"%string) then
    (* mask[::-1, ::-1] *)
    Ok (kernel_of w (λ y x, upright_mask p (- y) (- x))%Z)
  else Raise ValueError.




(** A value that is zero, above zero or [+inf]. *)
Definition at_least_zero (v : float) : Prop :=
  match v with
  | Fin q => 0 ≤ q
  | PInf => True
  | _ => False
  end.

(* ================================================================== *)
(** * Part II. Properties *)
(* ================================================================== *)

(** ** Arithmetic of the idealised doubles *)

Lemma fmul_comm a b : fmul a b = fmul b a.
Proof.
  destruct a as [x| | |], b as [y| | |]; simpl; try done;
    first [by rewrite Qcmult_comm | by destruct (x ?= 0) | by destruct (y ?= 0)].
Qed.

Lemma fadd_comm a b : fadd a b = fadd b a.
Proof. destruct a, b; simpl; try done. by rewrite Qcplus_comm. Qed.

Lemma fmul_1_r a : fmul a f1 = a.
Proof.
  destruct a as [x| | |]; simpl; try done. by rewrite Qcmult_1_r.
Qed.

Lemma fdiv_1_r a : fdiv a f1 = a.
Proof.
  destruct a as [x| | |]; simpl; try done.
  f_equal. apply Qcdiv_right_id.
Qed.

(** ** Loops *)

(** Invariant rule for a [range] loop none of whose iterations raises. *)
Lemma for_each_seq_inv {T} (I : nat → T → Prop) n lo (body : nat → T → result T) st :
  I lo st →
  (∀ k s, (lo ≤ k < lo + n)%nat → I k s → ∃ s', body k s = Ok s' ∧ I (S k) s') →
  ∃ s', for_each (seq lo n) body st = Ok s' ∧ I (lo + n)%nat s'.
Proof.
  revert lo st. induction n as [|n IH]; intros lo st H0 Hstep; simpl.
  - exists st. by rewrite Nat.add_0_r.
  - destruct (Hstep lo st) as (s' & -> & Hs'); [lia|done|]. simpl.
    destruct (IH (S lo) s') as (s'' & Hs'' & HI); [done| |].
    + intros k s Hk. apply Hstep. lia.
    + exists s''. split; [done|]. by replace (lo + S n)%nat with (S lo + n)%nat by lia.
Qed.

Lemma for_range_inv {T} (I : nat → T → Prop) lo hi (body : nat → T → result T) st :
  (lo ≤ hi)%nat →
  I lo st →
  (∀ k s, (lo ≤ k < hi)%nat → I k s → ∃ s', body k s = Ok s' ∧ I (S k) s') →
  ∃ s', for_range lo hi body st = Ok s' ∧ I hi s'.
Proof.
  intros Hle H0 Hstep. unfold for_range.
  destruct (for_each_seq_inv I (hi - lo) lo body st) as (s' & Hs' & HI); [done| |].
  - intros k s Hk. apply Hstep. lia.
  - exists s'. split; [done|]. by replace hi with (lo + (hi - lo))%nat by lia.
Qed.

(** ** Two-dimensional arrays *)

Lemma getM_look2 {A} (a : list (list A)) i j :
  getM a i j = match look2 a i j with Some v => Ok v | None => Raise IndexError end.
Proof. unfold getM, look2, getV. destruct (a !! i) as [row|]; simpl; done. Qed.

Lemma shape_row {A} n k (a : list (list A)) i row :
  shape n k a → a !! i = Some row → length row = k.
Proof. intros [_ Hall] Hi. by eapply (Forall_lookup_1 _ _ _ _ Hall Hi). Qed.

Lemma look2_is_Some {A} n k (a : list (list A)) i j :
  shape n k a → (i < n)%nat → (j < k)%nat → is_Some (look2 a i j).
Proof.
  intros Hsh Hi Hj. unfold look2.
  destruct (lookup_lt_is_Some_2 a i) as [row Hrow]; [destruct Hsh; lia|].
  rewrite Hrow. simpl. apply lookup_lt_is_Some_2.
  by rewrite (shape_row _ _ _ _ _ Hsh Hrow).
Qed.

Lemma shape_set2 {A} n k (a : list (list A)) i j v :
  shape n k a → shape n k (set2 a i j v).
Proof.
  intros [Hlen Hall]. unfold set2. split; [by rewrite length_alter|].
  apply Forall_alter; [done|]. intros row _ Hrow. by rewrite length_insert.
Qed.

Lemma look2_set2 {A} n k (a : list (list A)) i j v i' j' :
  shape n k a → (i < n)%nat → (j < k)%nat →
  look2 (set2 a i j v) i' j' =
    if bool_decide (i' = i ∧ j' = j) then Some v else look2 a i' j'.
Proof.
  intros Hsh Hi Hj. unfold look2, set2.
  destruct (decide (i' = i)) as [->|Hne].
  - destruct (lookup_lt_is_Some_2 a i) as [row Hrow]; [destruct Hsh; lia|].
    rewrite list_lookup_alter_eq, Hrow. simpl.
    destruct (decide (j' = j)) as [->|Hnej].
    + rewrite bool_decide_eq_true_2 by done.
      apply list_lookup_insert_eq. by rewrite (shape_row _ _ _ _ _ Hsh Hrow).
    + rewrite bool_decide_eq_false_2 by tauto.
      by rewrite list_lookup_insert_ne.
  - rewrite bool_decide_eq_false_2 by tauto.
    by rewrite list_lookup_alter_ne.
Qed.

Lemma setM_ok {A} n k (a : list (list A)) i j v :
  shape n k a → (i < n)%nat → (j < k)%nat → setM a i j v = Ok (set2 a i j v).
Proof.
  intros Hsh Hi Hj. unfold setM. rewrite getM_look2.
  by destruct (look2_is_Some n k a i j Hsh Hi Hj) as [w ->].
Qed.

Lemma mat_ext {A} n k (a b : list (list A)) :
  shape n k a → shape n k b →
  (∀ i j, (i < n)%nat → (j < k)%nat → look2 a i j = look2 b i j) →
  a = b.
Proof.
  intros Ha Hb Heq. apply list_eq. intros i.
  destruct (decide (i < n)%nat) as [Hi|Hi].
  - destruct (lookup_lt_is_Some_2 a i) as [ra Hra]; [destruct Ha; lia|].
    destruct (lookup_lt_is_Some_2 b i) as [rb Hrb]; [destruct Hb; lia|].
    rewrite Hra, Hrb. f_equal. apply list_eq. intros j.
    destruct (decide (j < k)%nat) as [Hj|Hj].
    + specialize (Heq i j Hi Hj). unfold look2 in Heq. by rewrite Hra, Hrb in Heq.
    + rewrite !lookup_ge_None_2; [done| |].
      * rewrite (shape_row _ _ _ _ _ Hb Hrb). lia.
      * rewrite (shape_row _ _ _ _ _ Ha Hra). lia.
  - rewrite !lookup_ge_None_2; [done| |]; [destruct Hb | destruct Ha]; lia.
Qed.

Lemma look2_mat_imap {A B} (f : nat → nat → A → B) a i j :
  look2 (mat_imap f a) i j = f i j <$> look2 a i j.
Proof.
  unfold look2, mat_imap. rewrite list_lookup_imap.
  destruct (a !! i) as [row|]; simpl; [|done]. by rewrite list_lookup_imap.
Qed.

Lemma shape_mat_imap {A B} (f : nat → nat → A → B) n k a :
  shape n k a → shape n k (mat_imap f a).
Proof.
  intros [Hlen Hall]. unfold mat_imap. split; [by rewrite length_imap|].
  apply Forall_forall. intros row Hrow.
  apply list_elem_of_lookup in Hrow as [i Hi]. rewrite list_lookup_imap in Hi.
  destruct (a !! i) as [r|] eqn:Hr; simplify_eq/=.
  rewrite length_imap. by eapply (Forall_lookup_1 _ _ _ _ Hall Hr).
Qed.

(** ** Matrix balancer *)

Lemma zero_ignored_diags_ok N k x :
  shape N N x → zero_ignored_diags N k x = Ok (zeroed_diags k x).
Proof.
  intros Hsh.
  assert (∃ x', zero_ignored_diags N k x = Ok x' ∧ shape N N x' ∧
    ∀ i j, (i < N)%nat → (j < N)%nat →
      look2 x' i j = if bool_decide (dist i j < k)%nat then Some f0 else look2 x i j)
    as (x' & -> & Hsh' & Hx').
  { unfold zero_ignored_diags. case_bool_decide as Hk.
    2:{ exists x. split; [done|]. split; [done|]. intros i j _ _.
        by rewrite bool_decide_eq_false_2 by lia. }
    destruct (for_range_inv (λ d x', shape N N x' ∧
      ∀ i j, (i < N)%nat → (j < N)%nat →
        look2 x' i j = if bool_decide (dist i j < d)%nat then Some f0 else look2 x i j)
      0 k (λ d x, for_range 0 (N - d) (λ j x,
             x ← setM x j (j + d) f0; setM x (j + d) j f0) x) x)
      as (xk & Hxk & Hshk & Hentk); [lia| | |by exists xk].
    { split; [done|]. intros i j _ _. by rewrite bool_decide_eq_false_2 by lia. }
    intros d xd Hd [Hshd Hxd].
    destruct (for_range_inv (λ j x', shape N N x' ∧
      ∀ a b, (a < N)%nat → (b < N)%nat →
        look2 x' a b =
          if bool_decide (dist a b < d ∨ (dist a b = d ∧ a `min` b < j))%nat
          then Some f0 else look2 x a b) 0 (N - d)
      (λ j x, x ← setM x j (j + d) f0; setM x (j + d) j f0) xd)
      as (x' & Hx' & Hshx' & Hent); [lia| | |].
    - split; [done|]. intros a b Ha Hb. rewrite Hxd by done.
      repeat case_bool_decide; try done; lia.
    - intros j xj Hj [Hshj Hxj].
      rewrite (setM_ok N N) by (done || lia). simpl.
      rewrite (setM_ok N N) by (try apply shape_set2; done || lia).
      eexists. split; [done|]. split; [by do 2 apply shape_set2|].
      intros a b Ha Hb.
      rewrite (look2_set2 N N) by (try apply shape_set2; done || lia).
      rewrite (look2_set2 N N) by (done || lia).
      rewrite Hxj by done. unfold dist.
      repeat case_bool_decide; try done; lia.
    - exists x'. split; [done|]. split; [done|].
      intros a b Ha Hb. rewrite Hent by done. unfold dist.
      repeat case_bool_decide; try done; lia. }
  f_equal. apply (mat_ext N N); [done|by apply shape_mat_imap|].
  intros i j Hi Hj. rewrite Hx' by done. unfold zeroed_diags.
  rewrite look2_mat_imap.
  destruct (look2_is_Some N N x i j Hsh Hi Hj) as [v ->]. simpl.
  by case_bool_decide.
Qed.

Lemma look2_scaled_by_bias s x i j :
  look2 (scaled_by_bias s x) i j =
    (si ← s !! i; sj ← s !! j; v ← look2 x i j; Some (fdiv v (fmul si sj))).
Proof.
  unfold look2, scaled_by_bias. rewrite lookup_zip_with.
  destruct (s !! i) as [si|]; simpl; [|done].
  destruct (x !! i) as [row|]; simpl.
  - rewrite lookup_zip_with. by destruct (s !! j).
  - by destruct (s !! j).
Qed.

Lemma shape_scaled_by_bias N s x :
  shape N N x → length s = N → shape N N (scaled_by_bias s x).
Proof.
  intros [Hlen Hall] Hs. unfold scaled_by_bias. split.
  - rewrite length_zip_with. lia.
  - apply Forall_forall. intros row Hrow.
    apply list_elem_of_lookup in Hrow as [i Hi]. rewrite lookup_zip_with in Hi.
    destruct (s !! i) as [si|]; simplify_eq/=.
    destruct (x !! i) as [r|] eqn:Hr; simplify_eq/=.
    rewrite length_zip_with, (Forall_lookup_1 _ _ _ _ Hall Hr). lia.
Qed.

Lemma getV_ok {A} (a : list A) i v : a !! i = Some v → getV a i = Ok v.
Proof. unfold getV. by intros ->. Qed.

Lemma divide_by_bias_ok N s x :
  shape N N x → length s = N → divide_by_bias N s x = Ok (scaled_by_bias s x).
Proof.
  intros Hsh Hs.
  pose (body := λ (i j : nat) (x : matrix),
    v ← getM x i j; si ← getV s i; sj ← getV s j;
    setM x i j (fdiv v (fmul si sj))).
  destruct (for_range_inv (λ i x', shape N N x' ∧
      ∀ a b, (a < N)%nat → (b < N)%nat →
        look2 x' a b = if bool_decide (a < i)%nat
                       then look2 (scaled_by_bias s x) a b else look2 x a b)
      0 N (λ i x, for_range 0 N (body i) x) x)
    as (xN & HxN & HshN & HentN); [lia| | |].
  - split; [done|]. intros a b _ _. by rewrite bool_decide_eq_false_2 by lia.
  - intros i xi Hi [Hshi Hxi].
    destruct (for_range_inv (λ j x', shape N N x' ∧
      ∀ a b, (a < N)%nat → (b < N)%nat →
        look2 x' a b = if bool_decide (a < i ∨ (a = i ∧ b < j))%nat
                       then look2 (scaled_by_bias s x) a b else look2 x a b)
      0 N (body i) xi) as (x' & Hx' & Hshx' & Hent); [lia| | |].
    + split; [done|]. intros a b Ha Hb. rewrite Hxi by done.
      repeat case_bool_decide; try done; lia.
    + intros j xj Hj [Hshj Hxj]. unfold body.
      destruct (look2_is_Some N N x i j Hsh) as [v Hv]; [lia..|].
      destruct (lookup_lt_is_Some_2 s i) as [si Hsi]; [lia|].
      destruct (lookup_lt_is_Some_2 s j) as [sj Hsj]; [lia|].
      rewrite getM_look2, Hxj by lia.
      rewrite bool_decide_eq_false_2 by lia. rewrite Hv. simpl.
      rewrite (getV_ok _ _ _ Hsi), (getV_ok _ _ _ Hsj). simpl.
      rewrite (setM_ok N N) by (done || lia).
      eexists. split; [done|]. split; [by apply shape_set2|].
      intros a b Ha Hb. rewrite (look2_set2 N N) by (done || lia).
      rewrite Hxj by done.
      case_bool_decide as Hab.
      * destruct Hab as [-> ->]. rewrite bool_decide_eq_true_2 by lia.
        rewrite look2_scaled_by_bias, Hsi, Hsj, Hv. done.
      * repeat case_bool_decide; try done; lia.
    + exists x'. split; [done|]. split; [done|].
      intros a b Ha Hb. rewrite Hent by done.
      repeat case_bool_decide; try done; lia.
  - change (divide_by_bias N s x)
      with (for_range 0 N (λ i x, for_range 0 N (body i) x) x).
    rewrite HxN. f_equal.
    apply (mat_ext N N); [done|by apply shape_scaled_by_bias|].
    intros i j Hi Hj. rewrite HentN by done. by rewrite bool_decide_eq_true_2 by lia.
Qed.

Lemma length_damped_factors s mask :
  length mask = length s → length (damped_factors s mask) = length s.
Proof.
  intros H. unfold damped_factors, mask_assign.
  rewrite !length_map, length_zip_with, length_map. lia.
Qed.

Lemma length_factors_of x :
  length (damped_factors (row_sums x) (zero_mask (row_sums x))) = length x.
Proof.
  rewrite length_damped_factors; unfold zero_mask, row_sums; by rewrite !length_map.
Qed.

Lemma ic_body_ok N it st :
  ic_wf N st → ic_body N it st = Ok (ic_step it st).
Proof.
  intros [Hsh Hb]. unfold ic_body, ic_step.
  rewrite (divide_by_bias_ok N); [done|done|].
  rewrite length_factors_of. by destruct Hsh.
Qed.

Lemma ic_step_wf N it st : ic_wf N st → ic_wf N (ic_step it st).1.
Proof.
  intros [Hsh Hb]. split; simpl.
  - apply shape_scaled_by_bias; [done|]. rewrite length_factors_of. by destruct Hsh.
  - rewrite length_zip_with, length_factors_of. destruct Hsh. lia.
Qed.

Lemma ic_loop_ok N tol its st :
  ic_wf N st → ic_loop N tol its st = Ok (ic_run tol its st).
Proof.
  revert st. induction its as [|it its IH]; intros st Hwf; [done|].
  cbn [ic_loop ic_run]. rewrite (ic_body_ok N) by done.
  pose proof (ic_step_wf N it st Hwf) as Hwf'.
  destruct (ic_step it st) as [st' crit]. cbn [mbind result_bind fst] in *.
  destruct (fltb f0 tol && fltb crit tol); [done|]. by apply IH.
Qed.

Lemma ic_init_wf N k x : shape N N x → ic_wf N (ic_init N k x).
Proof.
  intros Hsh. split; simpl.
  - by apply shape_mat_imap.
  - by rewrite length_replicate.
Qed.

Lemma ic_core_ok N x max_iter k tol :
  shape N N x →
  ic_core x max_iter k tol = Ok (ic_run tol (seq 0 max_iter) (ic_init N k x)).
Proof.
  intros Hsh. unfold ic_core.
  assert (length x = N) as -> by (by destruct Hsh).
  rewrite (zero_ignored_diags_ok N) by done. simpl.
  change (IcState (zeroed_diags k x) _ _ 0 false) with (ic_init N k x).
  by rewrite (ic_loop_ok N) by (by apply ic_init_wf).
Qed.

Lemma iterative_correction_symmetric_ok N x max_iter k tol :
  shape N N x →
  iterative_correction_symmetric x max_iter k tol
  = Ok (ic_finish (ic_run tol (seq 0 max_iter) (ic_init N k x))).
Proof.
  intros Hsh. unfold iterative_correction_symmetric.
  by rewrite (ic_core_ok N) by done.
Qed.

(** *** One iteration, as specified *)

Lemma select_negb_filter s :
  select (map negb (zero_mask s)) s = filter (λ v, feqb v f0 = false) s.
Proof.
  induction s as [|v s IH]; [done|]. rewrite filter_cons.
  unfold zero_mask in *. cbn [map select]. rewrite IH.
  destruct (decide (feqb v f0 = false)) as [E|E].
  - by rewrite E.
  - apply not_false_is_true in E. by rewrite E.
Qed.

Lemma mask_assign_map {A} (p : A → bool) (g : A → float) c (s : list A) :
  mask_assign (map p s) c (map g s) = map (λ v, if p v then c else g v) s.
Proof.
  unfold mask_assign. induction s as [|v s IH]; [done|]. simpl. by rewrite IH.
Qed.

Lemma damped_factors_spec x :
  damped_factors (row_sums x) (zero_mask (row_sums x)) = spec_factors x.
Proof.
  unfold damped_factors, spec_factors. rewrite select_negb_filter.
  unfold zero_mask, row_sums.
  set (s := map fsum x).
  set (m := fmean (filter (λ v, feqb v f0 = false) s)).
  rewrite mask_assign_map, !map_map. apply map_ext. intros v.
  rewrite fadd_comm. f_equal. apply fmul_comm.
Qed.

Lemma scaled_by_bias_spec N s x :
  shape N N x → length s = N →
  scaled_by_bias s x = mat_imap (λ i j v, fdiv v (fmul (s !!! i) (s !!! j))) x.
Proof.
  intros Hsh Hs. apply (mat_ext N N).
  - by apply shape_scaled_by_bias.
  - by apply shape_mat_imap.
  - intros i j Hi Hj. rewrite look2_scaled_by_bias, look2_mat_imap.
    destruct (lookup_lt_is_Some_2 s i) as [si Hsi]; [lia|].
    destruct (lookup_lt_is_Some_2 s j) as [sj Hsj]; [lia|].
    rewrite Hsi, Hsj. simpl.
    rewrite (list_lookup_total_correct _ _ _ Hsi), (list_lookup_total_correct _ _ _ Hsj).
    by destruct (look2 x i j).
Qed.

Lemma ic_step_spec N it st :
  ic_wf N st → ic_step it st = (spec_iteration it st, fvar (spec_factors (ic_x st))).
Proof.
  intros [Hsh Hb]. unfold ic_step, spec_iteration.
  rewrite damped_factors_spec.
  rewrite (scaled_by_bias_spec N) by
    (done || (rewrite <-damped_factors_spec, length_factors_of; by destruct Hsh)).
  unfold zero_mask, row_sums, spec_excluded. by rewrite map_map.
Qed.

(** C4. Every iteration of the balancer, on a square matrix, recomputes the
    row sums from the current matrix and the excluded rows from [s == 0]
    (whatever the mask of the iteration before was), normalises the sums
    by the mean over the rows that are not excluded, forces 1 on the
    excluded ones, damps them to [s' = 1 + 0.8 * (s - 1)], multiplies the
    running bias by [s'] and divides the entry [(i, j)] by [s'[i] * s'[j]];
    the loop goes on from that state unless the variance of [s'] is under
    a positive tolerance. *)
Theorem C4_iteration_as_specified N tol it its st :
  ic_wf N st →
  ic_body N it st = Ok (spec_iteration it st, fvar (spec_factors (ic_x st))) ∧
  ic_loop N tol (it :: its) st =
    (if fltb f0 tol && fltb (fvar (spec_factors (ic_x st))) tol
     then Ok (ic_stop (spec_iteration it st))
     else ic_loop N tol its (spec_iteration it st)).
Proof.
  intros Hwf.
  assert (ic_body N it st = Ok (spec_iteration it st, fvar (spec_factors (ic_x st))))
    as Hbody by (by rewrite (ic_body_ok N), (ic_step_spec N)).
  split; [done|]. cbn [ic_loop]. rewrite Hbody. done.
Qed.

(** *** Symmetry *)

Lemma look2_map {A B} (f : A → B) (a : list (list A)) i j :
  look2 (map (map f) a) i j = f <$> look2 a i j.
Proof.
  unfold look2. rewrite list_lookup_fmap.
  destruct (a !! i) as [row|]; simpl; [|done]. by rewrite list_lookup_fmap.
Qed.


Lemma dist_sym i j : dist i j = dist j i.
Proof. unfold dist. lia. Qed.

Lemma symmetric_zeroed_diags k x : symmetric x → symmetric (zeroed_diags k x).
Proof.
  intros Hx i j. unfold zeroed_diags. rewrite !look2_mat_imap, (Hx i j).
  by rewrite (dist_sym i j).
Qed.

Lemma symmetric_scaled_by_bias s x : symmetric x → symmetric (scaled_by_bias s x).
Proof.
  intros Hx i j. rewrite !look2_scaled_by_bias, (Hx i j).
  destruct (s !! i) as [si|], (s !! j) as [sj|]; simpl; try done.
  by rewrite (fmul_comm si sj).
Qed.

Lemma symmetric_map {A B} (f : A → B) (a : list (list A)) :
  symmetric a → symmetric (map (map f) a).
Proof. intros Ha i j. by rewrite !look2_map, (Ha i j). Qed.

Lemma symmetric_ic_run tol its st :
  symmetric (ic_x st) → symmetric (ic_x (ic_run tol its st)).
Proof.
  revert st. induction its as [|it its IH]; intros st Hst; [done|].
  cbn [ic_run]. unfold ic_step.
  destruct (fltb f0 tol && fltb _ tol).
  - by apply symmetric_scaled_by_bias.
  - apply IH. by apply symmetric_scaled_by_bias.
Qed.

(** C7. On a symmetric square matrix the balancer returns, and what it
    returns is a symmetric corrected matrix. *)
Theorem C7_balanced_matrix_symmetric N x max_iter ignore_diags tol :
  shape N N x → symmetric x →
  ∃ X B rep,
    iterative_correction_symmetric x max_iter ignore_diags tol = Ok (X, B, rep) ∧
    symmetric X.
Proof.
  intros Hsh Hsym. rewrite (iterative_correction_symmetric_ok N) by done.
  unfold ic_finish. eexists _, _, _. split; [done|].
  apply symmetric_map, symmetric_ic_run. by apply symmetric_zeroed_diags.
Qed.

(** *** A matrix whose row sums are all zero *)

Lemma zero_mask_zero_rows N x :
  length x = N → zero_rows x → zero_mask (row_sums x) = replicate N true.
Proof.
  intros <- Hz. unfold zero_mask, row_sums. rewrite map_map.
  induction Hz as [|row x Hrow Hx IH]; [done|]. simpl. by rewrite Hrow, IH.
Qed.

Lemma mask_assign_all {A} (c : A) (l : list A) :
  mask_assign (replicate (length l) true) c l = replicate (length l) c.
Proof. unfold mask_assign. induction l as [|v l IH]; [done|]. simpl. by rewrite IH. Qed.

Lemma damped_factors_all_excluded N s :
  length s = N → damped_factors s (replicate N true) = replicate N f1.
Proof.
  intros <-. unfold damped_factors.
  set (s1 := map _ s).
  replace (length s) with (length s1) by (unfold s1; by rewrite length_map).
  rewrite mask_assign_all. generalize (length s1) as n.
  induction n as [|n IH]; [done|]. simpl. rewrite IH. by f_equal.
Qed.

Lemma scaled_by_ones N x :
  shape N N x → scaled_by_bias (replicate N f1) x = x.
Proof.
  intros Hsh. apply (mat_ext N N); [|done|].
  - apply shape_scaled_by_bias; [done|]. by rewrite length_replicate.
  - intros i j Hi Hj. rewrite look2_scaled_by_bias.
    rewrite !lookup_replicate_2 by done. simpl.
    destruct (look2 x i j) as [v|]; simpl; [|done].
    f_equal. change (fmul f1 f1) with (Fin (1 * 1)).
    rewrite Qcmult_1_l. apply fdiv_1_r.
Qed.

Lemma zip_with_fmul_ones N b :
  length b = N → zip_with fmul b (replicate N f1) = b.
Proof.
  intros <-. induction b as [|v b IH]; [done|]. simpl. by rewrite IH, fmul_1_r.
Qed.

Lemma ic_run_zero_rows N tol its st :
  shape N N (ic_x st) → zero_rows (ic_x st) →
  ic_totalBias st = replicate N f1 → ic_mask st = replicate N true →
  let st' := ic_run tol its st in
  ic_x st' = ic_x st ∧ ic_totalBias st' = replicate N f1 ∧ ic_mask st' = replicate N true.
Proof.
  revert st. induction its as [|it its IH]; intros st Hsh Hz Hb Hm; [done|].
  cbn [ic_run]. unfold ic_step.
  assert (length (ic_x st) = N) as Hlen by (by destruct Hsh).
  rewrite (zero_mask_zero_rows N) by done.
  rewrite (damped_factors_all_excluded N)
    by (unfold row_sums; by rewrite length_map).
  rewrite (scaled_by_ones N) by done.
  rewrite (zip_with_fmul_ones N) by (by rewrite Hb, length_replicate).
  destruct (fltb f0 tol && fltb _ tol); [by rewrite Hb|].
  cbn zeta. by apply (IH (IcState _ _ _ _ _)).
Qed.

Lemma fmul_nan_r v : fmul v NaN = NaN.
Proof. by destruct v. Qed.

Lemma fdiv_nan_r v : fdiv v NaN = NaN.
Proof. by destruct v. Qed.

Lemma select_none {A} (l : list A) n :
  select (map negb (replicate n true)) l = [].
Proof. revert l. induction n as [|n IH]; intros [|v l]; simpl; auto. Qed.

Lemma map_const_replicate {A B} (c : B) (l : list A) :
  map (λ _, c) l = replicate (length l) c.
Proof. induction l as [|v l IH]; [done|]. simpl. by rewrite IH. Qed.

Lemma mat_const N (c : float) (x : matrix) :
  shape N N x → map (map (λ _, c)) x = replicate N (replicate N c).
Proof.
  intros [<- Hall]. revert Hall. generalize (length x) at 1 3 as k. intros k Hk.
  induction Hk as [|row rows Hrow Hrows IH]; [done|].
  simpl. by rewrite map_const_replicate, Hrow, IH.
Qed.

(** C3, as the code has it.  On a square matrix all of whose row sums are
    zero once the ignored diagonals are zeroed, the balancer raises
    nothing: it returns a corrected matrix and a bias vector that are NaN
    in every entry (the mean of the empty selection [totalBias[~mask]] is
    NaN and is multiplied into everything). *)
Theorem C3_zero_rows_return_nan N x max_iter ignore_diags tol :
  shape N N x → zero_rows (zeroed_diags ignore_diags x) →
  ∃ rep,
    iterative_correction_symmetric x max_iter ignore_diags tol
    = Ok (replicate N (replicate N NaN), replicate N NaN, rep).
Proof.
  intros Hsh Hz. rewrite (iterative_correction_symmetric_ok N) by done.
  assert (shape N N (zeroed_diags ignore_diags x)) as Hsh0
    by (by apply shape_mat_imap).
  destruct (ic_run_zero_rows N tol (seq 0 max_iter) (ic_init N ignore_diags x))
    as (Hx & Hb & Hm); try done.
  { simpl. apply (zero_mask_zero_rows N); [by destruct Hsh0|done]. }
  unfold ic_finish. rewrite Hx, Hb, Hm, select_none. eexists.
  change (fmean []) with NaN. simpl.
  rewrite <-(mat_const N NaN (zeroed_diags ignore_diags x)) by done.
  do 3 f_equal.
  - apply map_ext. intros row. apply map_ext. intros v. by rewrite !fmul_nan_r.
  - by rewrite fmap_replicate.
Qed.

(** C3, as stated, fails on the 2 x 2 zero matrix: the call does not raise
    and hands back NaN everywhere. *)
Lemma C3_counterexample_zero_matrix :
  ¬ raises (iterative_correction_symmetric [[f0; f0]; [f0; f0]] 10 0 tol_default) ∧
  iterative_correction_symmetric [[f0; f0]; [f0; f0]] 10 0 tol_default
  = Ok ([[NaN; NaN]; [NaN; NaN]], [NaN; NaN], IcReport true 0).
Proof.
  assert (iterative_correction_symmetric [[f0; f0]; [f0; f0]] 10 0 tol_default
          = Ok ([[NaN; NaN]; [NaN; NaN]], [NaN; NaN], IcReport true 0)) as H
    by compute_done.
  split; [|done]. rewrite H. by intros [e He].
Qed.

(** ** Distance-decay normaliser *)

Lemma for_each_pure {K T} (ks : list K) (body : K → T → result T) (f : T → K → T) st :
  (∀ k s, k ∈ ks → body k s = Ok (f s k)) →
  for_each ks body st = Ok (foldl f st ks).
Proof.
  revert st. induction ks as [|k ks IH]; intros st Hb; [done|].
  simpl. rewrite Hb by left. simpl. apply IH. intros k' s Hk'. apply Hb. by right.
Qed.

Lemma foldl_flat_map {A B C} (f : A → C → A) (g : B → list C) (l : list B) a :
  foldl f a (flat_map g l) = foldl (λ a b, foldl f a (g b)) a l.
Proof.
  revert a. induction l as [|b l IH]; intros a; [done|].
  simpl. by rewrite foldl_app, IH.
Qed.

Lemma foldl_map {A B C} (f : A → C → A) (g : B → C) (l : list B) a :
  foldl f a (map g l) = foldl (λ a b, f a (g b)) a l.
Proof. revert a. induction l as [|b l IH]; intros a; [done|]. simpl. by rewrite IH. Qed.

Lemma foldl_ext {A B} (f g : A → B → A) (l : list B) a :
  (∀ a b, f a b = g a b) → foldl f a l = foldl g a l.
Proof.
  intros Hfg. revert a. induction l as [|b l IH]; intros a; [done|].
  simpl. by rewrite Hfg, IH.
Qed.

Lemma bool_decide_ext_if {A} (P Q : Prop) `{Decision P, Decision Q} (x y : A) :
  (P ↔ Q) →
  (if bool_decide P then x else y) = (if bool_decide Q then x else y).
Proof. intros HPQ. by rewrite (bool_decide_ext P Q HPQ). Qed.

Lemma getM_ok {A} n k (a : list (list A)) i j :
  shape n k a → (i < n)%nat → (j < k)%nat →
  ∃ v, look2 a i j = Some v ∧ getM a i j = Ok v.
Proof.
  intros Hsh Hi Hj. destruct (look2_is_Some n k a i j Hsh Hi Hj) as [v Hv].
  exists v. split; [done|]. by rewrite getM_look2, Hv.
Qed.

Section normaliser.
Context (N : nat) (has_mask : bool) (mask2d : list (list bool)).
Context (Hmask : has_mask = true → shape N N mask2d).

Local Abbreviation valid := (valid_px has_mask mask2d).

Lemma oe_valid_ok offset j :
  (offset + j < N)%nat → oe_valid has_mask mask2d offset j = Ok (valid offset j).
Proof using Hmask.
  intros Hlt. unfold oe_valid, valid_px. destruct has_mask; [|done].
  destruct (getM_ok N N mask2d (offset + j) j) as (v & Hv & ->); [auto|lia..|].
  by rewrite Hv.
Qed.

Lemma foldl_accum data cs s n :
  foldl (accum_pixel valid data) (s, n) cs =
    (foldl fadd s (map (λ c, ent data (c.1 + c.2) c.2)
                       (List.filter (λ c, valid c.1 c.2) cs)),
     (n + length (List.filter (λ c, valid c.1 c.2) cs))%nat).
Proof.
  revert s n. induction cs as [|c cs IH]; intros s n; simpl.
  - by rewrite Nat.add_0_r.
  - unfold accum_pixel at 2. destruct (valid c.1 c.2); simpl.
    + rewrite IH. f_equal. lia.
    + apply IH.
Qed.

Lemma oe_accumulate_ok data lo hi :
  shape N N data →
  oe_accumulate N has_mask mask2d data lo hi
  = Ok (bin_sum N valid data lo hi, bin_count N valid lo hi).
Proof using Hmask.
  intros Hsh. unfold oe_accumulate, for_range.
  rewrite (for_each_pure _ _
    (λ acc o, foldl (λ acc j, accum_pixel valid data acc (o, j)) acc (seq 0 (N - o)))).
  - f_equal. transitivity (foldl (accum_pixel valid data) (f0, 0%nat) (cells N lo hi)).
    + unfold cells. rewrite foldl_flat_map.
      apply foldl_ext. intros acc o. by rewrite foldl_map.
    + by rewrite foldl_accum.
  - intros o acc _. rewrite Nat.sub_0_r.
    apply (for_each_pure _ _ (λ acc j, accum_pixel valid data acc (o, j))).
    intros j [s n] Hj. apply elem_of_seq in Hj.
    rewrite oe_valid_ok by lia. simpl. unfold accum_pixel. simpl.
    destruct (valid o j); [|done].
    destruct (getM_ok N N data (o + j) j) as (v & Hv & ->); [done|lia..|].
    simpl. unfold ent. by rewrite Hv.
Qed.

Lemma dist_min_cases a b o j :
  dist a b = o → a `min` b = j → (a = o + j ∧ b = j)%nat ∨ (a = j ∧ b = o + j)%nat.
Proof. unfold dist. lia. Qed.

Lemma oe_divide_ok mean lo hi data :
  shape N N data → (lo ≤ hi)%nat →
  oe_divide N has_mask mask2d mean lo hi data
  = Ok (divided valid mean lo hi data).
Proof using Hmask.
  intros Hsh Hle.
  pose (P := λ (o j a b : nat),
    valid (dist a b) (a `min` b) = true ∧
    (lo ≤ dist a b < o ∨ (dist a b = o ∧ a `min` b < j))%nat).
  pose (Inv := λ (o j : nat) (d' : matrix), shape N N d' ∧
    ∀ a b, (a < N)%nat → (b < N)%nat →
      look2 d' a b = if bool_decide (P o j a b)
                     then (λ v, fdiv v mean) <$> look2 data a b
                     else look2 data a b).
  pose (body := λ (o j : nat) (data : matrix),
    ok ← oe_valid has_mask mask2d o j;
    if ok : bool then
      v ← getM data (o + j) j;
      data ← setM data (o + j) j (fdiv v mean);
      if bool_decide (0 < o)%nat then
        w ← getM data j (o + j); setM data j (o + j) (fdiv w mean)
      else Ok data
    else Ok data).
  destruct (for_range_inv (λ o, Inv o 0%nat) lo hi
              (λ o d, for_range 0 (N - o) (body o) d) data)
    as (dN & HdN & HshN & HentN); [done| | |].
  - split; [done|]. intros a b _ _. rewrite bool_decide_eq_false_2; [done|].
    unfold P. lia.
  - intros o d Ho Hinv.
    destruct (for_range_inv (Inv o) 0 (N - o) (body o) d)
      as (d' & Hd' & Hshd' & Hentd'); [lia|done| |].
    + intros j dj Hj [Hshj Hentj]. unfold body.
      rewrite oe_valid_ok by lia. cbn [mbind result_bind].
      destruct (valid o j) eqn:Hv.
      * destruct (getM_ok N N dj (o + j) j) as (v & Hlv & ->); [done|lia..|].
        cbn [mbind result_bind].
        rewrite (setM_ok N N) by (done || lia). cbn [mbind result_bind].
        assert (look2 data (o + j) j = Some v) as Hv0.
        { rewrite <-Hlv, Hentj by lia. rewrite bool_decide_eq_false_2; [done|].
          unfold P, dist. lia. }
        case_bool_decide as Ho0.
        -- destruct (getM_ok N N (set2 dj (o + j) j (fdiv v mean)) j (o + j))
             as (w & Hlw & ->); [by apply shape_set2|lia..|].
           cbn [mbind result_bind].
           rewrite (setM_ok N N) by (try apply shape_set2; done || lia).
           assert (look2 data j (o + j) = Some w) as Hw0.
           { rewrite <-Hlw, (look2_set2 N N) by (done || lia).
             rewrite bool_decide_eq_false_2 by lia.
             rewrite Hentj by lia. rewrite bool_decide_eq_false_2; [done|].
             unfold P, dist. lia. }
           eexists. split; [done|]. split; [by do 2 apply shape_set2|].
           intros a b Ha Hb.
           rewrite (look2_set2 N N) by (try apply shape_set2; done || lia).
           rewrite (look2_set2 N N) by (done || lia).
           rewrite Hentj by done.
           case_bool_decide as E1.
           { destruct E1 as [-> ->]. rewrite Hw0, bool_decide_eq_true_2; [done|].
             unfold P. replace (dist j (o + j)) with o by (unfold dist; lia).
             replace (j `min` (o + j))%nat with j by lia. split; [done|lia]. }
           case_bool_decide as E2.
           { destruct E2 as [-> ->]. rewrite Hv0, bool_decide_eq_true_2; [done|].
             unfold P. replace (dist (o + j) j) with o by (unfold dist; lia).
             replace ((o + j) `min` j)%nat with j by lia. split; [done|lia]. }
           apply bool_decide_ext_if. unfold P. split; intros [Hva Hr]; (split; [done|]).
           ++ lia.
           ++ destruct (decide (dist a b = o ∧ a `min` b = j)) as [[Hd Hm]|Hn]; [|lia].
              destruct (dist_min_cases a b o j Hd Hm); tauto.
        -- assert (o = 0%nat) as -> by lia. simpl in *.
           eexists. split; [done|]. split; [by apply shape_set2|].
           intros a b Ha Hb.
           rewrite (look2_set2 N N) by (done || lia).
           rewrite Hentj by done.
           case_bool_decide as E2.
           { destruct E2 as [-> ->]. rewrite Hv0, bool_decide_eq_true_2; [done|].
             unfold P. replace (dist j j) with 0%nat by (unfold dist; lia).
             replace (j `min` j)%nat with j by lia. split; [done|lia]. }
           apply bool_decide_ext_if. unfold P. split; intros [Hva Hr]; (split; [done|]).
           ++ lia.
           ++ destruct (decide (dist a b = 0 ∧ a `min` b = j)%nat) as [[Hd Hm]|Hn]; [|lia].
              destruct (dist_min_cases a b 0 j Hd Hm); simpl in *; tauto.
      * eexists. split; [done|]. split; [done|].
        intros a b Ha Hb. rewrite Hentj by done.
        apply bool_decide_ext_if. unfold P. split; intros [Hva Hr]; (split; [done|]).
        -- lia.
        -- destruct (decide (dist a b = o ∧ a `min` b = j)) as [[Hd Hm]|Hn]; [|lia].
           rewrite Hd, Hm in Hva. congruence.
    + exists d'. split; [done|]. split; [done|].
      intros a b Ha Hb. rewrite Hentd' by done.
      apply bool_decide_ext_if. unfold P.
      split; intros [Hva Hr]; (split; [done|]); unfold dist in *; lia.
  - change (oe_divide N has_mask mask2d mean lo hi data)
      with (for_range lo hi (λ o d, for_range 0 (N - o) (body o) d) data).
    rewrite HdN. f_equal. apply (mat_ext N N); [done|by apply shape_mat_imap|].
    intros a b Ha Hb. rewrite HentN by done. unfold divided.
    rewrite look2_mat_imap. unfold bin_touches.
    destruct (look2 data a b) as [v|]; simpl; [|by case_bool_decide].
    case_bool_decide as HP; unfold P in HP.
    + destruct HP as [-> HP]. rewrite andb_true_r.
      destruct HP as [HP|HP]; [|lia].
      by rewrite (proj2 (Nat.leb_le _ _)), (proj2 (Nat.ltb_lt _ _)) by lia.
    + destruct (valid (dist a b) (a `min` b)); [|by rewrite andb_false_r].
      rewrite andb_true_r.
      destruct (Nat.leb_spec lo (dist a b)), (Nat.ltb_spec (dist a b) hi); simpl; try done.
      exfalso. apply HP. split; [done|lia].
Qed.

Lemma setV_ok {A} (a : list A) i v :
  (i < length a)%nat → setV a i v = Ok (<[i := v]> a).
Proof.
  intros Hi. unfold setV, getV.
  by destruct (lookup_lt_is_Some_2 a i Hi) as [w ->].
Qed.

Lemma shape_bin_out data lo hi :
  shape N N data → shape N N (bin_out N valid data lo hi).
Proof.
  intros Hsh. unfold bin_out. destruct (bin_normalised _ _ _ _ _); [|done].
  by apply shape_mat_imap.
Qed.

Lemma oe_bin_ok idx lo hi data n_arr s_arr :
  shape N N data → (lo ≤ hi)%nat →
  (idx < length n_arr)%nat → (idx < length s_arr)%nat →
  oe_bin N has_mask mask2d (idx, (lo, hi)) (data, n_arr, s_arr)
  = Ok (oe_bin_pure N valid (data, n_arr, s_arr) (idx, (lo, hi))).
Proof using Hmask.
  intros Hsh Hle Hn Hs. unfold oe_bin, oe_bin_pure, bin_out, bin_normalised, bin_mean.
  rewrite oe_accumulate_ok by done. cbn [mbind result_bind].
  rewrite !setV_ok by done. cbn [mbind result_bind]. unfold py_div.
  destruct (bin_count N valid lo hi =? 0)%nat eqn:Hc; [done|].
  cbn [mbind result_bind negb andb].
  destruct (feqb _ f0); [done|]. cbn [negb].
  by rewrite oe_divide_ok by done.
Qed.

Lemma oe_bins_loop_ok bins i0 lo0 data n_arr s_arr :
  bins_chain i0 lo0 bins → shape N N data →
  Forall (λ b, b.1 < length n_arr ∧ b.1 < length s_arr)%nat bins →
  for_each bins (oe_bin N has_mask mask2d) (data, n_arr, s_arr)
  = Ok (foldl (oe_bin_pure N valid) (data, n_arr, s_arr) bins).
Proof using Hmask.
  revert i0 lo0 data n_arr s_arr.
  induction bins as [|[idx [lo hi]] rest IH];
    intros i0 lo0 data n_arr s_arr Hch Hsh Hidx; [done|].
  destruct Hch as (-> & Hlo & Hlt & Hch).
  apply Forall_cons in Hidx as [[Hn Hs] Hidx]. simpl in Hn, Hs.
  cbn [for_each foldl]. rewrite oe_bin_ok by (done || lia).
  cbn [mbind result_bind oe_bin_pure].
  apply (IH (S i0) hi); [done|by apply shape_bin_out|].
  by rewrite !length_insert.
Qed.
End normaliser.

Section bins_spec.
Context (N : nat) (valid : nat → nat → bool).

Lemma look2_divided mean lo hi data a b :
  look2 (divided valid mean lo hi data) a b
  = (λ v, if bin_touches valid lo hi a b then fdiv v mean else v) <$> look2 data a b.
Proof. unfold divided. by rewrite look2_mat_imap. Qed.

Lemma bin_touches_outside lo hi a b :
  ¬ (lo ≤ dist a b < hi)%nat → bin_touches valid lo hi a b = false.
Proof.
  intros Hout. unfold bin_touches.
  destruct (Nat.leb_spec lo (dist a b)), (Nat.ltb_spec (dist a b) hi); simpl; try done.
  lia.
Qed.

Lemma bin_out_outside data lo hi a b :
  ¬ (lo ≤ dist a b < hi)%nat →
  look2 (bin_out N valid data lo hi) a b = look2 data a b.
Proof.
  intros Hout. unfold bin_out. destruct (bin_normalised _ _ _ _ _); [|done].
  rewrite look2_divided, bin_touches_outside by done.
  by destruct (look2 data a b).
Qed.

Lemma elem_of_cells lo hi o j :
  (o, j) ∈ cells N lo hi ↔ (lo ≤ o < hi)%nat ∧ (o + j < N)%nat.
Proof.
  unfold cells. rewrite list_elem_of_In, in_flat_map. split.
  - intros (o' & Ho' & Hin). apply in_seq in Ho'.
    apply in_map_iff in Hin as (j' & [= <- <-] & Hj'). apply in_seq in Hj'. lia.
  - intros [Ho Hj]. exists o. split; [apply in_seq; lia|].
    apply in_map_iff. exists j. split; [done|]. apply in_seq. lia.
Qed.

Lemma bin_sum_agree d1 d lo hi :
  (∀ o j, (lo ≤ o < hi)%nat → (o + j < N)%nat →
          look2 d1 (o + j) j = look2 d (o + j) j) →
  bin_sum N valid d1 lo hi = bin_sum N valid d lo hi.
Proof.
  intros Hag. unfold bin_sum. f_equal. apply map_ext_in.
  intros [o j] Hin. unfold bin_pixels in Hin. apply filter_In in Hin as [Hin _].
  apply list_elem_of_In, elem_of_cells in Hin as [Ho Hj].
  unfold ent. simpl. by rewrite Hag.
Qed.

Lemma bin_out_agree d1 d lo hi a b :
  (∀ a' b', (lo ≤ dist a' b')%nat → look2 d1 a' b' = look2 d a' b') →
  (lo ≤ dist a b)%nat →
  look2 (bin_out N valid d1 lo hi) a b = look2 (bin_out N valid d lo hi) a b.
Proof.
  intros Hag Hab.
  assert (bin_sum N valid d1 lo hi = bin_sum N valid d lo hi) as Hs.
  { apply bin_sum_agree. intros o j Ho Hj. apply Hag. unfold dist. lia. }
  unfold bin_out, bin_normalised, bin_mean. rewrite Hs.
  destruct (_ && _); [|by apply Hag].
  by rewrite !look2_divided, Hag.
Qed.

Lemma bins_chain_lower bins i0 lo0 idx lo hi :
  bins_chain i0 lo0 bins → (idx, (lo, hi)) ∈ bins →
  (i0 ≤ idx)%nat ∧ (lo0 ≤ lo)%nat ∧ (lo < hi)%nat.
Proof.
  revert i0 lo0. induction bins as [|[idx' [lo' hi']] rest IH];
    intros i0 lo0 Hch Hin; [by apply elem_of_nil in Hin|].
  destruct Hch as (-> & Hlo & Hlt & Hch).
  apply elem_of_cons in Hin as [[= -> -> ->]|Hin]; [lia|].
  destruct (IH _ _ Hch Hin). lia.
Qed.

Lemma oe_fold_spec bins i0 lo0 data n_arr s_arr :
  bins_chain i0 lo0 bins →
  Forall (λ b, b.1 < length n_arr ∧ b.1 < length s_arr)%nat bins →
  ∃ data' n' s',
    foldl (oe_bin_pure N valid) (data, n_arr, s_arr) bins = (data', n', s') ∧
    length n' = length n_arr ∧ length s' = length s_arr ∧
    (∀ a b, (dist a b < lo0)%nat → look2 data' a b = look2 data a b) ∧
    (∀ j, (j < i0)%nat → n' !! j = n_arr !! j ∧ s' !! j = s_arr !! j) ∧
    (∀ idx lo hi, (idx, (lo, hi)) ∈ bins →
       n' !! idx = Some (bin_count N valid lo hi) ∧
       s' !! idx = Some (bin_sum N valid data lo hi) ∧
       ∀ a b, (lo ≤ dist a b < hi)%nat →
              look2 data' a b = look2 (bin_out N valid data lo hi) a b).
Proof.
  revert i0 lo0 data n_arr s_arr.
  induction bins as [|[idx [lo hi]] rest IH];
    intros i0 lo0 data n_arr s_arr Hch Hidx.
  { exists data, n_arr, s_arr. do 5 (split; [done|]).
    intros ??? Hin. by apply elem_of_nil in Hin. }
  destruct Hch as (-> & Hlo & Hlt & Hch).
  apply Forall_cons in Hidx as [[Hn Hs] Hidx]. simpl in Hn, Hs.
  cbn [foldl oe_bin_pure].
  set (data1 := bin_out N valid data lo hi).
  set (n1 := <[i0 := bin_count N valid lo hi]> n_arr).
  set (s1 := <[i0 := bin_sum N valid data lo hi]> s_arr).
  destruct (IH (S i0) hi data1 n1 s1) as
    (data' & n' & s' & Hfold & Hln & Hls & Hlow & Harr & Hbins); [done| |].
  { unfold n1, s1. by rewrite !length_insert. }
  assert (∀ a b, (hi ≤ dist a b)%nat → look2 data1 a b = look2 data a b) as Hag.
  { intros a b Hab. apply bin_out_outside. lia. }
  exists data', n', s'. split; [done|].
  unfold n1 in Hln. unfold s1 in Hls.
  rewrite length_insert in Hln. rewrite length_insert in Hls.
  split; [done|]. split; [done|]. split; [|split].
  - intros a b Hab. rewrite Hlow by lia. apply bin_out_outside. lia.
  - intros j Hj. destruct (Harr j) as [-> ->]; [lia|].
    unfold n1, s1. by rewrite !list_lookup_insert_ne by lia.
  - intros idx' lo' hi' Hin.
    apply elem_of_cons in Hin as [[= -> -> ->]|Hin].
    + destruct (Harr i0) as [-> ->]; [lia|]. unfold n1, s1.
      rewrite !list_lookup_insert_eq by done. split; [done|]. split; [done|].
      intros a b Hab. apply Hlow. lia.
    + destruct (Hbins _ _ _ Hin) as (Hn' & Hs' & Hd').
      destruct (bins_chain_lower _ _ _ _ _ _ Hch Hin) as (_ & Hlo' & _).
      split; [done|]. split.
      * rewrite Hs'. f_equal. apply bin_sum_agree.
        intros o j Ho Hj. apply Hag. unfold dist. lia.
      * intros a b Hab. rewrite Hd' by done.
        apply bin_out_agree; [|lia]. intros a' b' Hab'. apply Hag. lia.
Qed.
End bins_spec.

(** *** The bin edges *)

Lemma HdRel_insert_unique m n l :
  (m < n)%nat → HdRel lt m l → HdRel lt m (insert_unique n l).
Proof.
  intros Hmn Hl. destruct l as [|k l]; simpl; [by constructor|].
  apply HdRel_inv in Hl.
  destruct (Nat.ltb_spec n k); [by constructor|].
  destruct (Nat.eqb_spec n k); by constructor.
Qed.

Lemma Sorted_insert_unique n l : Sorted lt l → Sorted lt (insert_unique n l).
Proof.
  induction 1 as [|m l Hl IH Hhd]; simpl; [by repeat constructor|].
  destruct (Nat.ltb_spec n m).
  - constructor; [by constructor|by constructor].
  - destruct (Nat.eqb_spec n m); [by constructor|].
    constructor; [done|]. apply HdRel_insert_unique; [lia|done].
Qed.

Lemma Sorted_sort_unique l : Sorted lt (sort_unique l).
Proof.
  induction l as [|n l IH]; simpl; [constructor|]. by apply Sorted_insert_unique.
Qed.

Lemma logbins_ok rl lo hi ratio edges :
  logbins rl lo hi ratio = Ok edges →
  Sorted lt edges ∧ head edges = Some lo ∧ last edges = Some hi.
Proof.
  unfold logbins. destruct (negb (feqb ratio f0)); [|done].
  pose proof (Sorted_sort_unique (rl lo hi ratio)) as Hsorted.
  destruct (sort_unique (rl lo hi ratio)) as [|e0 es] eqn:He; [done|].
  cbn [getV lookup list_lookup mbind result_bind].
  destruct (Nat.eqb_spec e0 lo) as [->|]; [|done].
  cbn [py_assert mbind result_bind]. unfold get_last.
  destruct (last (lo :: es)) as [final|] eqn:Hlast; [|done].
  cbn [mbind result_bind].
  destruct (Nat.eqb_spec final hi) as [->|]; [|done].
  cbn [py_assert mbind result_bind]. intros [= <-]. done.
Qed.

Lemma oe_bins_chain_from i db :
  Sorted lt db →
  bins_chain i (hd 0%nat db)
    (zip (seq i (length db - 1))
         (zip (take (length db - 1) db) (drop 1 db))).
Proof.
  intros Hs. revert i. induction Hs as [|d0 db Hs IH Hhd]; intros i; [done|].
  destruct db as [|d1 rest]; [done|].
  apply HdRel_inv in Hhd.
  specialize (IH (S i)). simpl in *. rewrite Nat.sub_0_r in IH.
  rewrite drop_0 in IH. done.
Qed.

Lemma oe_bins_chain edges :
  Sorted lt edges → head edges = Some 1%nat → bins_chain 0 0 (oe_bins (0%nat :: edges)).
Proof.
  intros Hs Hhd. apply (oe_bins_chain_from 0 (0%nat :: edges)).
  constructor; [done|]. destruct edges as [|e es]; simplify_eq/=. constructor. lia.
Qed.

Lemma oe_bins_idx db :
  Forall (λ b : nat * (nat * nat), b.1 < length db - 1)%nat (oe_bins db).
Proof.
  apply Forall_forall. intros [idx [lo hi]] Hin. simpl.
  unfold oe_bins in Hin. apply elem_of_zip_l in Hin.
  apply elem_of_seq in Hin. lia.
Qed.

(** *** The whole normaliser *)

Lemma observed_over_expected_spec rl N x mask mask2d ratio edges :
  shape N N x →
  oe_mask2d mask = Ok mask2d →
  ((0 < size2 mask2d)%nat → shape N N mask2d) →
  logbins rl 1 N ratio = Ok edges →
  let valid := valid_px (0 <? size2 mask2d)%nat mask2d in
  ∃ data sums counts,
    observed_over_expected rl x mask ratio = Ok (data, 0%nat :: edges, sums, counts) ∧
    foldl (oe_bin_pure N valid)
          (x, replicate (length edges) 0%nat, replicate (length edges) f0)
          (oe_bins (0%nat :: edges)) = (data, counts, sums) ∧
    ∀ b lo hi, (b, (lo, hi)) ∈ oe_bins (0%nat :: edges) →
      counts !! b = Some (bin_count N valid lo hi) ∧
      sums !! b = Some (bin_sum N valid x lo hi) ∧
      ∀ i j, (lo ≤ dist i j < hi)%nat →
             look2 data i j = look2 (bin_out N valid x lo hi) i j.
Proof.
  intros Hsh Hm Hmsh Hlog valid.
  destruct (logbins_ok _ _ _ _ _ Hlog) as (Hsorted & Hhd & _).
  pose proof (oe_bins_chain edges Hsorted Hhd) as Hch.
  pose proof (oe_bins_idx (0%nat :: edges)) as Hidx.
  cbn [length] in Hidx. rewrite Nat.sub_succ, Nat.sub_0_r in Hidx.
  assert (Forall (λ b : nat * (nat * nat),
            b.1 < length (replicate (length edges) 0%nat) ∧
            b.1 < length (replicate (length edges) f0))%nat
          (oe_bins (0%nat :: edges))) as Hidx'.
  { eapply Forall_impl; [exact Hidx|]. intros b Hb. by rewrite !length_replicate. }
  destruct (oe_fold_spec N valid _ 0 0 x _ _ Hch Hidx')
    as (data & n' & s' & Hfold & _ & _ & _ & _ & Hbins).
  exists data, s', n'. split; [|split; [done|]].
  - unfold observed_over_expected. rewrite Hm. cbn [mbind result_bind].
    assert (length x = N) as -> by (by destruct Hsh).
    rewrite Hlog. cbn [mbind result_bind length].
    rewrite Nat.sub_succ, Nat.sub_0_r.
    rewrite (oe_bins_loop_ok N _ _ (λ H, Hmsh (proj1 (Nat.ltb_lt _ _) H)) _ 0 0)
      by done.
    fold valid. rewrite Hfold. done.
  - intros b lo hi Hin. by apply Hbins.
Qed.

Lemma bin_out_not_normalised N valid x lo hi :
  bin_count N valid lo hi = 0%nat ∨ feqb (bin_mean N valid x lo hi) f0 = true →
  bin_out N valid x lo hi = x.
Proof.
  intros Hdeg. unfold bin_out, bin_normalised.
  destruct Hdeg as [-> | ->]; [done|]. by rewrite andb_false_r.
Qed.

(** C8. Given bin edges, on a square matrix with a mask of its shape (or
    none), the normaliser raises nothing; for every distance bin it
    reports the sum and the count of the valid pixels, and when that count
    is zero or the mean is zero, every pixel at an offset of the bin, in
    either triangle, comes out equal to its input value. *)
Theorem C8_degenerate_bin_left_untouched rl N x mask mask2d ratio edges :
  shape N N x →
  oe_mask2d mask = Ok mask2d →
  ((0 < size2 mask2d)%nat → shape N N mask2d) →
  logbins rl 1 N ratio = Ok edges →
  let valid := valid_px (0 <? size2 mask2d)%nat mask2d in
  ∃ data sums counts,
    observed_over_expected rl x mask ratio = Ok (data, 0%nat :: edges, sums, counts) ∧
    ∀ b lo hi, (b, (lo, hi)) ∈ oe_bins (0%nat :: edges) →
      counts !! b = Some (bin_count N valid lo hi) ∧
      sums !! b = Some (bin_sum N valid x lo hi) ∧
      (bin_count N valid lo hi = 0%nat ∨ feqb (bin_mean N valid x lo hi) f0 = true →
       ∀ i j, (lo ≤ dist i j < hi)%nat → look2 data i j = look2 x i j).
Proof.
  intros Hsh Hm Hmsh Hlog valid.
  destruct (observed_over_expected_spec rl N x mask mask2d ratio edges)
    as (data & sums & counts & Hrun & _ & Hbins); try done.
  exists data, sums, counts. split; [done|].
  intros b lo hi Hin. destruct (Hbins b lo hi Hin) as (Hc & Hs & Hd).
  split; [done|]. split; [done|].
  intros Hdeg i j Hij. rewrite Hd by done.
  fold valid. by rewrite bin_out_not_normalised.
Qed.

(** *** Which mask entries are read *)

Lemma mat_imap_ext {A B} (f g : nat → nat → A → B) (a : list (list A)) :
  (∀ i j v, f i j v = g i j v) → mat_imap f a = mat_imap g a.
Proof.
  intros Hfg. unfold mat_imap. apply imap_ext. intros i row _.
  apply imap_ext. intros j v _. apply Hfg.
Qed.

Lemma oe_bin_pure_ext N (valid valid' : nat → nat → bool) st bin :
  (∀ o j, valid' o j = valid o j) →
  oe_bin_pure N valid' st bin = oe_bin_pure N valid st bin.
Proof.
  intros Hv. destruct bin as [idx [lo hi]], st as [[data n_arr] s_arr].
  assert (bin_pixels N valid' lo hi = bin_pixels N valid lo hi) as Hpx.
  { unfold bin_pixels. apply filter_ext. intros c. apply Hv. }
  unfold oe_bin_pure, bin_out, bin_normalised, bin_mean, bin_sum, bin_count.
  rewrite Hpx. do 2 f_equal.
  destruct (_ && _); [|done]. unfold divided. apply mat_imap_ext.
  intros a b v. unfold bin_touches. by rewrite Hv.
Qed.

Lemma size2_shape {A} n k (a : list (list A)) : shape n k a → size2 a = (n * k)%nat.
Proof.
  intros [<- Hall]. unfold size2.
  induction Hall as [|row a Hrow Ha IH]; [done|]. simpl. rewrite Hrow, IH. lia.
Qed.

Lemma NoDup_cells N lo hi : NoDup (cells N lo hi).
Proof.
  unfold cells. generalize (hi - lo)%nat as n. intros n. revert lo.
  induction n as [|n IH]; intros lo; simpl; [constructor|].
  apply NoDup_app. split; [|split; [|apply IH]].
  - apply NoDup_fmap_2; [by intros ?? [=]|]. apply NoDup_seq.
  - intros [o j] Hin1 Hin2.
    apply list_elem_of_In, in_map_iff in Hin1 as (j' & [= <- <-] & _).
    apply list_elem_of_In, in_flat_map in Hin2 as (o' & Ho' & Hin2).
    apply in_seq in Ho'. apply in_map_iff in Hin2 as (j'' & [= ? ?] & _). lia.
Qed.

(** C10. For every distance bin the reported sum and count run over the
    pairs [(d, i)] of the bin, each once, reading the matrix and the mask
    at the lower-triangle position [(i + d, i)] only; when the bin has a
    valid pixel and a non-zero mean, [M[i+d, i]] and its mirror
    [M[i, i+d]] are both divided by the mean exactly when
    [mask2d[i+d, i]] holds, and kept otherwise.  A mask that differs
    from [mask2d] above the diagonal only gives the same result. *)
Theorem C10_lower_triangle_decides rl N x mask mask2d ratio edges :
  shape N N x →
  oe_mask2d mask = Ok mask2d →
  ((0 < size2 mask2d)%nat → shape N N mask2d) →
  logbins rl 1 N ratio = Ok edges →
  let valid := valid_px (0 <? size2 mask2d)%nat mask2d in
  (∃ data sums counts,
    observed_over_expected rl x mask ratio = Ok (data, 0%nat :: edges, sums, counts) ∧
    ∀ b lo hi, (b, (lo, hi)) ∈ oe_bins (0%nat :: edges) →
      let pixels := List.filter (λ c, valid c.1 c.2) (cells N lo hi) in
      let mean := bin_mean N valid x lo hi in
      NoDup (cells N lo hi) ∧
      sums !! b = Some (fsum (map (λ c, ent x (c.1 + c.2) c.2) pixels)) ∧
      counts !! b = Some (length pixels) ∧
      (pixels ≠ [] → feqb mean f0 = false →
       ∀ d i, (lo ≤ d < hi)%nat → (i + d < N)%nat →
         look2 data (i + d) i
           = Some (if valid d i then fdiv (ent x (i + d) i) mean else ent x (i + d) i) ∧
         look2 data i (i + d)
           = Some (if valid d i then fdiv (ent x i (i + d)) mean else ent x i (i + d)))) ∧
  (∀ mask2d',
     (0 < size2 mask2d)%nat → shape N N mask2d' →
     (∀ i j, (j ≤ i)%nat → look2 mask2d' i j = look2 mask2d i j) →
     observed_over_expected rl x (Mask2D mask2d') ratio
     = observed_over_expected rl x mask ratio).
Proof.
  intros Hsh Hm Hmsh Hlog valid.
  destruct (observed_over_expected_spec rl N x mask mask2d ratio edges)
    as (data & sums & counts & Hrun & Hfold & Hbins); try done.
  fold valid in Hfold, Hbins. split.
  - exists data, sums, counts. split; [done|].
    intros b lo hi Hin. destruct (Hbins b lo hi Hin) as (Hc & Hs & Hd).
    split; [apply NoDup_cells|]. split; [done|]. split; [done|].
    intros Hne Hmean d i Hd' Hi.
    assert (bin_normalised N valid x lo hi = true) as Hnorm.
    { unfold bin_normalised. fold (bin_mean N valid x lo hi). rewrite Hmean.
      rewrite andb_true_r. apply negb_true_iff, Nat.eqb_neq.
      unfold bin_count, bin_pixels. by destruct (List.filter _ _). }
    assert (∀ r c, (r < N)%nat → (c < N)%nat → dist r c = d → r `min` c = i →
      look2 data r c = Some (if valid d i then fdiv (ent x r c) (bin_mean N valid x lo hi)
                             else ent x r c)) as Hcell.
    { intros r c Hr Hc' Hdist Hmin. rewrite Hd by lia.
      unfold bin_out. rewrite Hnorm, look2_divided. unfold ent.
      destruct (look2_is_Some N N x r c Hsh Hr Hc') as [v ->]. simpl.
      unfold bin_touches. rewrite Hdist, Hmin.
      by rewrite (proj2 (Nat.leb_le _ _)), (proj2 (Nat.ltb_lt _ _)) by lia. }
    split; apply Hcell; unfold dist; lia.
  - intros mask2d' Hpos Hsh' Hag.
    specialize (Hmsh Hpos).
    destruct (observed_over_expected_spec rl N x (Mask2D mask2d') mask2d' ratio edges)
      as (data' & sums' & counts' & Hrun' & Hfold' & _); try done.
    rewrite Hrun, Hrun'.
    assert (size2 mask2d' = size2 mask2d) as Hsz
      by (by rewrite (size2_shape N N mask2d'), (size2_shape N N mask2d)).
    rewrite Hsz in Hfold'.
    rewrite (foldl_ext _ (oe_bin_pure N valid)) in Hfold'.
    + rewrite Hfold in Hfold'. by simplify_eq.
    + intros st bin. apply oe_bin_pure_ext. intros o j.
      unfold valid, valid_px. destruct (0 <? size2 mask2d)%nat; [|done].
      rewrite Hag by lia. done.
Qed.

(** *** A matrix that depends on the distance only *)







(** ** Lazy Toeplitz matrix *)

Lemma clip_of_nat len (a : nat) : clip len (Z.of_nat a) = (a `min` len)%nat.
Proof.
  unfold clip. destruct (Z.ltb_spec (Z.of_nat a) 0); lia.
Qed.

Lemma slice_of_nat {A} (l : list A) (a b : nat) :
  slice l (Z.of_nat a) (Z.of_nat b)
  = take ((b `min` length l) - (a `min` length l)) (drop (a `min` length l) l).
Proof. unfold slice. by rewrite !clip_of_nat. Qed.

Lemma length_slice {A} (l : list A) (a b : nat) :
  (a ≤ b ≤ length l)%nat → length (slice l (Z.of_nat a) (Z.of_nat b)) = (b - a)%nat.
Proof.
  intros Hab. rewrite slice_of_nat, length_take, length_drop. lia.
Qed.

Lemma lookup_slice {A} (l : list A) (a b k : nat) :
  (a ≤ b ≤ length l)%nat → (k < b - a)%nat →
  slice l (Z.of_nat a) (Z.of_nat b) !! k = l !! (a + k)%nat.
Proof.
  intros Hab Hk. rewrite slice_of_nat.
  rewrite lookup_take_lt by lia. rewrite lookup_drop. f_equal. lia.
Qed.

Lemma slice_rev_of_nat {A} (l : list A) (a b : nat) :
  (b ≤ a < length l)%nat →
  slice_rev l (Z.of_nat a) (Z.of_nat b) = reverse (take (a - b) (drop (S b) l)).
Proof.
  intros Hab. unfold slice_rev, clip_rev.
  destruct (Z.ltb_spec (Z.of_nat a) 0), (Z.ltb_spec (Z.of_nat b) 0); try lia.
  replace (Z.to_nat _) with (a - b)%nat by lia.
  by replace (Z.to_nat _) with (S b) by lia.
Qed.

Lemma length_slice_rev {A} (l : list A) (a b : nat) :
  (b ≤ a < length l)%nat →
  length (slice_rev l (Z.of_nat a) (Z.of_nat b)) = (a - b)%nat.
Proof.
  intros Hab. rewrite slice_rev_of_nat by done.
  rewrite length_reverse, length_take, length_drop. lia.
Qed.

Lemma lookup_slice_rev {A} (l : list A) (a b k : nat) :
  (b ≤ a < length l)%nat → (k < a - b)%nat →
  slice_rev l (Z.of_nat a) (Z.of_nat b) !! k = l !! (a - k)%nat.
Proof.
  intros Hab Hk. rewrite slice_rev_of_nat by done.
  rewrite reverse_lookup by (rewrite length_take, length_drop; lia).
  rewrite length_take, length_drop.
  rewrite lookup_take_lt by lia. rewrite lookup_drop. f_equal. lia.
Qed.

Lemma shape_toeplitz c r : shape (length c) (length r) (toeplitz c r).
Proof.
  unfold toeplitz. split.
  - by rewrite length_fmap, length_seq.
  - apply Forall_fmap, Forall_forall. intros i _. simpl.
    by rewrite length_fmap, length_seq.
Qed.

Lemma look2_toeplitz c r i j :
  (i < length c)%nat → (j < length r)%nat →
  look2 (toeplitz c r) i j
  = Some (if (j <=? i)%nat then c !!! (i - j)%nat else r !!! (j - i)%nat).
Proof.
  intros Hi Hj. unfold look2, toeplitz.
  rewrite list_lookup_fmap, lookup_seq_lt by done. simpl.
  by rewrite list_lookup_fmap, lookup_seq_lt by done.
Qed.

Lemma shape_submatrix {A} n k (a : list (list A)) (i0 i1 j0 j1 : nat) :
  shape n k a → (i0 ≤ i1 ≤ n)%nat → (j0 ≤ j1 ≤ k)%nat →
  shape (i1 - i0) (j1 - j0)
        (submatrix a (Z.of_nat i0) (Z.of_nat i1) (Z.of_nat j0) (Z.of_nat j1)).
Proof.
  intros [Hlen Hall] Hi Hj. unfold submatrix. split.
  - rewrite length_fmap, length_slice; lia.
  - apply Forall_fmap, Forall_forall. intros row Hrow. simpl.
    rewrite slice_of_nat in Hrow.
    apply elem_of_take in Hrow as (i & Hrow & _).
    rewrite lookup_drop in Hrow.
    rewrite length_slice; [done|]. by rewrite (Forall_lookup_1 _ _ _ _ Hall Hrow).
Qed.

Lemma look2_submatrix {A} n k (a : list (list A)) (i0 i1 j0 j1 i j : nat) :
  shape n k a → (i0 ≤ i1 ≤ n)%nat → (j0 ≤ j1 ≤ k)%nat →
  (i < i1 - i0)%nat → (j < j1 - j0)%nat →
  look2 (submatrix a (Z.of_nat i0) (Z.of_nat i1) (Z.of_nat j0) (Z.of_nat j1)) i j
  = look2 a (i0 + i) (j0 + j).
Proof.
  intros Hsh Hi0 Hj0 Hi Hj. unfold look2, submatrix.
  rewrite list_lookup_fmap, lookup_slice by (destruct Hsh; lia).
  destruct (a !! (i0 + i)%nat) as [row|] eqn:Hrow; simpl; [|done].
  apply lookup_slice; [|done]. rewrite (shape_row _ _ _ _ _ Hsh Hrow). lia.
Qed.

Lemma feqb_eq a b : feqb a b = true → a = b.
Proof.
  destruct a as [x| | |], b as [y| | |]; simpl; try done.
  intros H. apply bool_decide_eq_true_1 in H. by subst.
Qed.

Lemma LazyToeplitz_init_ok C R self :
  LazyToeplitz_init C (Some R) = Ok self → self = (C, R) ∧ C !! 0%nat = R !! 0%nat.
Proof.
  unfold LazyToeplitz_init, getV.
  destruct (C !! 0%nat) as [c0|]; [|done]. destruct (R !! 0%nat) as [r0|]; [|done].
  cbn [mbind result_bind]. destruct (feqb c0 r0) eqn:E; [|done].
  apply feqb_eq in E as ->. by intros [= <-].
Qed.

Lemma above_diagonal_spec C R (i0 i1 j0 j1 : nat) c r :
  (i0 ≤ j0)%nat → (i0 ≤ i1 ≤ length C)%nat → (j0 ≤ j1 ≤ length R)%nat →
  (j0 < length R)%nat →
  above_diagonal C R (Z.of_nat i0) (Z.of_nat i1) (Z.of_nat j0) (Z.of_nat j1) = (c, r) →
  length c = (i1 - i0)%nat ∧ length r = (j1 - j0)%nat ∧
  (∀ k, (k < i1 - i0)%nat →
     c !! k = if (k <? j0 - i0)%nat then R !! (j0 - i0 - k)%nat
              else C !! (k - (j0 - i0))%nat) ∧
  (∀ k, (k < j1 - j0)%nat → r !! k = R !! (j0 - i0 + k)%nat).
Proof.
  intros Hij Hi Hj Hj0. unfold above_diagonal.
  replace (Z.of_nat j0 - Z.of_nat i0)%Z with (Z.of_nat (j0 - i0)) by lia.
  replace (Z.max 0 (Z.of_nat j0 - Z.of_nat i1))%Z with (Z.of_nat (j0 - i1)) by lia.
  replace (Z.max 0 (Z.of_nat i1 - Z.of_nat j0))%Z with (Z.of_nat (i1 - j0)) by lia.
  replace (Z.of_nat j1 - Z.of_nat i0)%Z with (Z.of_nat (j1 - i0)) by lia.
  change 0%Z with (Z.of_nat 0).
  intros [= <- <-].
  assert (length (slice_rev R (Z.of_nat (j0 - i0)) (Z.of_nat (j0 - i1)))
          = ((j0 - i0) - (j0 - i1))%nat) as Hl1
    by (apply length_slice_rev; lia).
  assert (length (slice C (Z.of_nat 0) (Z.of_nat (i1 - j0))) = (i1 - j0)%nat) as Hl2
    by (rewrite length_slice; lia).
  split; [rewrite length_app, Hl1, Hl2; lia|].
  split; [rewrite length_slice; lia|]. split.
  - intros k Hk. destruct (decide (k < (j0 - i0) - (j0 - i1))%nat) as [Hlt|Hge].
    + rewrite lookup_app_l by lia. rewrite lookup_slice_rev by lia.
      by rewrite (proj2 (Nat.ltb_lt _ _)) by lia.
    + rewrite lookup_app_r by lia. rewrite Hl1.
      rewrite lookup_slice by lia.
      rewrite (proj2 (Nat.ltb_ge _ _)) by lia. f_equal. lia.
  - intros k Hk. by rewrite lookup_slice by lia.
Qed.

Lemma getitem_block C R (i0 i1 j0 j1 : nat) :
  C !! 0%nat = R !! 0%nat →
  (i0 ≤ i1 ≤ length C)%nat → (j0 ≤ j1 ≤ length R)%nat →
  (i0 < length C)%nat → (j0 < length R)%nat →
  ∃ c r,
    getitem_cr (C, R) (Z.of_nat i0) (Z.of_nat i1) (Z.of_nat j0) (Z.of_nat j1) = (c, r) ∧
    length c = (i1 - i0)%nat ∧ length r = (j1 - j0)%nat ∧
    toeplitz c r
    = submatrix (full_matrix C R)
                (Z.of_nat i0) (Z.of_nat i1) (Z.of_nat j0) (Z.of_nat j1).
Proof.
  intros H00 Hi Hj Hi0 Hj0.
  assert (∀ c r, length c = (i1 - i0)%nat → length r = (j1 - j0)%nat →
    (∀ a b, (a < i1 - i0)%nat → (b < j1 - j0)%nat →
       (if (b <=? a)%nat then c !! (a - b)%nat else r !! (b - a)%nat)
       = (if (j0 + b <=? i0 + a)%nat then C !! (i0 + a - (j0 + b))%nat
          else R !! (j0 + b - (i0 + a))%nat)) →
    toeplitz c r
    = submatrix (full_matrix C R)
                (Z.of_nat i0) (Z.of_nat i1) (Z.of_nat j0) (Z.of_nat j1)) as Hmain.
  { intros c r Hc Hr Hent. apply (mat_ext (i1 - i0) (j1 - j0)).
    - rewrite <-Hc, <-Hr. apply shape_toeplitz.
    - apply (shape_submatrix (length C) (length R)); [apply shape_toeplitz|done..].
    - intros a b Ha Hb.
      rewrite (look2_submatrix (length C) (length R))
        by (done || apply shape_toeplitz).
      change (full_matrix C R) with (toeplitz C R).
      rewrite !look2_toeplitz by lia. f_equal.
      rewrite !list_lookup_total_alt.
      specialize (Hent a b Ha Hb).
      destruct (b <=? a)%nat, (j0 + b <=? i0 + a)%nat; by rewrite Hent. }
  unfold getitem_cr.
  assert ((Z.of_nat i0 =? Z.of_nat j0)%Z && (Z.of_nat i1 =? Z.of_nat j1)%Z
          = bool_decide (i0 = j0 ∧ i1 = j1)) as ->.
  { case_bool_decide;
      destruct (Z.eqb_spec (Z.of_nat i0) (Z.of_nat j0)),
               (Z.eqb_spec (Z.of_nat i1) (Z.of_nat j1)); simpl; try done; lia. }
  assert ((Z.of_nat j0 <? Z.of_nat i0)%Z
          || ((Z.of_nat i0 =? Z.of_nat j0)%Z && (Z.of_nat i1 <? Z.of_nat j1)%Z)
          = bool_decide (j0 < i0 ∨ (i0 = j0 ∧ i1 < j1))%nat) as ->.
  { case_bool_decide;
      destruct (Z.ltb_spec (Z.of_nat j0) (Z.of_nat i0)),
               (Z.eqb_spec (Z.of_nat i0) (Z.of_nat j0)),
               (Z.ltb_spec (Z.of_nat i1) (Z.of_nat j1)); simpl; try done; lia. }
  case_bool_decide as Hsym; [|case_bool_decide as Hswap].
  - (* the symmetric query *)
    replace (Z.of_nat i1 - Z.of_nat i0)%Z with (Z.of_nat (i1 - i0)) by lia.
    replace (Z.of_nat j1 - Z.of_nat j0)%Z with (Z.of_nat (j1 - j0)) by lia.
    change 0%Z with (Z.of_nat 0).
    eexists _, _. split; [done|].
    split; [rewrite length_slice; lia|]. split; [rewrite length_slice; lia|].
    apply Hmain; [rewrite length_slice; lia..|].
    intros a b Ha Hb.
    destruct (Nat.leb_spec b a), (Nat.leb_spec (j0 + b) (i0 + a)); try lia.
    + rewrite lookup_slice by lia. f_equal. lia.
    + rewrite lookup_slice by lia. f_equal. lia.
  - (* the block starts on or below the diagonal: transposed *)
    destruct (above_diagonal R C (Z.of_nat j0) (Z.of_nat j1) (Z.of_nat i0) (Z.of_nat i1))
      as [c' r'] eqn:Hab.
    destruct (above_diagonal_spec R C j0 j1 i0 i1 c' r') as (Hc' & Hr' & Hlc & Hlr);
      [lia..|done|].
    exists r', c'. split; [done|]. split; [done|]. split; [done|].
    apply Hmain; [done..|]. intros a b Ha Hb.
    destruct (Nat.leb_spec b a), (Nat.leb_spec (j0 + b) (i0 + a)); try lia.
    + rewrite Hlr by lia. f_equal. lia.
    + rewrite Hlc by lia.
      destruct (Nat.ltb_spec (b - a) (i0 - j0)); [f_equal; lia|].
      (* the main diagonal, read in [R] instead of [C] *)
      replace (b - a - (i0 - j0))%nat with 0%nat by lia.
      replace (i0 + a - (j0 + b))%nat with 0%nat by lia. done.
    + rewrite Hlc by lia. rewrite (proj2 (Nat.ltb_ge _ _)) by lia. f_equal. lia.
  - (* the block starts on or above the diagonal *)
    destruct (above_diagonal C R (Z.of_nat i0) (Z.of_nat i1) (Z.of_nat j0) (Z.of_nat j1))
      as [c r] eqn:Hab.
    destruct (above_diagonal_spec C R i0 i1 j0 j1 c r) as (Hc & Hr & Hlc & Hlr);
      [lia..|done|].
    exists c, r. split; [done|]. split; [done|]. split; [done|].
    apply Hmain; [done..|]. intros a b Ha Hb.
    destruct (Nat.leb_spec b a), (Nat.leb_spec (j0 + b) (i0 + a)); try lia.
    + rewrite Hlc by lia. rewrite (proj2 (Nat.ltb_ge _ _)) by lia. f_equal. lia.
    + rewrite Hlc by lia. rewrite (proj2 (Nat.ltb_lt _ _)) by lia. f_equal. lia.
    + rewrite Hlr by lia. f_equal. lia.
Qed.

(** C1, as the code has it.  For [C] and [R] accepted by the constructor
    ([C[0] == R[0]]) and every query rectangle within bounds whose corner
    [(i0, j0)] is a position of the matrix (every non-empty rectangle is
    one), [__getitem__] builds vectors of the lengths of the rectangle and
    their Toeplitz expansion is [full_matrix[i0:i1, j0:j1]], where
    [full_matrix[i, j]] is [C[i-j]] for [i >= j] and [R[j-i]] otherwise.
    For [C = [1,2,3,4]] and [R = [1,5,6,7]] the block [[0:2, 0:2]] is
    [[[1,5],[2,1]]] and the block [[2:4, 0:2]] is [[[3,2],[4,3]]]. *)
Theorem C1_getitem_is_block_of_full_matrix :
  (∀ C R self (i0 i1 j0 j1 : nat),
     LazyToeplitz_init C (Some R) = Ok self →
     (i0 ≤ i1 ≤ length C)%nat → (j0 ≤ j1 ≤ length R)%nat →
     (i0 < length C)%nat → (j0 < length R)%nat →
     ∃ c r,
       getitem_cr self (Z.of_nat i0) (Z.of_nat i1) (Z.of_nat j0) (Z.of_nat j1) = (c, r) ∧
       length c = (i1 - i0)%nat ∧ length r = (j1 - j0)%nat ∧
       getitem self (Z.of_nat i0) (Z.of_nat i1) (Z.of_nat j0) (Z.of_nat j1)
       = submatrix (full_matrix C R)
                   (Z.of_nat i0) (Z.of_nat i1) (Z.of_nat j0) (Z.of_nat j1)) ∧
  LazyToeplitz_init C_ex (Some R_ex) = Ok (C_ex, R_ex) ∧
  getitem (C_ex, R_ex) 0 2 0 2 = [map of_nat [1; 5]%nat; map of_nat [2; 1]%nat] ∧
  getitem (C_ex, R_ex) 2 4 0 2 = [map of_nat [3; 2]%nat; map of_nat [4; 3]%nat].
Proof.
  split; [|repeat split; compute_done].
  intros C R self i0 i1 j0 j1 Hinit Hi Hj Hi0 Hj0.
  apply LazyToeplitz_init_ok in Hinit as [-> H00].
  destruct (getitem_block C R i0 i1 j0 j1) as (c & r & Hcr & Hc & Hr & Ht); try done.
  exists c, r. split; [done|]. split; [done|]. split; [done|].
  unfold getitem. by rewrite Hcr.
Qed.

(** C1, as stated, fails twice for [C = [1,2,3,4]], [R = [1,5,6,7]].  The
    block [[2:4, 0:2]] is [[[3,2],[4,3]]], which is what the formula of the
    full matrix gives ([full[2,1] = C[1] = 2]), and not [[[3,6],[4,3]]];
    and the empty rectangle [[0:2, 4:4]], within bounds, comes out with one
    (empty) row where [full_matrix[0:2, 4:4]] has two. *)
Lemma C1_counterexample_literal_and_empty_block :
  getitem (C_ex, R_ex) 2 4 0 2 = [map of_nat [3; 2]%nat; map of_nat [4; 3]%nat] ∧
  submatrix (full_matrix C_ex R_ex) 2 4 0 2
  = [map of_nat [3; 2]%nat; map of_nat [4; 3]%nat] ∧
  getitem (C_ex, R_ex) 2 4 0 2 ≠ [map of_nat [3; 6]%nat; map of_nat [4; 3]%nat] ∧
  getitem (C_ex, R_ex) 0 2 4 4 = [[]] ∧
  submatrix (full_matrix C_ex R_ex) 0 2 4 4 = [[]; []].
Proof. repeat split; compute_done. Qed.

(** ** Insulation boundary caller *)

(** C6, on the code.  With the bad-bin flags [False, True, False], a window
    of two bins and [max_bad_bins = 1], the code counts [1, 1, 2] bad bins
    upstream and [1, 1, 0] downstream and marks bin 2 missing; the windows
    of the specification hold [1, 1, 1] and [1, 1, 1] bad positions (bin 3,
    past the end, on the downstream side of bin 2), so that only the bad
    bin 1 is missing.  The last statement of the loop adds the positions
    past the end to [bad_bins_u] instead of [bad_bins_d]. *)
Lemma C6_bad_bins_past_the_end_counted_upstream :
  mark_missing 200 100 1 [false; true; false] [f1; f1; f1]
  = Ok ([f1; NaN; NaN], [1; 1; 2]%Z, [1; 1; 0]%Z) ∧
  map (spec_upstream [false; true; false] 2) [0; 1; 2]%nat = [1; 1; 1]%Z ∧
  map (spec_downstream [false; true; false] 2) [0; 1; 2]%nat = [1; 1; 1]%Z ∧
  spec_missing [false; true; false] 2 1 = [false; true; false].
Proof. repeat split; compute_done. Qed.

(** ** Which buffer is written *)

Lemma alloc_spec (h : store) a :
  alloc h a = (<[fresh (dom h) := a]> h, fresh (dom h)) ∧ h !! fresh (dom h) = None.
Proof. split; [done|]. apply not_elem_of_dom, is_fresh. Qed.

Lemma np_copy_inv (h h' : store) x l :
  np_copy h x = Ok (h', l) →
  ∃ a, h !! x = Some a ∧ h !! l = None ∧ h' = <[l := a]> h.
Proof.
  unfold np_copy, deref. destruct (h !! x) as [a|] eqn:Hx; [|done].
  cbn [mbind result_bind]. destruct (alloc_spec h a) as [-> Hfresh].
  intros [= <- <-]. by exists a.
Qed.

(** After [arr.copy()] the buffer at [x] is out of reach of anything
    written through the copy. *)
Lemma np_copy_frame (h h' : store) x l y :
  np_copy h x = Ok (h', l) → is_Some (h !! y) → l ≠ y ∧ h' !! y = h !! y.
Proof.
  intros (a & Hx & Hl & ->)%np_copy_inv [b Hy].
  assert (l ≠ y) by (intros ->; congruence).
  split; [done|]. by rewrite lookup_insert_ne.
Qed.

Lemma for_each_inv_ok {K T} (I : T → Prop) (ks : list K) (body : K → T → result T) st st' :
  I st →
  (∀ k s s', I s → body k s = Ok s' → I s') →
  for_each ks body st = Ok st' → I st'.
Proof.
  intros H0 Hstep. revert st H0. induction ks as [|k ks IH]; intros st H0; simpl.
  - by intros [= <-].
  - destruct (body k st) as [s|e] eqn:Hb; [|done]. simpl.
    apply IH. by eapply Hstep.
Qed.

(** An operation of the shape "copy if asked, then write the array". *)
Lemma write_inv (h h' : store) x out (copy : bool) (f : matrix → result matrix) :
  ('(h, arr) ← (if copy then np_copy h x else Ok (h, x));
   a ← deref h arr; a' ← f a; Ok (<[arr := a']> h, arr)) = Ok (h', out) →
  (∀ y, y ≠ out → is_Some (h !! y) → h' !! y = h !! y) ∧
  (if copy then is_Some (h !! x) → out ≠ x else out = x) ∧
  ∃ a a', h !! x = Some a ∧ f a = Ok a' ∧ h' !! out = Some a'.
Proof.
  destruct copy.
  - destruct (np_copy h x) as [[h1 l]|e] eqn:Hcopy; [|done].
    cbn [mbind result_bind].
    pose proof Hcopy as (a & Hx & Hl & ->)%np_copy_inv.
    unfold deref. rewrite lookup_insert_eq. cbn [mbind result_bind].
    destruct (f a) as [a'|e] eqn:Hf; [|done]. cbn [mbind result_bind].
    intros [= <- <-]. split; [|split].
    + intros y Hy _. by rewrite !lookup_insert_ne.
    + intros _ ->. congruence.
    + exists a, a'. by rewrite lookup_insert_eq.
  - cbn [mbind result_bind]. unfold deref.
    destruct (h !! x) as [a|] eqn:Hx; [|done]. cbn [mbind result_bind].
    destruct (f a) as [a'|e] eqn:Hf; [|done]. cbn [mbind result_bind].
    intros [= <- <-]. split; [|split; [done|]].
    + intros y Hy _. by rewrite lookup_insert_ne.
    + exists a, a'. by rewrite lookup_insert_eq.
Qed.

Lemma set_diag_inv (h h' : store) x v i copy out :
  set_diag h x v i copy = Ok (h', out) →
  (∀ y, y ≠ out → is_Some (h !! y) → h' !! y = h !! y) ∧
  (if copy then is_Some (h !! x) → out ≠ x else out = x) ∧
  ∃ a a', h !! x = Some a ∧ flat_assign a (diag_positions a i) v = Ok a' ∧
          h' !! out = Some a'.
Proof. apply (write_inv h h' x out copy (λ a, flat_assign a (diag_positions a i) v)). Qed.

Lemma fill_where_inv test value (h h' : store) x copy out :
  fill_where test value h x copy = Ok (h', out) →
  (∀ y, y ≠ out → is_Some (h !! y) → h' !! y = h !! y) ∧
  (if copy then is_Some (h !! x) → out ≠ x else out = x) ∧ is_Some (h !! x).
Proof.
  intros H.
  destruct (write_inv h h' x out copy
              (λ a, Ok (map (map (λ v, if test v then value else v)) a)))
    as (Hframe & Hout & a & a' & Hx & _); [exact H|].
  split; [done|]. split; [done|]. by exists a.
Qed.

Lemma balancer_leaves_input (h : store) x max_iter ignore_diags tol :
  leaves_unchanged x h (iterative_correction_symmetric_ref h x max_iter ignore_diags tol).
Proof.
  intros h' v. unfold iterative_correction_symmetric_ref.
  destruct (np_copy h x) as [[h1 l]|e] eqn:Hcopy; [|done].
  cbn [mbind result_bind].
  pose proof Hcopy as (a & Hx & Hl & ->)%np_copy_inv.
  destruct (deref _ l) as [a0|e]; [|done]. cbn [mbind result_bind].
  destruct (ic_core a0 _ _ _) as [st|e]; [|done]. cbn [mbind result_bind].
  destruct (ic_finish st) as [[corrected totalBias] report].
  set (h2 := <[l := ic_x st]> (<[l := a]> h)).
  destruct (alloc_spec h2 corrected) as [-> Hfresh].
  intros [= <- <-].
  assert (l ≠ x) by (intros ->; congruence).
  assert (h2 !! x = h !! x) as Hx2
    by (unfold h2; by rewrite !lookup_insert_ne).
  rewrite lookup_insert_ne; [done|]. intros E. rewrite E in Hfresh. congruence.
Qed.

Lemma normaliser_leaves_input rl (h : store) x mask ratio :
  leaves_unchanged x h (observed_over_expected_ref rl h x mask ratio).
Proof.
  intros h' v. unfold observed_over_expected_ref.
  destruct (np_copy h x) as [[h1 l]|e] eqn:Hcopy; [|done].
  cbn [mbind result_bind].
  pose proof Hcopy as (a & Hx & Hl & ->)%np_copy_inv.
  destruct (deref _ l) as [a0|e]; [|done]. cbn [mbind result_bind].
  destruct (observed_over_expected rl a0 mask ratio) as [[[[a' bins] sums] counts]|e];
    [|done].
  cbn [mbind result_bind]. intros [= <- <-].
  assert (l ≠ x) by (intros ->; congruence).
  by rewrite !lookup_insert_ne.
Qed.

Lemma insul_diamond_leaves_input (h : store) x window ignore_diags :
  leaves_unchanged x h (insul_diamond h x window ignore_diags).
Proof.
  intros h' v. unfold insul_diamond. case_bool_decide as Hig.
  - destruct (np_copy h x) as [[h1 l]|e] eqn:Hcopy; [|done].
    cbn [mbind result_bind].
    destruct (np_copy_frame h h1 x l x Hcopy) as [Hne Hx1].
    { apply np_copy_inv in Hcopy as (a & -> & _). by eexists. }
    destruct (for_each _ _ (h1, l)) as [[h2 l2]|e] eqn:Hloop; [|done].
    cbn [mbind result_bind].
    assert (l2 = l ∧ h2 !! x = h !! x) as [-> Hx2].
    { apply (for_each_inv_ok (λ s : store * nat, s.2 = l ∧ s.1 !! x = h !! x))
        in Hloop; [done|by split|].
      intros i [hs ls] [hs' ls'] [Hl Hs] Hstep. simpl in *. subst ls.
      apply set_diag_inv in Hstep as (Hframe & -> & _). split; [done|].
      rewrite Hframe; [done|done|]. rewrite Hs.
      apply np_copy_inv in Hcopy as (a & -> & _). by eexists. }
    destruct (deref h2 l) as [a|e]; [|done]. cbn [mbind result_bind].
    by intros [= <- <-].
  - cbn [mbind result_bind]. destruct (deref h x) as [a|e]; [|done].
    cbn [mbind result_bind]. by intros [= <- <-].
Qed.

(** C9, as the code has it.  With no copy argument given, the balancer,
    the normaliser, the insulation scorer, [fill_diagonal], [fill_na],
    [fill_inf] and [fill_nainf] work on a copy and leave the buffer of
    their argument as it was, and so do [get_diag], which only reads, and
    [set_diag] when called with [copy=True]; [set_diag] without a copy
    argument ([copy=False] is its default) writes the diagonal into the
    buffer it was given and returns that same array. *)
Theorem C9_copies_except_set_diag rl (h : store) (x : nat) :
  (∀ max_iter ignore_diags tol,
     leaves_unchanged x h (iterative_correction_symmetric_ref h x max_iter ignore_diags tol)) ∧
  (∀ mask ratio, leaves_unchanged x h (observed_over_expected_ref rl h x mask ratio)) ∧
  (∀ window ignore_diags, leaves_unchanged x h (insul_diamond h x window ignore_diags)) ∧
  (∀ i, leaves_unchanged x h (get_diag h x i)) ∧
  (∀ values k wrap, leaves_unchanged x h (fill_diagonal h x values k wrap fill_copy_default)) ∧
  (∀ value, leaves_unchanged x h (fill_na h x value fill_copy_default)) ∧
  (∀ pos neg, leaves_unchanged x h (fill_inf h x pos neg fill_copy_default)) ∧
  (∀ value, leaves_unchanged x h (fill_nainf h x value fill_copy_default)) ∧
  (∀ v i, leaves_unchanged x h (set_diag h x v i true)) ∧
  (∀ v i h' out,
     set_diag h x v i set_diag_copy_default = Ok (h', out) →
     out = x ∧
     ∃ a a', h !! x = Some a ∧ flat_assign a (diag_positions a i) v = Ok a' ∧
             h' !! x = Some a').
Proof.
  repeat apply conj.
  - intros. apply balancer_leaves_input.
  - intros. apply normaliser_leaves_input.
  - intros. apply insul_diamond_leaves_input.
  - intros i h' v. unfold get_diag. destruct (deref h x); [|done].
    cbn [mbind result_bind]. by intros [= <- <-].
  - intros values k wrap h' out Hr.
    apply write_inv in Hr as (Hframe & Hout & a & _ & Hx & _).
    apply Hframe; [|by eexists]. apply not_eq_sym, Hout. by eexists.
  - intros value h' out Hr.
    apply fill_where_inv in Hr as (Hframe & Hout & Hx).
    apply Hframe; [|done]. by apply not_eq_sym, Hout.
  - intros pos neg h' out. unfold fill_inf.
    destruct (fill_where is_posinf pos h x fill_copy_default) as [[h1 l]|e] eqn:H1;
      [|done].
    cbn [mbind result_bind]. intros H2.
    apply fill_where_inv in H1 as (Hframe1 & Hout1 & Hx).
    apply fill_where_inv in H2 as (Hframe2 & -> & _).
    specialize (Hout1 Hx).
    assert (h1 !! x = h !! x) as Hx1 by (apply Hframe1; [by apply not_eq_sym|done]).
    rewrite Hframe2; [done|by apply not_eq_sym|by rewrite Hx1].
  - intros value h' out Hr.
    apply fill_where_inv in Hr as (Hframe & Hout & Hx).
    apply Hframe; [|done]. by apply not_eq_sym, Hout.
  - intros v i h' out Hr.
    apply set_diag_inv in Hr as (Hframe & Hout & a & _ & Hx & _).
    apply Hframe; [|by eexists]. apply not_eq_sym, Hout. by eexists.
  - intros v i h' out Hr.
    apply set_diag_inv in Hr as (_ & -> & a & a' & Hx & Hf & Hout).
    split; [done|]. by exists a, a'.
Qed.

(** C9, as stated, fails for [set_diag]: called on a 3 x 3 matrix of ones
    with no [copy] argument, and the value NaN, it returns the array it was
    given, whose main diagonal is now NaN. *)
Lemma C9_counterexample_set_diag_in_place :
  ∃ h',
    set_diag {[ 0%nat := ones3 ]} 0 (Scalar NaN) set_diag_i_default set_diag_copy_default
    = Ok (h', 0%nat) ∧
    h' !! 0%nat = Some [[NaN; f1; f1]; [f1; NaN; f1]; [f1; f1; NaN]] ∧
    h' !! 0%nat ≠ ({[ 0%nat := ones3 ]} : store) !! 0%nat.
Proof. eexists. split; [reflexivity|]. split; [reflexivity|]. by vm_compute. Qed.

(** ** The statements at concrete inputs *)

Lemma shape_ones2 : shape 2 2 ones2.
Proof. split; [reflexivity|repeat constructor]. Defined.

Lemma shape_decay4 : shape 4 4 decay4.
Proof. split; [reflexivity|repeat constructor]. Defined.

Lemma C1_witness :
  ∃ c r,
    getitem_cr (C_ex, R_ex) (Z.of_nat 2) (Z.of_nat 4) (Z.of_nat 0) (Z.of_nat 2) = (c, r) ∧
    length c = (4 - 2)%nat ∧ length r = (2 - 0)%nat ∧
    getitem (C_ex, R_ex) (Z.of_nat 2) (Z.of_nat 4) (Z.of_nat 0) (Z.of_nat 2)
    = submatrix (full_matrix C_ex R_ex)
                (Z.of_nat 2) (Z.of_nat 4) (Z.of_nat 0) (Z.of_nat 2).
Proof.
  apply (proj1 C1_getitem_is_block_of_full_matrix C_ex R_ex (C_ex, R_ex)
           2%nat 4%nat 0%nat 2%nat).
  - vm_compute. reflexivity.
  - cbn. lia.
  - cbn. lia.
  - cbn. lia.
  - cbn. lia.
Defined.

Lemma C3_witness :
  shape 2 2 zeros2 ∧ zero_rows (zeroed_diags 0 zeros2) ∧
  ∃ rep,
    iterative_correction_symmetric zeros2 10 0 tol_default
    = Ok (replicate 2 (replicate 2 NaN), replicate 2 NaN, rep).
Proof.
  assert (shape 2 2 zeros2) as Hsh by (split; [reflexivity|repeat constructor]).
  assert (zero_rows (zeroed_diags 0 zeros2)) as Hz.
  { repeat (constructor; [vm_compute; reflexivity|]). constructor. }
  split; [exact Hsh|]. split; [exact Hz|].
  exact (C3_zero_rows_return_nan 2 zeros2 10 0 tol_default Hsh Hz).
Defined.

Lemma C4_witness :
  ic_wf 2 ones2_state ∧
  ic_body 2 0 ones2_state
  = Ok (spec_iteration 0 ones2_state, fvar (spec_factors (ic_x ones2_state))) ∧
  ic_loop 2 tol_default [0%nat] ones2_state =
    (if fltb f0 tol_default && fltb (fvar (spec_factors (ic_x ones2_state))) tol_default
     then Ok (ic_stop (spec_iteration 0 ones2_state))
     else ic_loop 2 tol_default [] (spec_iteration 0 ones2_state)).
Proof.
  assert (ic_wf 2 ones2_state) as Hwf.
  { split; [split; [reflexivity|repeat constructor]|reflexivity]. }
  split; [exact Hwf|].
  exact (C4_iteration_as_specified 2 tol_default 0 [] ones2_state Hwf).
Defined.



Lemma logbins_1_4 : logbins points_1_4 1 4 ratio_two = Ok [1; 4]%nat.
Proof. vm_compute. reflexivity. Defined.



Lemma symmetric_ones2 : symmetric ones2.
Proof. intros [|[|i]] [|[|j]]; reflexivity. Defined.

Lemma C7_witness :
  shape 2 2 ones2 ∧ symmetric ones2 ∧
  ∃ X B rep,
    iterative_correction_symmetric ones2 10 0 tol_default = Ok (X, B, rep) ∧
    symmetric X.
Proof.
  split; [exact shape_ones2|]. split; [exact symmetric_ones2|].
  exact (C7_balanced_matrix_symmetric 2 ones2 10 0 tol_default
           shape_ones2 symmetric_ones2).
Defined.

Lemma shape_mask4 : (0 < size2 mask4)%nat → shape 4 4 mask4.
Proof. intros _. split; [reflexivity|repeat constructor]. Defined.

Lemma C8_witness :
  ∃ data sums counts,
    observed_over_expected points_1_4 decay4 (Mask2D mask4) ratio_two
    = Ok (data, [0; 1; 4]%nat, sums, counts) ∧
    counts !! 0%nat = Some 4%nat ∧ sums !! 0%nat = Some f0 ∧
    ∀ i, look2 data i i = look2 decay4 i i.
Proof.
  destruct (C8_degenerate_bin_left_untouched points_1_4 4 decay4 (Mask2D mask4) mask4
              ratio_two [1; 4]%nat shape_decay4 eq_refl shape_mask4 logbins_1_4)
    as (data & sums & counts & Hrun & Hbins).
  assert ((0%nat, (0%nat, 1%nat)) ∈ oe_bins [0; 1; 4]%nat) as Hin
    by (vm_compute; left).
  destruct (Hbins 0%nat 0%nat 1%nat Hin) as (Hc & Hs & Hd).
  exists data, sums, counts. split; [exact Hrun|].
  split; [exact Hc|]. split; [exact Hs|].
  intros i. apply Hd; [right; vm_compute; reflexivity|]. unfold dist. lia.
Defined.

Lemma C9_witness :
  (∃ h' out,
     iterative_correction_symmetric_ref {[ 0%nat := ones2 ]} 0 10 0 tol_default
     = Ok (h', out) ∧
     h' !! 0%nat = ({[ 0%nat := ones2 ]} : store) !! 0%nat) ∧
  (∃ h' score,
     insul_diamond {[ 0%nat := ones3 ]} 0 1 1 = Ok (h', score) ∧
     h' !! 0%nat = ({[ 0%nat := ones3 ]} : store) !! 0%nat) ∧
  (∃ h',
     set_diag {[ 0%nat := ones3 ]} 0 (Scalar NaN) 0 true = Ok (h', 1%nat) ∧
     h' !! 0%nat = ({[ 0%nat := ones3 ]} : store) !! 0%nat).
Proof.
  split; [|split].
  - eexists _, _. split; [vm_compute; reflexivity|].
    eapply (proj1 (C9_copies_except_set_diag points_1_4 {[ 0%nat := ones2 ]} 0%nat)
             10%nat 0%nat tol_default _ _).
    vm_compute. reflexivity.
  - eexists _, _. split; [vm_compute; reflexivity|].
    eapply (proj1 (proj2 (proj2
             (C9_copies_except_set_diag points_1_4 {[ 0%nat := ones3 ]} 0%nat)))
             1%nat 1%Z _ _).
    vm_compute. reflexivity.
  - eexists. split; [vm_compute; reflexivity|].
    eapply (proj1 (proj2 (proj2 (proj2 (proj2 (proj2 (proj2 (proj2 (proj2
             (C9_copies_except_set_diag points_1_4 {[ 0%nat := ones3 ]} 0%nat)))))))))
             (Scalar NaN) 0%Z _ 1%nat).
    vm_compute. reflexivity.
Defined.

Lemma C10_witness :
  let valid := valid_px (0 <? size2 mask4)%nat mask4 in
  (∃ data sums counts,
    observed_over_expected points_1_4 decay4 (Mask2D mask4) ratio_two
    = Ok (data, [0; 1; 4]%nat, sums, counts) ∧
    ∀ b lo hi, (b, (lo, hi)) ∈ oe_bins [0; 1; 4]%nat →
      let pixels := List.filter (λ c, valid c.1 c.2) (cells 4 lo hi) in
      let mean := bin_mean 4 valid decay4 lo hi in
      NoDup (cells 4 lo hi) ∧
      sums !! b = Some (fsum (map (λ c, ent decay4 (c.1 + c.2) c.2) pixels)) ∧
      counts !! b = Some (length pixels) ∧
      (pixels ≠ [] → feqb mean f0 = false →
       ∀ d i, (lo ≤ d < hi)%nat → (i + d < 4)%nat →
         look2 data (i + d) i
           = Some (if valid d i then fdiv (ent decay4 (i + d) i) mean
                   else ent decay4 (i + d) i) ∧
         look2 data i (i + d)
           = Some (if valid d i then fdiv (ent decay4 i (i + d)) mean
                   else ent decay4 i (i + d)))) ∧
  (∀ mask2d',
     (0 < size2 mask4)%nat → shape 4 4 mask2d' →
     (∀ i j, (j ≤ i)%nat → look2 mask2d' i j = look2 mask4 i j) →
     observed_over_expected points_1_4 decay4 (Mask2D mask2d') ratio_two
     = observed_over_expected points_1_4 decay4 (Mask2D mask4) ratio_two).
Proof.
  exact (C10_lower_triangle_decides points_1_4 4 decay4 (Mask2D mask4) mask4
           ratio_two [1; 4]%nat shape_decay4 eq_refl shape_mask4 logbins_1_4).
Defined.

(** ** The balancer without a tolerance *)

Lemma ic_run_all_iterations tol its st :
  fltb f0 tol = false →
  ic_converged (ic_run tol its st) = ic_converged st ∧
  ic_iternum (ic_run tol its st) = default (ic_iternum st) (last its).
Proof.
  intros Htol. revert st. induction its as [|it its IH]; intros st; [done|].
  cbn [ic_run]. destruct (ic_step it st) as [st' crit] eqn:E.
  rewrite Htol. cbn [andb].
  assert (st' = (ic_step it st).1) as -> by by rewrite E.
  destruct (IH (ic_step it st).1) as [-> ->]. split; [done|].
  rewrite last_cons. by destruct (last its).
Qed.

Lemma last_seq n : last (seq 0 n) = if (n =? 0)%nat then None else Some (n - 1)%nat.
Proof.
  destruct n as [|n]; [done|].
  rewrite seq_S, last_snoc. simpl. f_equal. lia.
Qed.

(** X1. With a tolerance that is not positive (zero, negative or NaN) the
    balancer never stops early on a square matrix: it reports
    [converged = False] and the index of the last of the [max_iter]
    iterations. *)
Theorem balancer_without_tolerance_runs_all_iterations N x max_iter ignore_diags tol :
  shape N N x → fltb f0 tol = false →
  ∃ X B,
    iterative_correction_symmetric x max_iter ignore_diags tol
    = Ok (X, B, IcReport false (max_iter - 1)).
Proof.
  intros Hx Htol.
  rewrite (iterative_correction_symmetric_ok N) by done.
  destruct (ic_run_all_iterations tol (seq 0 max_iter) (ic_init N ignore_diags x) Htol)
    as [Hc Hi].
  unfold ic_finish. rewrite Hc, Hi, last_seq. cbn [ic_init ic_converged ic_iternum].
  do 2 eexists. do 2 f_equal.
  destruct max_iter; simpl; f_equal; lia.
Qed.

Lemma shape_counts3 : shape 3 3 counts3.
Proof. split; [done|]. by repeat constructor. Qed.

Lemma X1_witness :
  shape 3 3 counts3 ∧ fltb f0 f0 = false ∧
  ∃ X B,
    iterative_correction_symmetric counts3 5 0 f0 = Ok (X, B, IcReport false (5 - 1)).
Proof.
  split; [apply shape_counts3|]. split; [done|].
  apply (balancer_without_tolerance_runs_all_iterations 3 counts3 5 0 f0);
    [apply shape_counts3|done].
Defined.

(** ** The factors of one iteration *)



Lemma look2_lt {A} n k (a : list (list A)) i j v :
  shape n k a → look2 a i j = Some v → (i < n)%nat ∧ (j < k)%nat.
Proof.
  intros [Hn Hk] Hv. unfold look2 in Hv.
  destruct (a !! i) as [row|] eqn:E; [|done]. simpl in Hv.
  split.
  - rewrite <-Hn. by eapply lookup_lt_Some.
  - rewrite Forall_lookup in Hk. rewrite <-(Hk i row E). by eapply lookup_lt_Some.
Qed.


(** ** More on [logbins] and the normaliser *)

Lemma sorted_edges_ok l lo hi :
  (first ← getV (sort_unique l) 0;
   _ ← py_assert (first =? lo)%nat;
   final ← get_last (sort_unique l);
   _ ← py_assert (final =? hi)%nat;
   Ok ()) = Ok () →
  Sorted lt (sort_unique l) ∧ head (sort_unique l) = Some lo ∧
  last (sort_unique l) = Some hi.
Proof.
  intros H. split; [apply Sorted_sort_unique|].
  unfold getV in H. rewrite <-head_lookup in H.
  destruct (head (sort_unique l)) as [d0|]; [|done].
  cbn [mbind result_bind] in H.
  destruct (Nat.eqb_spec d0 lo) as [E|]; [|done].
  cbn [py_assert mbind result_bind] in H. unfold get_last in H.
  destruct (last (sort_unique l)) as [final|]; [|done].
  cbn [mbind result_bind] in H.
  destruct (Nat.eqb_spec final hi) as [E'|]; [|done]. by subst.
Qed.

(** X5. [logbins] raises [ValueError] when both [ratio] and [N] are given
    and when neither is; with [N] and [prepend_zero] left out (and
    [lo != 0]) it is the function the normaliser calls; and whenever it
    returns, the edges (after the optional leading 0) are strictly
    increasing, begin with [lo] and end with [hi]. *)
Theorem logbins_edges rl rn lo hi ratio N prepend_zero :
  (feqb ratio f0 = false → N ≠ 0%nat →
   logbins_full rl rn lo hi ratio N prepend_zero = Raise ValueError) ∧
  (feqb ratio f0 = true → N = 0%nat →
   logbins_full rl rn lo hi ratio N prepend_zero = Raise ValueError) ∧
  (lo ≠ 0%nat → logbins_full rl rn lo hi ratio 0 false = logbins rl lo hi ratio) ∧
  (∀ edges,
     logbins_full rl rn lo hi ratio N prepend_zero = Ok edges →
     ∃ data10,
       edges = (if prepend_zero then 0%nat :: data10 else data10) ∧
       Sorted lt data10 ∧ head data10 = Some lo ∧ last data10 = Some hi).
Proof.
  split; [|split; [|split]].
  - intros E HN. unfold logbins_full. rewrite E. cbn [negb].
    by destruct (Nat.eqb_spec N 0).
  - intros E ->. unfold logbins_full. by rewrite E.
  - intros Hlo. unfold logbins_full, logbins.
    destruct (feqb ratio f0); [done|]. cbn [negb Nat.eqb].
    destruct (Nat.eqb_spec lo 0); [done|]. cbn [mbind result_bind].
    destruct (getV _ _) as [d0|]; [|done]. cbn [mbind result_bind].
    destruct (py_assert _) as [[]|]; [|done]. cbn [mbind result_bind].
    destruct (get_last _) as [final|]; [|done]. cbn [mbind result_bind].
    by destruct (py_assert _) as [[]|].
  - intros edges. unfold logbins_full.
    set (points := if negb (feqb ratio f0) then _ else _).
    destruct points as [l|]; [|done]. cbn [mbind result_bind].
    intros H. exists (sort_unique l).
    destruct (getV (sort_unique l) 0) as [d0|] eqn:E1; [|done].
    cbn [mbind result_bind] in H.
    destruct (py_assert (d0 =? lo)%nat) as [[]|] eqn:E2; [|done].
    cbn [mbind result_bind] in H.
    destruct (get_last (sort_unique l)) as [final|] eqn:E3; [|done].
    cbn [mbind result_bind] in H.
    destruct (py_assert (final =? hi)%nat) as [[]|] eqn:E4; [|done].
    cbn [mbind result_bind] in H. injection H as <-. split; [done|].
    apply sorted_edges_ok.
    rewrite E1. cbn [mbind result_bind]. rewrite E2. cbn [mbind result_bind].
    rewrite E3. cbn [mbind result_bind]. by rewrite E4.
Qed.

Lemma X5_witness :
  logbins_full points_1_4 (λ _ _ _, []) 1 4 ratio_two 0 true = Ok [0; 1; 4]%nat ∧
  ∃ data10,
    [0; 1; 4]%nat = 0%nat :: data10 ∧
    Sorted lt data10 ∧ head data10 = Some 1%nat ∧ last data10 = Some 4%nat.
Proof.
  split; [by vm_compute|].
  apply (proj2 (proj2 (proj2
           (logbins_edges points_1_4 (λ _ _ _, []) 1 4 ratio_two 0 true)))
           [0; 1; 4]%nat).
  by vm_compute.
Defined.

(** *** The bins cover every diagonal once *)

Lemma elem_of_oe_bins db b lo hi :
  (b, (lo, hi)) ∈ oe_bins db ↔ db !! b = Some lo ∧ db !! S b = Some hi.
Proof.
  unfold oe_bins. rewrite list_elem_of_lookup. split.
  - intros (k & Hk). apply lookup_zip_Some in Hk as [E1 Hk].
    apply lookup_zip_Some in Hk as [E2 E3].
    apply lookup_seq in E1 as [E1 Hlt]. simpl in E1. subst k.
    rewrite lookup_take_lt in E2 by done. by rewrite lookup_drop in E3.
  - intros [Hlo Hhi]. exists b. apply lookup_lt_Some in Hhi as Hlt.
    apply lookup_zip_Some. split; [apply lookup_seq; lia|].
    apply lookup_zip_Some. split; [by rewrite lookup_take_lt by lia|].
    by rewrite lookup_drop.
Qed.

Lemma edges_cover db a b d :
  head db = Some a → last db = Some b → (a ≤ d < b)%nat →
  ∃ k lo hi, db !! k = Some lo ∧ db !! S k = Some hi ∧ (lo ≤ d < hi)%nat.
Proof.
  revert a. induction db as [|x db IH]; intros a Hhd Hlast Hd; [done|].
  injection Hhd as ->. destruct db as [|y db].
  { injection Hlast as ->. lia. }
  destruct (decide (d < y)%nat) as [Hy|Hy].
  - exists 0%nat, a, y. repeat split; (done || lia).
  - destruct (IH y) as (k & lo & hi & Hlo & Hhi & Hin); [done|done|lia|].
    by exists (S k), lo, hi.
Qed.

Lemma sorted_lookup_lt db i j a b :
  Sorted lt db → db !! i = Some a → db !! j = Some b → (i < j)%nat → (a < b)%nat.
Proof.
  intros Hs%Sorted_StronglySorted; [|apply _].
  revert i j. induction Hs as [|x db Hs IH Hall]; intros i j Hi Hj Hlt; [done|].
  destruct j as [|j]; [lia|]. destruct i as [|i].
  - injection Hi as ->. rewrite Forall_lookup in Hall. by apply (Hall j).
  - apply (IH i j); (done || lia).
Qed.

Lemma sorted_lookup_le db i j a b :
  Sorted lt db → db !! i = Some a → db !! j = Some b → (i ≤ j)%nat → (a ≤ b)%nat.
Proof.
  intros Hs Hi Hj Hle. destruct (decide (i = j)) as [->|].
  - simplify_eq. lia.
  - apply Nat.lt_le_incl. apply (sorted_lookup_lt db i j); (done || lia).
Qed.

Lemma oe_bins_disjoint db b lo hi b' lo' hi' d :
  Sorted lt db →
  (b, (lo, hi)) ∈ oe_bins db → (b', (lo', hi')) ∈ oe_bins db →
  (lo ≤ d < hi)%nat → (lo' ≤ d < hi')%nat →
  (b, (lo, hi)) = (b', (lo', hi')).
Proof.
  intros Hs [H1 H2]%elem_of_oe_bins [H1' H2']%elem_of_oe_bins Hd Hd'.
  destruct (lt_eq_lt_dec b b') as [[Hlt | ->] | Hlt].
  - pose proof (sorted_lookup_le db (S b) b' hi lo' Hs H2 H1'). lia.
  - by simplify_eq.
  - pose proof (sorted_lookup_le db (S b') b hi' lo Hs H2' H1). lia.
Qed.

Lemma shape_bin_out_any N valid data lo hi :
  shape N N data → shape N N (bin_out N valid data lo hi).
Proof.
  intros Hsh. unfold bin_out. destruct (bin_normalised _ _ _ _ _); [|done].
  by apply shape_mat_imap.
Qed.

Lemma shape_oe_fold N valid bins data n_arr s_arr :
  shape N N data →
  shape N N (foldl (oe_bin_pure N valid) (data, n_arr, s_arr) bins).1.1.
Proof.
  revert data n_arr s_arr. induction bins as [|[idx [lo hi]] bins IH];
    intros data n_arr s_arr Hsh; [done|].
  cbn [foldl oe_bin_pure]. by apply IH, shape_bin_out_any.
Qed.

Lemma dist_lt N i j : (i < N)%nat → (j < N)%nat → (dist i j < N)%nat.
Proof. unfold dist. lia. Qed.

Lemma oe_bins_cover rl N ratio edges d :
  logbins rl 1 N ratio = Ok edges → (d < N)%nat →
  ∃ b lo hi, (b, (lo, hi)) ∈ oe_bins (0%nat :: edges) ∧ (lo ≤ d < hi)%nat.
Proof.
  intros Hlog Hd. destruct (logbins_ok _ _ _ _ _ Hlog) as (Hsorted & Hhd & Hlast).
  destruct (edges_cover (0%nat :: edges) 0 N d) as (k & lo & hi & Hlo & Hhi & Hin).
  - done.
  - destruct edges as [|e es]; [done|]. by rewrite last_cons, Hlast.
  - lia.
  - exists k, lo, hi. split; [by apply elem_of_oe_bins|done].
Qed.

(** X6. The distance bins of the normaliser cover every diagonal of a
    square matrix exactly once: the returned array has the shape of the
    input, there is one sum and one count per bin, every pixel [(i, j)]
    lies in a bin [lo <= |i - j| < hi] and holds what normalising that bin
    alone on the input gives, and no offset lies in two bins. *)
Theorem normaliser_divides_each_pixel_by_its_bin rl N x mask mask2d ratio edges :
  shape N N x →
  oe_mask2d mask = Ok mask2d →
  ((0 < size2 mask2d)%nat → shape N N mask2d) →
  logbins rl 1 N ratio = Ok edges →
  let valid := valid_px (0 <? size2 mask2d)%nat mask2d in
  let bins := oe_bins (0%nat :: edges) in
  ∃ data sums counts,
    observed_over_expected rl x mask ratio = Ok (data, 0%nat :: edges, sums, counts) ∧
    shape N N data ∧ length sums = length edges ∧ length counts = length edges ∧
    (∀ i j, (i < N)%nat → (j < N)%nat →
       ∃ b lo hi, (b, (lo, hi)) ∈ bins ∧ (lo ≤ dist i j < hi)%nat ∧
                  look2 data i j = look2 (bin_out N valid x lo hi) i j) ∧
    (∀ b lo hi b' lo' hi' d,
       (b, (lo, hi)) ∈ bins → (b', (lo', hi')) ∈ bins →
       (lo ≤ d < hi)%nat → (lo' ≤ d < hi')%nat →
       (b, (lo, hi)) = (b', (lo', hi'))).
Proof.
  intros Hsh Hmask Hm2 Hlog valid bins.
  destruct (observed_over_expected_spec rl N x mask mask2d ratio edges Hsh Hmask Hm2 Hlog)
    as (data & sums & counts & Hrun & Hfold & Hbins).
  destruct (logbins_ok _ _ _ _ _ Hlog) as (Hsorted & Hhd & Hlast).
  assert (Sorted lt (0%nat :: edges)) as Hs0.
  { constructor; [done|]. destruct edges as [|e es]; simplify_eq/=. constructor. lia. }
  exists data, sums, counts. split; [done|]. split; [|split; [|split; [|split]]].
  - pose proof (shape_oe_fold N valid (oe_bins (0%nat :: edges)) x
                  (replicate (length edges) 0%nat) (replicate (length edges) f0) Hsh) as H.
    fold valid in Hfold. by rewrite Hfold in H.
  - destruct (oe_fold_spec N valid (oe_bins (0%nat :: edges)) 0 0 x
                (replicate (length edges) 0%nat) (replicate (length edges) f0))
      as (d' & n' & s' & E & Hn & Hs' & _).
    + by apply oe_bins_chain.
    + eapply Forall_impl; [apply oe_bins_idx|]. intros [? [? ?]]. simpl.
      rewrite !length_replicate. lia.
    + fold valid in Hfold. rewrite Hfold in E. simplify_eq.
      by rewrite Hs', length_replicate.
  - destruct (oe_fold_spec N valid (oe_bins (0%nat :: edges)) 0 0 x
                (replicate (length edges) 0%nat) (replicate (length edges) f0))
      as (d' & n' & s' & E & Hn & Hs' & _).
    + by apply oe_bins_chain.
    + eapply Forall_impl; [apply oe_bins_idx|]. intros [? [? ?]]. simpl.
      rewrite !length_replicate. lia.
    + fold valid in Hfold. rewrite Hfold in E. simplify_eq.
      by rewrite Hn, length_replicate.
  - intros i j Hi Hj.
    destruct (oe_bins_cover rl N ratio edges (dist i j) Hlog (dist_lt N i j Hi Hj))
      as (k & lo & hi & Hin & Hd).
    exists k, lo, hi. split; [done|]. split; [done|].
    by apply (Hbins k lo hi Hin).
  - intros b lo hi b' lo' hi' d. by apply oe_bins_disjoint.
Qed.

(** *** Symmetry *)

Lemma bin_touches_sym valid lo hi a b :
  bin_touches valid lo hi a b = bin_touches valid lo hi b a.
Proof. unfold bin_touches. by rewrite (dist_sym a b), (Nat.min_comm a b). Qed.

Lemma symmetric_bin_out N valid x lo hi :
  symmetric x → symmetric (bin_out N valid x lo hi).
Proof.
  intros Hx. unfold bin_out. destruct (bin_normalised _ _ _ _ _); [|done].
  intros a b. by rewrite !look2_divided, (bin_touches_sym valid lo hi a b), (Hx a b).
Qed.

Lemma look2_outside {A} n k (a : list (list A)) i j :
  shape n k a → (n ≤ i)%nat ∨ (k ≤ j)%nat → look2 a i j = None.
Proof.
  intros Hsh Hout. destruct (look2 a i j) as [v|] eqn:E; [|done].
  destruct (look2_lt _ _ _ _ _ _ Hsh E). lia.
Qed.

(** X7. The normaliser maps a symmetric square matrix to a symmetric
    matrix, whatever the mask (which is read in the lower triangle
    only). *)
Theorem normaliser_keeps_symmetry rl N x mask mask2d ratio edges :
  shape N N x →
  oe_mask2d mask = Ok mask2d →
  ((0 < size2 mask2d)%nat → shape N N mask2d) →
  logbins rl 1 N ratio = Ok edges →
  symmetric x →
  ∃ data sums counts,
    observed_over_expected rl x mask ratio = Ok (data, 0%nat :: edges, sums, counts) ∧
    symmetric data.
Proof.
  intros Hsh Hmask Hm2 Hlog Hsym.
  destruct (observed_over_expected_spec rl N x mask mask2d ratio edges Hsh Hmask Hm2 Hlog)
    as (data & sums & counts & Hrun & Hfold & Hbins).
  exists data, sums, counts. split; [done|].
  set (valid := valid_px (0 <? size2 mask2d)%nat mask2d) in *.
  assert (shape N N data) as Hshd.
  { pose proof (shape_oe_fold N valid (oe_bins (0%nat :: edges)) x
                  (replicate (length edges) 0%nat) (replicate (length edges) f0) Hsh) as H.
    by rewrite Hfold in H. }
  intros i j.
  destruct (decide (i < N ∧ j < N)%nat) as [[Hi Hj]|Hout].
  - destruct (oe_bins_cover rl N ratio edges (dist i j) Hlog (dist_lt N i j Hi Hj))
      as (k & lo & hi & Hin & Hd).
    destruct (Hbins k lo hi Hin) as (_ & _ & Hpix).
    rewrite (Hpix i j), (Hpix j i) by (rewrite ?(dist_sym j i); done).
    by apply symmetric_bin_out.
  - rewrite !(look2_outside N N) by (done || lia). done.
Qed.

(** *** The normaliser at concrete inputs *)

Lemma symmetric_decay4 : symmetric decay4.
Proof. intros [|[|[|[|i]]]] [|[|[|[|j]]]]; reflexivity. Qed.

Lemma no_mask_shape N : (0 < size2 (@nil (list bool)))%nat → shape N N (@nil (list bool)).
Proof. unfold size2. simpl. lia. Qed.

Lemma X6_witness :
  shape 4 4 decay4 ∧ oe_mask2d mask_default = Ok [] ∧
  logbins points_1_4 1 4 ratio_two = Ok [1; 4]%nat ∧
  ∃ data sums counts,
    observed_over_expected points_1_4 decay4 mask_default ratio_two
    = Ok (data, [0; 1; 4]%nat, sums, counts) ∧
    shape 4 4 data ∧ length sums = 2%nat ∧ length counts = 2%nat ∧
    ∃ b lo hi, (b, (lo, hi)) ∈ oe_bins [0; 1; 4]%nat ∧ (lo ≤ dist 3 1 < hi)%nat ∧
               look2 data 3 1 = look2 (bin_out 4 all_valid decay4 lo hi) 3 1.
Proof.
  split; [exact shape_decay4|]. split; [reflexivity|]. split; [exact logbins_1_4|].
  destruct (normaliser_divides_each_pixel_by_its_bin points_1_4 4 decay4 mask_default []
              ratio_two [1; 4]%nat shape_decay4 eq_refl (no_mask_shape 4) logbins_1_4)
    as (data & sums & counts & Hrun & Hsh & Hs & Hc & Hpix & _).
  exists data, sums, counts. split; [exact Hrun|]. split; [exact Hsh|].
  split; [exact Hs|]. split; [exact Hc|].
  apply (Hpix 3%nat 1%nat); lia.
Defined.

Lemma X7_witness :
  shape 4 4 decay4 ∧ oe_mask2d (Mask2D mask4) = Ok mask4 ∧
  logbins points_1_4 1 4 ratio_two = Ok [1; 4]%nat ∧ symmetric decay4 ∧
  ∃ data sums counts,
    observed_over_expected points_1_4 decay4 (Mask2D mask4) ratio_two
    = Ok (data, [0; 1; 4]%nat, sums, counts) ∧
    symmetric data.
Proof.
  split; [exact shape_decay4|]. split; [reflexivity|]. split; [exact logbins_1_4|].
  split; [exact symmetric_decay4|].
  exact (normaliser_keeps_symmetry points_1_4 4 decay4 (Mask2D mask4) mask4
           ratio_two [1; 4]%nat shape_decay4 eq_refl shape_mask4 logbins_1_4
           symmetric_decay4).
Defined.

(** ** The diagonal utilities on square matrices *)

Lemma length_stride_from lo step n : length (stride_from lo step n) = n.
Proof. revert lo. induction n as [|n IH]; intros lo; simpl; by rewrite ?IH. Qed.

Lemma lookup_stride_from lo step n k :
  (k < n)%nat → stride_from lo step n !! k = Some (lo + k * step)%nat.
Proof.
  revert lo k. induction n as [|n IH]; intros lo k Hk; [lia|].
  destruct k as [|k]; simpl; [f_equal; lia|].
  rewrite IH by lia. f_equal. lia.
Qed.

Lemma length_concat_shape {A} n k (a : list (list A)) :
  shape n k a → length (concat a) = (n * k)%nat.
Proof.
  intros [<- Hk]. induction Hk as [|row a Hrow Hk IH]; [done|].
  simpl. rewrite length_app, IH, Hrow. lia.
Qed.

Lemma lookup_concat_shape {A} n k (a : list (list A)) r c :
  shape n k a → (c < k)%nat → concat a !! (r * k + c)%nat = look2 a r c.
Proof.
  intros [_ Hk] Hc. revert r. induction Hk as [|row a Hrow Hk IH]; intros r.
  { by destruct r. }
  destruct r as [|r].
  - simpl. rewrite lookup_app_l by lia. done.
  - change (look2 (row :: a) (S r) c) with (look2 a r c).
    change (concat (row :: a)) with (row ++ concat a).
    rewrite lookup_app_r by lia. rewrite <-(IH r). f_equal. lia.
Qed.

Lemma unflatten_spec n k (a : matrix) (flat : vector) :
  shape n k a → length flat = (n * k)%nat →
  shape n k (unflatten a flat) ∧
  ∀ r c, (r < n)%nat → (c < k)%nat →
         look2 (unflatten a flat) r c = flat !! (r * k + c)%nat.
Proof.
  intros [<- Hk]. revert flat. induction Hk as [|row a Hrow Hk IH]; intros flat Hlen.
  { split; [done|]. intros r c Hr. simpl in Hr. lia. }
  simpl in Hlen. cbn [unflatten]. rewrite Hrow.
  destruct (IH (drop k flat)) as [[Hn Hrows] Hlook].
  { rewrite length_drop. lia. }
  split.
  - split; [simpl; by rewrite Hn|]. constructor; [|done].
    rewrite length_take. lia.
  - intros r c Hr Hc. destruct r as [|r].
    + unfold look2. simpl. by rewrite lookup_take_lt by lia.
    + change (look2 (?x :: ?l) (S r) c) with (look2 l r c).
      rewrite Hlook by (simpl in Hr; lia). rewrite lookup_drop. f_equal. lia.
Qed.

Lemma unflatten_concat n k (a : matrix) : shape n k a → unflatten a (concat a) = a.
Proof.
  intros [_ Hk]. induction Hk as [|row a Hrow Hk IH]; [done|].
  simpl. by rewrite take_app_length, drop_app_length, IH.
Qed.

(** The loop of [flat_assign] over positions at a fixed stride. *)
Lemma write_stride (f : nat → float) step n s lo (flat : vector) :
  (0 < step)%nat → (n = 0 ∨ lo + (n - 1) * step < length flat)%nat →
  let flat' := foldl (λ (flat : vector) (kp : nat * nat), <[kp.2 := f kp.1]> flat) flat
                     (zip (seq s n) (stride_from lo step n)) in
  length flat' = length flat ∧
  (∀ k, (k < n)%nat → flat' !! (lo + k * step)%nat = Some (f (s + k)%nat)) ∧
  (∀ p, (∀ k, (k < n)%nat → p ≠ (lo + k * step)%nat) → flat' !! p = flat !! p).
Proof.
  intros Hstep. revert s lo flat. induction n as [|n IH]; intros s lo flat Hin.
  { simpl. split; [done|]. split; [lia|done]. }
  cbn [seq stride_from zip_with foldl snd fst].
  destruct (IH (S s) (lo + step)%nat (<[lo := f s]> flat)) as (Hlen & Hon & Hoff).
  { rewrite length_insert. destruct n; [by left|right]. destruct Hin as [|Hin]; [done|].
    simpl in *. lia. }
  rewrite length_insert in Hlen.
  assert (lo < length flat)%nat as Hlo.
  { destruct Hin as [|Hin]; [done|]. simpl in Hin. lia. }
  split; [done|]. split.
  - intros k Hk. destruct k as [|k].
    + rewrite Nat.mul_0_l, !Nat.add_0_r. rewrite Hoff.
      * by rewrite list_lookup_insert_eq.
      * intros k _. nia.
    + replace (lo + S k * step)%nat with (lo + step + k * step)%nat by lia.
      rewrite Hon by lia. do 2 f_equal. lia.
  - intros p Hp. rewrite Hoff.
    + apply list_lookup_insert_ne. intros ->. apply (Hp 0%nat); lia.
    + intros k Hk ->. apply (Hp (S k)); lia.
Qed.

Lemma ncols_shape {n} (a : matrix) : shape n n a → ncols a = n.
Proof.
  intros [Hn Hk]. unfold ncols. destruct a as [|row a]; [done|].
  simpl. by inversion_clear Hk.
Qed.

Lemma clip_nonneg len (z : Z) :
  (0 ≤ z)%Z → clip len z = (Z.to_nat z `min` len)%nat.
Proof.
  intros Hz. unfold clip. destruct (Z.ltb_spec z 0); [lia|]. lia.
Qed.

Lemma diag_positions_upper N (a : matrix) (i : nat) :
  shape N N a →
  diag_positions a (Z.of_nat i) = stride_from i (N + 1) (N - i).
Proof.
  intros Hsh. unfold diag_positions, flat_positions, slice_bounds.
  rewrite (ncols_shape a Hsh), (length_concat_shape N N a Hsh). cbn [from_option].
  rewrite !clip_nonneg by nia.
  destruct (decide (i < N)%nat) as [Hi|Hi].
  - assert (Z.to_nat (Z.max (Z.of_nat i) (- Z.of_nat N * Z.of_nat i)) `min` (N * N) = i)%nat
      as -> by nia.
    assert (Z.to_nat (Z.max 0 (Z.of_nat N - Z.of_nat i) * Z.of_nat N) `min` (N * N)
            = (N - i) * N)%nat as -> by nia.
    f_equal. replace ((N - i) * N - i + (N + 1) - 1)%nat with ((N - i) * (N + 1))%nat by nia.
    apply Nat.div_mul. lia.
  - assert (Z.to_nat (Z.max 0 (Z.of_nat N - Z.of_nat i) * Z.of_nat N) `min` (N * N)
            = 0)%nat as -> by nia.
    replace (N - i)%nat with 0%nat by lia.
    replace (0 - _ + (N + 1) - 1)%nat with N by lia.
    rewrite Nat.div_small by lia. done.
Qed.

Lemma diag_positions_lower N (a : matrix) (m : nat) :
  shape N N a → (0 < m)%nat →
  diag_positions a (- Z.of_nat m) = stride_from (m * N) (N + 1) (N - m).
Proof.
  intros Hsh Hm. unfold diag_positions, flat_positions, slice_bounds.
  rewrite (ncols_shape a Hsh), (length_concat_shape N N a Hsh). cbn [from_option].
  rewrite !clip_nonneg by nia.
  destruct (decide (m < N)%nat) as [Hi|Hi].
  - assert (Z.to_nat (Z.max (- Z.of_nat m) (- Z.of_nat N * - Z.of_nat m)) `min` (N * N)
            = m * N)%nat as -> by nia.
    assert (Z.to_nat (Z.max 0 (Z.of_nat N - - Z.of_nat m) * Z.of_nat N) `min` (N * N)
            = N * N)%nat as -> by nia.
    f_equal. symmetry. apply (Nat.div_unique _ _ _ m); nia.
  - assert (Z.to_nat (Z.max (- Z.of_nat m) (- Z.of_nat N * - Z.of_nat m)) `min` (N * N)
            = N * N)%nat as -> by nia.
    assert (Z.to_nat (Z.max 0 (Z.of_nat N - - Z.of_nat m) * Z.of_nat N) `min` (N * N)
            = N * N)%nat as -> by nia.
    replace (N - m)%nat with 0%nat by lia.
    replace (N * N - N * N + (N + 1) - 1)%nat with N by lia.
    rewrite Nat.div_small by lia. done.
Qed.

Lemma diag_positions_square N (a : matrix) (i : Z) :
  shape N N a →
  diag_positions a i
  = stride_from (Z.to_nat (- i) * N + Z.to_nat i) (N + 1) (N - Z.abs_nat i).
Proof.
  intros Hsh. destruct (Z_le_gt_dec 0 i) as [Hi|Hi].
  - rewrite <-(Z2Nat.id i Hi) at 1. rewrite (diag_positions_upper N) by done.
    f_equal; lia.
  - replace i with (- Z.of_nat (Z.to_nat (- i)))%Z at 1 by lia.
    rewrite (diag_positions_lower N) by (done || lia). f_equal; lia.
Qed.

Lemma omap_stride_from {B} (f : nat → option B) lo step n (g : nat → B) :
  (∀ k, (k < n)%nat → f (lo + k * step)%nat = Some (g k)) →
  omap f (stride_from lo step n) = map g (seq 0 n).
Proof.
  revert lo g. induction n as [|n IH]; intros lo g Hg; [done|].
  pose proof (Hg 0%nat ltac:(lia)) as H0. rewrite Nat.mul_0_l, Nat.add_0_r in H0.
  cbn [stride_from seq map].
  change (omap f (lo :: ?l)) with (match f lo with Some y => y :: omap f l | None => omap f l end).
  rewrite H0. rewrite <-seq_shift, map_map. f_equal. apply IH.
  intros k Hk. rewrite <-(Hg (S k)) by lia. f_equal. lia.
Qed.

Section square.
Context (N : nat) (a : matrix) (Hsh : shape N N a) (i : Z).

Local Abbreviation r0 := (Z.to_nat (- i)).
Local Abbreviation c0 := (Z.to_nat i).
Local Abbreviation len := (N - Z.abs_nat i)%nat.

Lemma diag_position k :
  (r0 * N + c0 + k * (N + 1) = (r0 + k) * N + (c0 + k))%nat.
Proof. lia. Qed.

Lemma diag_values :
  omap (λ p, concat a !! p) (diag_positions a i)
  = map (λ k, ent a (r0 + k) (c0 + k)) (seq 0 len).
Proof.
  rewrite (diag_positions_square N) by done. apply omap_stride_from.
  intros k Hk. rewrite diag_position, (lookup_concat_shape N N) by (done || lia).
  unfold ent. destruct (look2_is_Some N N a (r0 + k) (c0 + k)) as [v ->]; (done || lia).
Qed.

Lemma flat_writes_diag x :
  (flat ← for_each (zip (seq 0 (length (diag_positions a i))) (diag_positions a i))
            (λ kp flat, Ok (<[kp.2 := value_of x kp.1]> flat)) (concat a);
   Ok (unflatten a flat)) = Ok (with_diag i x a).
Proof.
  rewrite (diag_positions_square N), length_stride_from by done.
  rewrite (for_each_pure _ _ (λ (flat : vector) (kp : nat * nat),
             <[kp.2 := value_of x kp.1]> flat)) by done.
  cbn [mbind result_bind]. f_equal.
  destruct (write_stride (value_of x) (N + 1) len 0 (r0 * N + c0) (concat a))
    as (Hlen & Hon & Hoff); [lia| |].
  { rewrite (length_concat_shape N N) by done.
    destruct (decide (len = 0)%nat); [by left|right]. nia. }
  rewrite (length_concat_shape N N) in Hlen by done.
  destruct (unflatten_spec N N a _ Hsh Hlen) as [Hsh' Hlook].
  apply (mat_ext N N); [done|by apply shape_mat_imap|].
  intros r c Hr Hc. rewrite Hlook by done. unfold with_diag. rewrite look2_mat_imap.
  destruct (look2_is_Some N N a r c Hsh Hr Hc) as [v Hv]. rewrite Hv. cbn [fmap option_fmap option_map].
  case_bool_decide as Hd.
  - assert (r = r0 + (r `min` c) ∧ c = c0 + (r `min` c))%nat as [Er Ec] by lia.
    replace (r * N + c)%nat with (r0 * N + c0 + (r `min` c) * (N + 1))%nat by nia.
    rewrite Hon by lia. done.
  - rewrite Hoff; [by rewrite (lookup_concat_shape N N) by done|].
    intros k Hk E. rewrite diag_position in E. apply Hd.
    assert (r = r0 + k)%nat by nia. lia.
Qed.

Lemma flat_assign_diag x :
  writable x len → flat_assign a (diag_positions a i) x = Ok (with_diag i x a).
Proof.
  intros Hx. pose proof (flat_writes_diag x) as Hgen.
  destruct x as [v|[|v vs]]; [exact Hgen| |exact Hgen].
  destruct Hx as [Hx|Hlen]; [done|]. rewrite <-Hgen.
  rewrite (diag_positions_square N) by done. rewrite Hlen.
  cbn [flat_assign stride_from length seq zip zip_with for_each mbind result_bind].
  by rewrite (unflatten_concat N N).
Qed.

Lemma shape_with_diag x : shape N N (with_diag i x a).
Proof. by apply shape_mat_imap. Qed.

Lemma ent_with_diag x k :
  (k < len)%nat → ent (with_diag i x a) (r0 + k) (c0 + k) = value_of x k.
Proof.
  intros Hk. unfold ent, with_diag. rewrite look2_mat_imap.
  destruct (look2_is_Some N N a (r0 + k) (c0 + k)) as [v ->]; [done|lia|lia|].
  cbn [fmap option_fmap option_map default]. rewrite bool_decide_eq_true_2 by lia.
  unfold id. f_equal. lia.
Qed.
End square.

Lemma deref_ok (h : store) l a : h !! l = Some a → deref h l = Ok a.
Proof. intros H. unfold deref. by rewrite H. Qed.

(** A write to the buffer of [arr] itself or of a fresh copy of it. *)
Lemma write_ok (h : store) arr a a' (copy : bool) (f : matrix → result matrix) :
  h !! arr = Some a → f a = Ok a' →
  ∃ h' out,
    ('(h, arr) ← (if copy then np_copy h arr else Ok (h, arr));
     a ← deref h arr; a' ← f a; Ok (<[arr := a']> h, arr)) = Ok (h', out) ∧
    h' !! out = Some a' ∧
    (if copy then out ≠ arr else out = arr) ∧
    (∀ y, y ≠ out → h' !! y = h !! y).
Proof.
  intros Ha Hf. destruct copy.
  - unfold np_copy. rewrite (deref_ok h arr a Ha). cbn [mbind result_bind].
    destruct (alloc_spec h a) as [-> Hfresh]. set (l := fresh (dom h)) in *.
    cbn [mbind result_bind]. rewrite (deref_ok _ l a) by by rewrite lookup_insert_eq.
    cbn [mbind result_bind]. rewrite Hf. cbn [mbind result_bind].
    eexists _, _. split; [done|]. split; [by rewrite lookup_insert_eq|]. split.
    + intros ->. by rewrite Ha in Hfresh.
    + intros y Hy. by rewrite !lookup_insert_ne.
  - cbn [mbind result_bind]. rewrite (deref_ok h arr a Ha). cbn [mbind result_bind].
    rewrite Hf. cbn [mbind result_bind].
    eexists _, _. split; [done|]. split; [by rewrite lookup_insert_eq|]. split; [done|].
    intros y Hy. by rewrite lookup_insert_ne.
Qed.

Lemma set_diag_ok (h : store) arr a N x i copy :
  h !! arr = Some a → shape N N a → writable x (N - Z.abs_nat i) →
  ∃ h' out,
    set_diag h arr x i copy = Ok (h', out) ∧
    h' !! out = Some (with_diag i x a) ∧
    (if copy then out ≠ arr else out = arr) ∧
    (∀ y, y ≠ out → h' !! y = h !! y).
Proof.
  intros Ha Hsh Hx. unfold set_diag.
  apply (write_ok h arr a _ copy (λ a, flat_assign a (diag_positions a i) x) Ha).
  by apply (flat_assign_diag N).
Qed.

(** X9. On a square matrix [get_diag(arr, i)] returns the [N - |i|] entries
    [arr[k, k + i]] ([i >= 0]) or [arr[k - i, k]] ([i < 0]) in the order of
    [k], nothing when [|i| >= N], and leaves every buffer as it was. *)
Theorem get_diag_reads_diagonal (h : store) arr a N i :
  h !! arr = Some a → shape N N a →
  get_diag h arr i
  = Ok (h, map (λ k, ent a (Z.to_nat (- i) + k) (Z.to_nat i + k))
               (seq 0 (N - Z.abs_nat i))).
Proof.
  intros Ha Hsh. unfold get_diag. rewrite (deref_ok h arr a Ha).
  cbn [mbind result_bind]. by rewrite (diag_values N).
Qed.

(** X10. On a square matrix [set_diag(arr, x, i, copy)] returns an array of
    the same shape in which the entries with [column - row = i] hold the
    values of [x] in the order of the diagonal ([x] repeated if it is
    shorter) and every other entry is the one of [arr]; the result is
    [arr] itself without [copy], and a new array with it, [arr] keeping
    its contents. *)
Theorem set_diag_writes_diagonal (h : store) arr a N x i copy :
  h !! arr = Some a → shape N N a → writable x (N - Z.abs_nat i) →
  ∃ h' out a',
    set_diag h arr x i copy = Ok (h', out) ∧ h' !! out = Some a' ∧
    shape N N a' ∧
    (∀ r c, (r < N)%nat → (c < N)%nat →
       look2 a' r c =
         if bool_decide (Z.of_nat c - Z.of_nat r = i)%Z
         then Some (value_of x (r `min` c)) else look2 a r c) ∧
    (if copy then out ≠ arr ∧ h' !! arr = Some a else out = arr).
Proof.
  intros Ha Hsh Hx.
  destruct (set_diag_ok h arr a N x i copy Ha Hsh Hx) as (h' & out & Hrun & Hout & Hc & Hfr).
  exists h', out, (with_diag i x a). split; [done|]. split; [done|].
  split; [by apply shape_with_diag|]. split.
  - intros r c Hr Hc'. unfold with_diag. rewrite look2_mat_imap.
    destruct (look2_is_Some N N a r c Hsh Hr Hc') as [v ->].
    cbn [fmap option_fmap option_map]. by case_bool_decide.
  - destruct copy; [|done]. split; [done|]. rewrite Hfr by done. done.
Qed.

Lemma map_value_of_values vs :
  map (value_of (Values vs)) (seq 0 (length vs)) = vs.
Proof.
  apply list_eq. intros k. change (map ?f ?l) with (f <$> l).
  rewrite list_lookup_fmap.
  destruct (decide (k < length vs)%nat) as [Hk|Hk].
  - rewrite lookup_seq_lt by done. simpl. rewrite Nat.mod_small by done.
    destruct (lookup_lt_is_Some_2 vs k Hk) as [v Hv].
    by rewrite Hv, (list_lookup_total_correct _ _ _ Hv).
  - rewrite lookup_seq_ge by lia. by rewrite lookup_ge_None_2 by lia.
Qed.

(** X11. Round trip on a square matrix: after [set_diag(arr, x, i)] the call
    [get_diag] with the same [i] on the result returns what was written,
    [N - |i|] copies of a scalar [x], or the array [x] itself when its
    length is [N - |i|]. *)
Theorem set_diag_then_get_diag (h : store) arr a N i copy :
  h !! arr = Some a → shape N N a →
  (∀ v, ∃ h' out,
     set_diag h arr (Scalar v) i copy = Ok (h', out) ∧
     get_diag h' out i = Ok (h', replicate (N - Z.abs_nat i) v)) ∧
  (∀ vs, length vs = (N - Z.abs_nat i)%nat →
     ∃ h' out,
       set_diag h arr (Values vs) i copy = Ok (h', out) ∧
       get_diag h' out i = Ok (h', vs)).
Proof.
  intros Ha Hsh.
  assert (∀ x, writable x (N - Z.abs_nat i) →
     ∃ h' out, set_diag h arr x i copy = Ok (h', out) ∧
       get_diag h' out i = Ok (h', map (value_of x) (seq 0 (N - Z.abs_nat i)))) as Hgen.
  { intros x Hx.
    destruct (set_diag_ok h arr a N x i copy Ha Hsh Hx) as (h' & out & Hrun & Hout & _).
    exists h', out. split; [done|]. unfold get_diag.
    rewrite (deref_ok h' out _ Hout). cbn [mbind result_bind].
    rewrite (diag_values N) by by apply shape_with_diag.
    do 2 f_equal. apply map_ext_in. intros k Hk%in_seq.
    apply (ent_with_diag N); (done || lia). }
  split.
  - intros v. destruct (Hgen (Scalar v) I) as (h' & out & Hrun & Hget).
    exists h', out. split; [done|]. rewrite Hget. do 2 f_equal.
    change (value_of (Scalar v)) with (λ _ : nat, v).
    by rewrite map_const_replicate, length_seq.
  - intros vs Hlen. destruct (Hgen (Values vs)) as (h' & out & Hrun & Hget).
    { simpl. destruct vs; [right; by rewrite <-Hlen|by left]. }
    exists h', out. split; [done|]. rewrite Hget, <-Hlen.
    by rewrite map_value_of_values.
Qed.

(** *** [fill_diagonal] *)

Lemma fill_positions_main N (a : matrix) (wrap : bool) :
  shape N N a →
  flat_positions (length (concat a)) (Some 0%Z)
    (if wrap then None else Some (0 + Z.of_nat (ncols a) * Z.of_nat (ncols a))%Z)
    (ncols a + 1)
  = diag_positions a 0.
Proof.
  intros Hsh. rewrite (diag_positions_square N) by done.
  unfold flat_positions, slice_bounds.
  rewrite (ncols_shape a Hsh), (length_concat_shape N N a Hsh).
  assert (from_option (clip (N * N)) (N * N)%nat
            (if wrap then None else Some (0 + Z.of_nat N * Z.of_nat N)%Z) = (N * N)%nat) as ->.
  { destruct wrap; [done|]. simpl. rewrite clip_nonneg by lia. lia. }
  cbn [from_option]. rewrite clip_nonneg by lia.
  change (Z.to_nat 0) with 0%nat. change (Z.to_nat (- 0)) with 0%nat.
  change (Z.abs_nat 0) with 0%nat.
  rewrite Nat.min_0_l, Nat.mul_0_l, !Nat.sub_0_r. f_equal.
  replace (N * N + (N + 1) - 1)%nat with (N * (N + 1))%nat by lia.
  apply Nat.div_mul. lia.
Qed.

Lemma fill_positions_negative N (k : Z) :
  (- (Z.of_nat N * Z.of_nat N) ≤ k < 0)%Z →
  flat_positions (N * N) (Some k) (Some (k + Z.of_nat N * Z.of_nat N)%Z) (N + 1) = [].
Proof.
  intros Hk. unfold flat_positions, slice_bounds. cbn [from_option].
  rewrite (clip_nonneg _ (k + _)) by lia.
  assert (clip (N * N) k = Z.to_nat (k + Z.of_nat N * Z.of_nat N)) as ->.
  { unfold clip. destruct (Z.ltb_spec k 0); lia. }
  replace (_ `min` _ - _ + (N + 1) - 1)%nat with N by lia.
  by rewrite Nat.div_small by lia.
Qed.

Lemma fill_positions_upper N (k : nat) :
  (1 ≤ k ≤ N)%nat →
  flat_positions (N * N) (Some (Z.of_nat k)) (Some (Z.of_nat k + Z.of_nat N * Z.of_nat N)%Z)
    (N + 1)
  = stride_from k (N + 1) (N - 1).
Proof.
  intros Hk. unfold flat_positions, slice_bounds. cbn [from_option].
  rewrite !clip_nonneg by lia.
  assert (Z.to_nat (Z.of_nat k) `min` (N * N) = k)%nat as -> by nia.
  assert (Z.to_nat (Z.of_nat k + Z.of_nat N * Z.of_nat N) `min` (N * N) = N * N)%nat
    as -> by nia.
  f_equal. symmetry. apply (Nat.div_unique _ _ _ (N + 1 - k)); nia.
Qed.

(** X12. On a square matrix [fill_diagonal] with [k = 0] is [set_diag] with
    [i = 0], with or without [wrap]: the entries [(r, r)] receive the
    values and the others are kept. *)
Theorem fill_diagonal_main_diagonal (h : store) arr a N x wrap copy :
  h !! arr = Some a → shape N N a → writable x N →
  fill_diagonal h arr x 0 wrap copy = set_diag h arr x 0 copy ∧
  ∃ h' out a',
    fill_diagonal h arr x 0 wrap copy = Ok (h', out) ∧ h' !! out = Some a' ∧
    shape N N a' ∧
    ∀ r c, (r < N)%nat → (c < N)%nat →
      look2 a' r c = if bool_decide (r = c) then Some (value_of x r) else look2 a r c.
Proof.
  intros Ha Hsh Hx.
  assert (fill_diagonal h arr x 0 wrap copy = set_diag h arr x 0 copy) as E.
  { unfold fill_diagonal, set_diag. destruct copy.
    - unfold np_copy. rewrite (deref_ok h arr a Ha). cbn [mbind result_bind].
      destruct (alloc_spec h a) as [-> _]. cbn [mbind result_bind].
      rewrite (deref_ok _ _ a) by by rewrite lookup_insert_eq.
      cbn [mbind result_bind]. by rewrite (fill_positions_main N).
    - cbn [mbind result_bind]. rewrite (deref_ok h arr a Ha).
      cbn [mbind result_bind]. by rewrite (fill_positions_main N). }
  split; [done|]. rewrite E.
  destruct (set_diag_ok h arr a N x 0 copy Ha Hsh) as (h' & out & Hrun & Hout & _).
  { by rewrite Nat.sub_0_r. }
  exists h', out, (with_diag 0 x a). split; [done|]. split; [done|].
  split; [by apply shape_with_diag|].
  intros r c Hr Hc. unfold with_diag. rewrite look2_mat_imap.
  destruct (look2_is_Some N N a r c Hsh Hr Hc) as [v ->].
  cbn [fmap option_fmap option_map].
  destruct (decide (r = c)) as [->|Hne].
  - rewrite !bool_decide_eq_true_2 by lia. by rewrite Nat.min_id.
  - by rewrite !bool_decide_eq_false_2 by lia.
Qed.

(** X13. With [wrap=False] and a negative [k] (no lower than [-N*N])
    [fill_diagonal] writes nothing on a square matrix: the flat slice
    [k : k + N*N : N + 1] is empty and the array it returns has the
    contents of [arr]. *)
Theorem fill_diagonal_negative_k_writes_nothing (h : store) arr a N x k copy :
  h !! arr = Some a → shape N N a →
  (- (Z.of_nat N * Z.of_nat N) ≤ k < 0)%Z →
  ∃ h' out,
    fill_diagonal h arr x k false copy = Ok (h', out) ∧ h' !! out = Some a.
Proof.
  intros Ha Hsh Hk. unfold fill_diagonal.
  destruct (write_ok h arr a a copy
    (λ a, flat_assign a
            (flat_positions (length (concat a)) (Some k)
               (Some (k + Z.of_nat (ncols a) * Z.of_nat (ncols a))%Z) (ncols a + 1)) x) Ha)
    as (h' & out & Hrun & Hout & _).
  { rewrite (ncols_shape a Hsh), (length_concat_shape N N a Hsh).
    rewrite fill_positions_negative by done.
    destruct x as [v|[|v vs]]; [|done|]; simpl; by rewrite (unflatten_concat N N). }
  by exists h', out.
Qed.

(** X14. With [wrap=False] and [1 <= k <= N], [fill_diagonal] on a square
    matrix writes the [N - 1] positions of the flat slice
    [k : k + N*N : N + 1] and nothing else: the [N - k] entries
    [(r, r + k)] of the [k]-th diagonal get the values of [x] in order and,
    from [k = 2] on, the [k - 1] entries [(r, r + k - N - 1)], which lie on
    the diagonal [k - N - 1], get the values that follow; every other
    entry is the one of [arr] and the shape is kept.  The result is [arr]
    itself without [copy], and a new array with it, [arr] keeping its
    contents. *)
Theorem fill_diagonal_upper_wraps (h : store) arr a N x (k : nat) copy :
  h !! arr = Some a → shape N N a → (1 ≤ k ≤ N)%nat → writable x (N - 1) →
  ∃ h' out a',
    fill_diagonal h arr x (Z.of_nat k) false copy = Ok (h', out) ∧
    h' !! out = Some a' ∧ shape N N a' ∧
    (∀ r c, (r < N)%nat → (c < N)%nat →
       look2 a' r c =
         if bool_decide (c = r + k)%nat then Some (value_of x r)
         else if bool_decide (c + N + 1 = r + k)%nat then Some (value_of x (r - 1))
         else look2 a r c) ∧
    (if copy then out ≠ arr ∧ h' !! arr = Some a else out = arr).
Proof.
  intros Ha Hsh Hk Hx. unfold fill_diagonal.
  set (ps := stride_from k (N + 1) (N - 1)).
  set (flat' := foldl (λ (flat : vector) (kp : nat * nat), <[kp.2 := value_of x kp.1]> flat)
                      (concat a) (zip (seq 0 (N - 1)) ps)).
  destruct (write_stride (value_of x) (N + 1) (N - 1) 0 k (concat a))
    as (Hlen & Hon & Hoff); [lia| |].
  { rewrite (length_concat_shape N N) by done.
    destruct (decide (N - 1 = 0)%nat); [by left|right].
    replace (N - 1 - 1)%nat with (N - 2)%nat by lia.
    assert (N = S (S (N - 2))) as HN by lia. rewrite HN at 2 3 4. nia. }
  fold ps in Hlen, Hon, Hoff. fold flat' in Hlen, Hon, Hoff.
  rewrite (length_concat_shape N N) in Hlen by done.
  destruct (unflatten_spec N N a flat' Hsh Hlen) as [Hsh' Hlook].
  destruct (write_ok h arr a (unflatten a flat') copy
    (λ a, flat_assign a
            (flat_positions (length (concat a)) (Some (Z.of_nat k))
               (Some (Z.of_nat k + Z.of_nat (ncols a) * Z.of_nat (ncols a))%Z)
               (ncols a + 1)) x) Ha)
    as (h' & out & Hrun & Hout & Hc & Hfr).
  { rewrite (ncols_shape a Hsh), (length_concat_shape N N a Hsh).
    rewrite fill_positions_upper by done. fold ps.
    assert ((flat ← for_each (zip (seq 0 (length ps)) ps)
                      (λ kp flat, Ok (<[kp.2 := value_of x kp.1]> flat)) (concat a);
             Ok (unflatten a flat)) = Ok (unflatten a flat')) as Hgen.
    { unfold ps at 1. rewrite length_stride_from.
      by rewrite (for_each_pure _ _ (λ (flat : vector) (kp : nat * nat),
                    <[kp.2 := value_of x kp.1]> flat)) by done. }
    destruct x as [v|[|v vs]]; [exact Hgen| |exact Hgen].
    destruct Hx as [Hx|Hn]; [done|]. rewrite <-Hgen. unfold ps. rewrite Hn.
    cbn [flat_assign stride_from length seq zip zip_with for_each mbind result_bind].
    by rewrite (unflatten_concat N N). }
  exists h', out, (unflatten a flat'). split; [done|]. split; [done|].
  split; [done|]. split.
  - intros r c Hr Hc'. rewrite Hlook by done.
    case_bool_decide as E1; [|case_bool_decide as E2].
    + replace (r * N + c)%nat with (k + r * (N + 1))%nat by lia.
      by rewrite Hon by lia.
    + replace (r * N + c)%nat with (k + (r - 1) * (N + 1))%nat by nia.
      rewrite Hon by lia. done.
    + rewrite Hoff; [by rewrite (lookup_concat_shape N N) by done|].
      intros t Ht E. destruct (decide (k + t < N)%nat).
      * apply E1. assert (r = t) by nia. lia.
      * apply E2. assert (r = t + 1)%nat by nia. lia.
  - destruct copy; [|done]. split; [done|]. rewrite Hfr by done. done.
Qed.

Lemma store_decay4 : ({[ 0%nat := decay4 ]} : store) !! 0%nat = Some decay4.
Proof. by vm_compute. Qed.

Lemma X9_witness :
  ({[ 0%nat := decay4 ]} : store) !! 0%nat = Some decay4 ∧ shape 4 4 decay4 ∧
  get_diag {[ 0%nat := decay4 ]} 0 (-1)
  = Ok ({[ 0%nat := decay4 ]},
        map (λ k, ent decay4 (Z.to_nat (- -1) + k) (Z.to_nat (-1) + k))
            (seq 0 (4 - Z.abs_nat (-1)))).
Proof.
  split; [exact store_decay4|]. split; [exact shape_decay4|].
  exact (get_diag_reads_diagonal _ 0 decay4 4 (-1) store_decay4 shape_decay4).
Defined.

Lemma X10_witness :
  ({[ 0%nat := decay4 ]} : store) !! 0%nat = Some decay4 ∧ shape 4 4 decay4 ∧
  writable (Scalar NaN) (4 - Z.abs_nat 2) ∧
  ∃ h' out a',
    set_diag {[ 0%nat := decay4 ]} 0 (Scalar NaN) 2 false = Ok (h', out) ∧
    h' !! out = Some a' ∧ shape 4 4 a' ∧
    look2 a' 1 3 = Some NaN ∧ look2 a' 3 1 = look2 decay4 3 1 ∧ out = 0%nat.
Proof.
  split; [exact store_decay4|]. split; [exact shape_decay4|]. split; [exact I|].
  destruct (set_diag_writes_diagonal _ 0 decay4 4 (Scalar NaN) 2 false
              store_decay4 shape_decay4 I)
    as (h' & out & a' & Hrun & Hout & Hsh & Hpix & Hc).
  exists h', out, a'. split; [exact Hrun|]. split; [exact Hout|]. split; [exact Hsh|].
  split; [apply (Hpix 1%nat 3%nat); lia|]. split; [apply (Hpix 3%nat 1%nat); lia|].
  exact Hc.
Defined.

Lemma X11_witness :
  ({[ 0%nat := decay4 ]} : store) !! 0%nat = Some decay4 ∧ shape 4 4 decay4 ∧
  length [f1; f0; f1] = (4 - Z.abs_nat (-1))%nat ∧
  ∃ h' out,
    set_diag {[ 0%nat := decay4 ]} 0 (Values [f1; f0; f1]) (-1) true = Ok (h', out) ∧
    get_diag h' out (-1) = Ok (h', [f1; f0; f1]).
Proof.
  split; [exact store_decay4|]. split; [exact shape_decay4|]. split; [reflexivity|].
  apply (proj2 (set_diag_then_get_diag _ 0 decay4 4 (-1) true store_decay4 shape_decay4)).
  reflexivity.
Defined.

Lemma X12_witness :
  ({[ 0%nat := decay4 ]} : store) !! 0%nat = Some decay4 ∧ shape 4 4 decay4 ∧
  writable (Scalar f1) 4 ∧
  fill_diagonal {[ 0%nat := decay4 ]} 0 (Scalar f1) 0 false true
  = set_diag {[ 0%nat := decay4 ]} 0 (Scalar f1) 0 true.
Proof.
  split; [exact store_decay4|]. split; [exact shape_decay4|]. split; [exact I|].
  exact (proj1 (fill_diagonal_main_diagonal _ 0 decay4 4 (Scalar f1) false true
                  store_decay4 shape_decay4 I)).
Defined.

Lemma X13_witness :
  ({[ 0%nat := decay4 ]} : store) !! 0%nat = Some decay4 ∧ shape 4 4 decay4 ∧
  (- (Z.of_nat 4 * Z.of_nat 4) ≤ -1 < 0)%Z ∧
  ∃ h' out,
    fill_diagonal {[ 0%nat := decay4 ]} 0 (Scalar NaN) (-1) false true = Ok (h', out) ∧
    h' !! out = Some decay4.
Proof.
  split; [exact store_decay4|]. split; [exact shape_decay4|]. split; [lia|].
  apply (fill_diagonal_negative_k_writes_nothing _ 0 decay4 4 (Scalar NaN) (-1) true
           store_decay4 shape_decay4).
  lia.
Defined.

Lemma X14_witness :
  ({[ 0%nat := decay4 ]} : store) !! 0%nat = Some decay4 ∧ shape 4 4 decay4 ∧
  (1 ≤ 2 ≤ 4)%nat ∧ writable (Scalar NaN) (4 - 1) ∧
  ∃ h' out a',
    fill_diagonal {[ 0%nat := decay4 ]} 0 (Scalar NaN) (Z.of_nat 2) false true
    = Ok (h', out) ∧
    h' !! out = Some a' ∧ shape 4 4 a' ∧
    look2 a' 0 2 = Some NaN ∧ look2 a' 3 0 = Some NaN ∧
    look2 a' 0 3 = look2 decay4 0 3.
Proof.
  split; [exact store_decay4|]. split; [exact shape_decay4|]. split; [lia|].
  split; [exact I|].
  destruct (fill_diagonal_upper_wraps _ 0 decay4 4 (Scalar NaN) 2 true
              store_decay4 shape_decay4 ltac:(lia) I)
    as (h' & out & a' & Hrun & Hout & Hsh & Hpix & _).
  exists h', out, a'. split; [exact Hrun|]. split; [exact Hout|].
  split; [exact Hsh|].
  split; [apply (Hpix 0%nat 2%nat); lia|].
  split; [apply (Hpix 3%nat 0%nat); lia|]. apply (Hpix 0%nat 3%nat); lia.
Defined.

(** ** The bad-bin counts of the boundary caller, in general *)

(** [a[lo : lo + len]] replaced by [mid]. *)
Lemma lookup_splice (a mid : list Z) lo p :
  (lo + length mid ≤ length a)%nat →
  (take lo a ++ mid ++ drop (lo + length mid) a) !! p
  = if decide (lo ≤ p < lo + length mid)%nat then mid !! (p - lo)%nat else a !! p.
Proof.
  intros Hlen. destruct (decide (p < lo)%nat) as [Hp|Hp].
  - rewrite lookup_app_l by (rewrite length_take; lia).
    rewrite lookup_take_lt by done. by rewrite decide_False by lia.
  - rewrite lookup_app_r by (rewrite length_take; lia).
    rewrite length_take, Nat.min_l by lia.
    destruct (decide (p - lo < length mid)%nat) as [Hm|Hm].
    + rewrite lookup_app_l by done. by rewrite decide_True by lia.
    + rewrite lookup_app_r by lia. rewrite lookup_drop, decide_False by lia.
      f_equal. lia.
Qed.

Lemma length_splice (a mid : list Z) lo :
  (lo + length mid ≤ length a)%nat →
  length (take lo a ++ mid ++ drop (lo + length mid) a) = length a.
Proof. intros Hlen. rewrite !length_app, length_take, length_drop. lia. Qed.

Lemma clip_neg len (i : nat) : (0 < i)%nat → clip len (- Z.of_nat i)%Z = (len - i)%nat.
Proof. intros Hi. unfold clip. destruct (Z.ltb_spec (- Z.of_nat i)%Z 0); lia. Qed.

Section counts_loop.
Context (flags : list Z) (n i : nat).
Context (Hflags : length flags = n) (Hi : (0 < i)%nat).

(** [a[i:] += flags[:-i]] *)
Lemma iadd_shifted_up (a : list Z) :
  length a = n →
  ∃ a', iadd_slice a (Some (Z.of_nat i)) None (slice_opt flags None (Some (- Z.of_nat i)%Z))
        = Ok a' ∧ length a' = n ∧
        ∀ p x, a !! p = Some x →
          a' !! p = Some (if decide (i ≤ p)%nat then x + default 0 (flags !! (p - i)%nat) else x)%Z.
Proof.
  intros Ha. unfold iadd_slice, slice_opt, slice_bounds. cbn [from_option].
  rewrite Ha, Hflags, clip_of_nat, clip_neg by done. rewrite drop_0, Nat.sub_0_r.
  set (lo := (i `min` n)%nat).
  set (target := take (n - lo) (drop lo a)).
  assert (length target = n - i)%nat as Ht.
  { unfold target. rewrite length_take, length_drop. lia. }
  assert (length (take (n - i) flags) = n - i)%nat as Hv by (rewrite length_take; lia).
  rewrite Hv, Ht, Nat.eqb_refl.
  set (mid := zip_with Z.add target (take (n - i) flags)).
  assert (length mid = n - i)%nat as Hm.
  { unfold mid. rewrite length_zip_with. lia. }
  eexists. split; [done|]. rewrite <-Hm.
  split; [rewrite length_splice; lia|].
  intros p x Hp. apply lookup_lt_Some in Hp as Hlt.
  rewrite lookup_splice by lia.
  destruct (decide (i ≤ p)%nat) as [Hip|Hip].
  - rewrite decide_True by lia. unfold mid. rewrite lookup_zip_with.
    unfold target. rewrite !lookup_take_lt by lia. rewrite lookup_drop.
    replace (lo + (p - lo))%nat with p by lia. rewrite Hp. cbn [mbind option_bind].
    replace (p - lo)%nat with (p - i)%nat by lia.
    destruct (lookup_lt_is_Some_2 flags (p - i)%nat) as [v ->]; [lia|]. done.
  - rewrite decide_False by lia. done.
Qed.

(** [a[:-i] += flags[i:]] *)
Lemma iadd_shifted_down (a : list Z) :
  length a = n →
  ∃ a', iadd_slice a None (Some (- Z.of_nat i)%Z) (slice_opt flags (Some (Z.of_nat i)) None)
        = Ok a' ∧ length a' = n ∧
        ∀ p x, a !! p = Some x →
          a' !! p = Some (if decide (p + i < n)%nat
                          then x + default 0 (flags !! (p + i)%nat) else x)%Z.
Proof.
  intros Ha. unfold iadd_slice, slice_opt, slice_bounds. cbn [from_option].
  rewrite Ha, Hflags, clip_of_nat, clip_neg by done. rewrite drop_0, Nat.sub_0_r.
  set (target := take (n - i) a).
  assert (length target = n - i)%nat as Ht.
  { unfold target. rewrite length_take. lia. }
  assert (length (take (n - i `min` n) (drop (i `min` n) flags)) = n - i)%nat as Hv.
  { rewrite length_take, length_drop. lia. }
  rewrite Hv, Ht, Nat.eqb_refl.
  set (mid := zip_with Z.add target (take (n - i `min` n) (drop (i `min` n) flags))).
  assert (length mid = n - i)%nat as Hm.
  { unfold mid. rewrite length_zip_with. lia. }
  eexists. split; [done|]. rewrite take_0. cbn [app].
  change (mid ++ drop (0 + (n - i)) a) with (take 0 a ++ mid ++ drop (0 + (n - i)) a).
  rewrite <-Hm. split; [rewrite length_splice; lia|].
  intros p x Hp. apply lookup_lt_Some in Hp as Hlt.
  rewrite lookup_splice by lia.
  destruct (decide (p + i < n)%nat) as [Hip|Hip].
  - rewrite decide_True by lia. unfold mid. rewrite lookup_zip_with, Nat.sub_0_r.
    unfold target. rewrite !lookup_take_lt by lia. rewrite Hp. cbn [mbind option_bind].
    rewrite lookup_drop.
    replace (i `min` n + p)%nat with (p + i)%nat by lia.
    destruct (lookup_lt_is_Some_2 flags (p + i)%nat) as [v ->]; [lia|]. done.
  - rewrite decide_False by lia. done.
Qed.

(** [a[:i] += 1] *)
Lemma iadd_one_head (a : list Z) :
  length a = n →
  length (iadd_slice_one a None (Some (Z.of_nat i))) = n ∧
  ∀ p x, a !! p = Some x →
    iadd_slice_one a None (Some (Z.of_nat i)) !! p
    = Some (if decide (p < i)%nat then 1 + x else x)%Z.
Proof.
  intros Ha. unfold iadd_slice_one, slice_bounds. cbn [from_option].
  rewrite Ha, clip_of_nat, Nat.sub_0_r, drop_0.
  set (mid := map (Z.add 1) (take (i `min` n) a)).
  assert (length mid = i `min` n)%nat as Hm.
  { unfold mid. rewrite length_map, length_take. lia. }
  rewrite length_take, Nat.min_l by lia. rewrite <-Hm.
  split; [rewrite length_splice; lia|].
  intros p x Hp. apply lookup_lt_Some in Hp as Hlt. rewrite lookup_splice by lia.
  destruct (decide (p < i)%nat) as [Hip|Hip].
  - rewrite decide_True by lia. unfold mid. change (map ?f ?l) with (f <$> l).
    rewrite list_lookup_fmap, lookup_take_lt, Nat.sub_0_r, Hp by lia. done.
  - rewrite decide_False by lia. done.
Qed.

(** [a[-i:] += 1] *)
Lemma iadd_one_tail (a : list Z) :
  length a = n →
  length (iadd_slice_one a (Some (- Z.of_nat i)%Z) None) = n ∧
  ∀ p x, a !! p = Some x →
    iadd_slice_one a (Some (- Z.of_nat i)%Z) None !! p
    = Some (if decide (n ≤ p + i)%nat then 1 + x else x)%Z.
Proof.
  intros Ha. unfold iadd_slice_one, slice_bounds. cbn [from_option].
  rewrite Ha, clip_neg by done.
  set (mid := map (Z.add 1) (take (n - (n - i)) (drop (n - i) a))).
  assert (length mid = n - (n - i))%nat as Hm.
  { unfold mid. rewrite length_map, length_take, length_drop. lia. }
  rewrite length_take, length_drop, Nat.min_l by lia. rewrite <-Hm.
  split; [rewrite length_splice; lia|].
  intros p x Hp. apply lookup_lt_Some in Hp as Hlt. rewrite lookup_splice by lia.
  destruct (decide (n ≤ p + i)%nat) as [Hip|Hip].
  - rewrite decide_True by lia. unfold mid. change (map ?f ?l) with (f <$> l).
    rewrite list_lookup_fmap, lookup_take_lt, lookup_drop by lia.
    replace (n - i + (p - (n - i)))%nat with p by lia. by rewrite Hp.
  - rewrite decide_False by lia. done.
Qed.
End counts_loop.

Lemma foldr_add_snoc (l : list Z) x :
  (foldr Z.add 0 (l ++ [x]) = foldr Z.add 0 l + x)%Z.
Proof. induction l as [|y l IH]; simpl; lia. Qed.

Lemma spec_upstream_S is_bad w p :
  (spec_upstream is_bad (S w) p
   = spec_upstream is_bad w p + bad_or_out is_bad (Z.of_nat p - Z.of_nat w))%Z.
Proof.
  unfold spec_upstream. rewrite seq_S, map_app. cbn [map].
  by rewrite foldr_add_snoc.
Qed.

Lemma spec_downstream_S is_bad w p :
  (spec_downstream is_bad (S w) p
   = spec_downstream is_bad w p + bad_or_out is_bad (Z.of_nat p + Z.of_nat w))%Z.
Proof.
  unfold spec_downstream. rewrite seq_S, map_app. cbn [map].
  by rewrite foldr_add_snoc.
Qed.

Lemma lookup_flags (is_bad : list bool) q :
  (q < length is_bad)%nat →
  map Z.b2z is_bad !! q = Some (Z.b2z (is_bad !!! q)).
Proof.
  intros Hq. destruct (lookup_lt_is_Some_2 is_bad q Hq) as [b Hb].
  change (map ?f ?l) with (f <$> l).
  by rewrite list_lookup_fmap, Hb, (list_lookup_total_correct _ _ _ Hb).
Qed.

Lemma bad_bin_counts_spec is_bad w :
  (1 ≤ w)%nat →
  let n := length is_bad in
  ∃ u d,
    bad_bin_counts is_bad w = Ok (u, d) ∧ length u = n ∧ length d = n ∧
    ∀ p, (p < n)%nat →
      u !! p = Some (spec_upstream is_bad w p + past_end n w p)%Z ∧
      d !! p = Some (spec_downstream is_bad w p - past_end n w p)%Z.
Proof.
  intros Hw n. unfold bad_bin_counts.
  set (flags := map Z.b2z is_bad).
  assert (length flags = n) as Hflags by (unfold flags; by rewrite length_map).
  set (I := λ (i : nat) (s : list Z * list Z),
    length s.1 = n ∧ length s.2 = n ∧
    ∀ p, (p < n)%nat →
      s.1 !! p = Some (spec_upstream is_bad i p + past_end n i p)%Z ∧
      s.2 !! p = Some (spec_downstream is_bad i p - past_end n i p)%Z).
  match goal with |- context [for_range 1 w ?b _] => set (body := b) end.
  destruct (for_range_inv I 1 w body (flags, flags)) as ([u d] & Hrun & HI).
  - done.
  - unfold I. cbn [fst snd]. split; [done|]. split; [done|]. intros p Hp.
    unfold spec_upstream, spec_downstream, past_end, bad_or_out. cbn [seq map foldr].
    change (Z.of_nat 0) with 0%Z. rewrite Z.sub_0_r, !Z.add_0_r, Nat2Z.id.
    destruct (Z.ltb_spec (Z.of_nat p) 0); [lia|].
    destruct (Z.leb_spec (Z.of_nat (length is_bad)) (Z.of_nat p)); [lia|]. cbn [orb].
    unfold flags. rewrite lookup_flags by done. split; f_equal; lia.
  - intros i [u d] Hi (Hu & Hd & Hpix). cbn [fst snd] in Hu, Hd, Hpix. unfold body.
    destruct (iadd_shifted_up flags n i Hflags ltac:(lia) u Hu) as (u1 & -> & Hu1 & Hl1).
    cbn [mbind result_bind].
    destruct (iadd_one_head flags n i Hflags ltac:(lia) u1 Hu1) as (Hu2 & Hl2).
    destruct (iadd_shifted_down flags n i Hflags ltac:(lia) d Hd) as (d1 & -> & Hd1 & Hl3).
    cbn [mbind result_bind].
    destruct (iadd_one_tail flags n i Hflags ltac:(lia) _ Hu2) as (Hu3 & Hl4).
    eexists. split; [done|]. unfold I. cbn [fst snd]. split; [done|]. split; [done|].
    intros p Hp. destruct (Hpix p Hp) as [Eu Ed].
    rewrite (Hl4 p _ (Hl2 p _ (Hl1 p _ Eu))), (Hl3 p _ Ed).
    rewrite spec_upstream_S, spec_downstream_S. unfold past_end, bad_or_out.
    fold n. split; f_equal.
    + destruct (Z.ltb_spec (Z.of_nat p - Z.of_nat i) 0);
        destruct (Z.leb_spec (Z.of_nat n) (Z.of_nat p - Z.of_nat i)); cbn [orb];
        repeat case_decide; try lia.
      all: assert (Z.to_nat (Z.of_nat p - Z.of_nat i) = (p - i)%nat) as E by lia.
      all: unfold flags; rewrite lookup_flags by (fold n; lia); cbn [default].
      all: rewrite ?E; unfold id; lia.
    + destruct (Z.ltb_spec (Z.of_nat p + Z.of_nat i) 0);
        destruct (Z.leb_spec (Z.of_nat n) (Z.of_nat p + Z.of_nat i)); cbn [orb];
        repeat case_decide; try lia.
      all: assert (Z.to_nat (Z.of_nat p + Z.of_nat i) = (p + i)%nat) as E by lia.
      all: unfold flags; rewrite lookup_flags by (fold n; lia); cbn [default].
      all: rewrite ?E; unfold id; lia.
  - destruct HI as (Hu & Hd & Hpix). by exists u, d.
Qed.

Lemma lookup_mask_assign {A} (mask : list bool) (v : A) (l : list A) (p : nat) (b : bool) (x : A) :
  mask !! p = Some b → l !! p = Some x →
  mask_assign mask v l !! p = Some (if b then v else x).
Proof. intros Hb Hx. unfold mask_assign. by rewrite lookup_zip_with, Hb, Hx. Qed.

Lemma length_mask_assign {A} (mask : list bool) (v : A) (l : list A) :
  length mask = length l → length (mask_assign mask v l) = length l.
Proof. intros H. unfold mask_assign. rewrite length_zip_with. lia. Qed.

(** X15. What the boundary caller computes for every chromosome and every
    window of at least one bin: the call returns, the downstream count of
    bin [p] is the number of bad positions of its downstream window
    (positions outside the chromosome counted as bad) minus the
    [past_end] positions of that window that lie past the end of the
    chromosome, the upstream count is the number of bad positions of the
    upstream window plus those same [past_end] positions, and the track is
    NaN exactly at the bad bins and at the bins where one of these two
    counts exceeds [max_bad_bins]. *)
Theorem mark_missing_in_general window_bp bin_size max_bad_bins is_bad_bin track :
  bin_size ≠ 0%nat → (window_bp mod bin_size = 0)%nat →
  (1 ≤ window_bp / bin_size)%nat → length track = length is_bad_bin →
  let w := (window_bp / bin_size)%nat in
  let n := length is_bad_bin in
  ∃ t u d,
    mark_missing window_bp bin_size max_bad_bins is_bad_bin track = Ok (t, u, d) ∧
    length t = n ∧ length u = n ∧ length d = n ∧
    ∀ p, (p < n)%nat →
      let up := (spec_upstream is_bad_bin w p + past_end n w p)%Z in
      let down := (spec_downstream is_bad_bin w p - past_end n w p)%Z in
      u !! p = Some up ∧ d !! p = Some down ∧
      t !! p = Some (if (is_bad_bin !!! p) || (max_bad_bins <? up)%Z
                        || (max_bad_bins <? down)%Z
                     then NaN else track !!! p).
Proof.
  intros Hbin Hmod Hw Hlen w n. unfold mark_missing, np_mod, np_floordiv.
  destruct (Nat.eqb_spec bin_size 0) as [|_]; [done|].
  rewrite Hmod. cbn [Nat.eqb negb].
  destruct (bad_bin_counts_spec is_bad_bin w Hw) as (u & d & E & Hu & Hd & Hpix).
  unfold w in E. rewrite E. fold n in Hu, Hd, Hpix. cbn [mbind result_bind].
  eexists _, u, d. split; [done|].
  assert (length (mask_assign is_bad_bin NaN track) = n) as H1
    by (rewrite length_mask_assign; lia).
  assert (length (mask_assign (map (λ m, max_bad_bins <? m)%Z u) NaN
                    (mask_assign is_bad_bin NaN track)) = n) as H2
    by (rewrite length_mask_assign; rewrite ?length_map; lia).
  split; [rewrite length_mask_assign; rewrite ?length_map; lia|].
  split; [done|]. split; [done|].
  intros p Hp. destruct (Hpix p Hp) as [Eu Ed]. cbv zeta.
  set (up := (spec_upstream is_bad_bin w p + past_end n w p)%Z) in *.
  set (down := (spec_downstream is_bad_bin w p - past_end n w p)%Z) in *.
  split; [done|]. split; [done|].
  destruct (lookup_lt_is_Some_2 is_bad_bin p Hp) as [b Hb].
  destruct (lookup_lt_is_Some_2 track p) as [x Hx]; [lia|].
  rewrite (list_lookup_total_correct _ _ _ Hb), (list_lookup_total_correct _ _ _ Hx).
  assert (map (λ m, max_bad_bins <? m)%Z u !! p = Some (max_bad_bins <? up)%Z) as Mu.
  { change (map ?f ?l) with (f <$> l). by rewrite list_lookup_fmap, Eu. }
  assert (map (λ m, max_bad_bins <? m)%Z d !! p = Some (max_bad_bins <? down)%Z) as Md.
  { change (map ?f ?l) with (f <$> l). by rewrite list_lookup_fmap, Ed. }
  rewrite (lookup_mask_assign _ _ _ p _ _ Md
             (lookup_mask_assign _ _ _ p _ _ Mu
                (lookup_mask_assign _ NaN _ p _ _ Hb Hx))).
  f_equal. by destruct b, (max_bad_bins <? up)%Z, (max_bad_bins <? down)%Z.
Qed.

Lemma bad_bin_counts_returns is_bad w :
  ∃ u d, bad_bin_counts is_bad w = Ok (u, d).
Proof.
  destruct (decide (1 ≤ w)%nat) as [Hw|Hw].
  - destruct (bad_bin_counts_spec is_bad w Hw) as (u & d & E & _). by exists u, d.
  - unfold bad_bin_counts, for_range. replace (w - 1)%nat with 0%nat by lia.
    by eexists _, _.
Qed.

(** X16. The marking raises in one case only: [Exception] when the window
    is not a multiple of a non-zero bin size; the loop over the slices never
    fails.  A bin size of 0 raises nothing: the numpy division gives a
    window of 0 bins, both columns of counts are the 0/1 flags of the bad
    bins, and the track is NaN at the bad bins, and everywhere when
    [max_bad_bins] is negative. *)
Theorem mark_missing_exceptions window_bp bin_size max_bad_bins is_bad_bin track :
  (∀ e, mark_missing window_bp bin_size max_bad_bins is_bad_bin track = Raise e ↔
        bin_size ≠ 0%nat ∧ (window_bp mod bin_size)%nat ≠ 0%nat ∧ e = Exception) ∧
  (bin_size = 0%nat → length track = length is_bad_bin →
   ∃ t, mark_missing window_bp bin_size max_bad_bins is_bad_bin track
        = Ok (t, map Z.b2z is_bad_bin, map Z.b2z is_bad_bin) ∧
        length t = length is_bad_bin ∧
        ∀ p, (p < length is_bad_bin)%nat →
          t !! p = Some (if (is_bad_bin !!! p) || (max_bad_bins <? 0)%Z
                         then NaN else track !!! p)).
Proof.
  split.
  - intros e. unfold mark_missing, np_mod, np_floordiv.
    destruct (Nat.eqb_spec bin_size 0) as [Hb|Hb].
    + cbn [Nat.eqb negb].
      destruct (bad_bin_counts_returns is_bad_bin (window_bp / bin_size)) as (u & d & ->).
      cbn [mbind result_bind]. split; [done|]. by intros [? _].
    + destruct (Nat.eqb_spec (window_bp mod bin_size) 0) as [Hm|Hm]; cbn [negb].
      * destruct (bad_bin_counts_returns is_bad_bin (window_bp / bin_size)) as (u & d & ->).
        cbn [mbind result_bind]. split; [done|]. by intros (_ & ? & _).
      * split; [by intros [= <-]|]. by intros (_ & _ & ->).
  - intros -> Hlen. unfold mark_missing, np_mod, np_floordiv.
    cbn [Nat.eqb negb Nat.div]. unfold bad_bin_counts, for_range.
    cbn [Nat.sub seq for_each mbind result_bind].
    set (flags := map Z.b2z is_bad_bin).
    set (over := map (λ n, (max_bad_bins <? n)%Z) flags).
    eexists. split; [done|].
    assert (length over = length is_bad_bin) as Hover
      by (unfold over, flags; by rewrite !length_map).
    assert (length (mask_assign is_bad_bin NaN track) = length is_bad_bin) as H1
      by (rewrite length_mask_assign; lia).
    assert (length (mask_assign over NaN (mask_assign is_bad_bin NaN track))
            = length is_bad_bin) as H2 by (rewrite length_mask_assign; lia).
    split; [rewrite length_mask_assign; lia|].
    intros p Hp.
    destruct (lookup_lt_is_Some_2 is_bad_bin p Hp) as [b Hb].
    destruct (lookup_lt_is_Some_2 track p) as [x Hx]; [lia|].
    rewrite (list_lookup_total_correct _ _ _ Hb), (list_lookup_total_correct _ _ _ Hx).
    assert (over !! p = Some (max_bad_bins <? Z.b2z b)%Z) as Mo.
    { unfold over, flags. change (map ?f ?l) with (f <$> l).
      by rewrite !list_lookup_fmap, Hb. }
    rewrite (lookup_mask_assign _ _ _ p _ _ Mo
               (lookup_mask_assign _ _ _ p _ _ Mo
                  (lookup_mask_assign _ NaN _ p _ _ Hb Hx))).
    destruct b; cbn [Z.b2z orb];
      [by destruct (max_bad_bins <? 1)%Z|by destruct (max_bad_bins <? 0)%Z].
Qed.

(** ** The insulation score *)

Lemma for_each_map {K K' T} (g : K → K') (ks : list K) (body : K' → T → result T) st :
  for_each (map g ks) body st = for_each ks (λ k, body (g k)) st.
Proof.
  revert st. induction ks as [|k ks IH]; intros st; [done|].
  simpl. destruct (body (g k) st); [apply IH|done].
Qed.

Lemma with_diag_nan_band N d j a :
  shape N N a →
  with_diag (- d + Z.of_nat j) (Scalar NaN) (nan_band_upto d j a)
  = nan_band_upto d (S j) a.
Proof.
  intros Hsh. apply (mat_ext N N); [by do 2 apply shape_mat_imap|by apply shape_mat_imap|].
  intros r c Hr Hc. unfold with_diag, nan_band_upto. rewrite !look2_mat_imap.
  destruct (look2 a r c) as [v|]; [|done]. cbn [fmap option_fmap option_map value_of].
  f_equal. repeat case_bool_decide; (done || lia).
Qed.

Lemma nan_band_upto_0 N d a : shape N N a → nan_band_upto d 0 a = a.
Proof.
  intros Hsh. apply (mat_ext N N); [by apply shape_mat_imap|done|].
  intros r c Hr Hc. unfold nan_band_upto. rewrite look2_mat_imap.
  destruct (look2 a r c) as [v|]; [|done]. cbn [fmap option_fmap option_map].
  by rewrite bool_decide_eq_false_2 by lia.
Qed.

Lemma nan_band_upto_all d a :
  (0 ≤ d)%Z → nan_band_upto d (Z.to_nat (d + 1 - - d)) a = nan_band d a.
Proof.
  intros Hd. unfold nan_band_upto, nan_band. apply mat_imap_ext. intros r c v.
  apply bool_decide_ext_if. lia.
Qed.

(** The loop over the diagonals [-d .. d] on the copy at [l]. *)
Lemma nan_band_loop (h : store) l a N d :
  h !! l = Some a → shape N N a → (0 ≤ d)%Z →
  ∃ h',
    for_each (range_Z (- d) (d + 1))
      (λ i '(h, mat), set_diag h mat (Scalar NaN) i set_diag_copy_default) (h, l)
    = Ok (h', l) ∧
    h' !! l = Some (nan_band d a) ∧ ∀ y, y ≠ l → h' !! y = h !! y.
Proof.
  intros Ha Hsh Hd. unfold range_Z. rewrite for_each_map.
  set (n := Z.to_nat (d + 1 - - d)).
  destruct (for_each_seq_inv
    (λ j (s : store * nat),
       s.2 = l ∧ s.1 !! l = Some (nan_band_upto d j a) ∧ ∀ y, y ≠ l → s.1 !! y = h !! y)
    n 0
    (λ k '(h, mat), set_diag h mat (Scalar NaN) (- d + Z.of_nat k)%Z set_diag_copy_default)
    (h, l)) as ([h' l'] & Hrun & Hl & Hband & Hfr).
  - cbn [fst snd]. split; [done|]. split; [|done]. by rewrite (nan_band_upto_0 N).
  - intros j [hj lj] Hj (Hlj & Hbj & Hfrj). cbn [fst snd] in Hlj, Hbj, Hfrj. subst lj.
    destruct (set_diag_ok hj l _ N (Scalar NaN) (- d + Z.of_nat j) false Hbj)
      as (h2 & out & Hrun & Hout & -> & Hfr2); [by apply shape_mat_imap|done|].
    exists (h2, l). split; [done|]. cbn [fst snd]. split; [done|].
    split; [by rewrite Hout, (with_diag_nan_band N)|].
    intros y Hy. by rewrite Hfr2, Hfrj.
  - cbn [fst snd] in Hl, Hband, Hfr. subst l'. exists h'.
    split; [done|]. split; [|done].
    rewrite Hband. cbn [Nat.add]. f_equal. by apply nan_band_upto_all.
Qed.

Lemma insul_diamond_closed (h : store) mat a N window d :
  h !! mat = Some a → shape N N a → (0 < d)%Z →
  ∃ h',
    insul_diamond h mat window d = Ok (h', insul_score (nan_band d a) window) ∧
    h' !! mat = Some a.
Proof.
  intros Ha Hsh Hd. unfold insul_diamond.
  rewrite bool_decide_eq_true_2 by lia.
  unfold np_copy. rewrite (deref_ok h mat a Ha). cbn [mbind result_bind].
  destruct (alloc_spec h a) as [-> Hfresh]. set (l := fresh (dom h)) in *.
  cbn [mbind result_bind].
  destruct (nan_band_loop (<[l := a]> h) l a N d) as (h' & -> & Hband & Hfr);
    [by rewrite lookup_insert_eq|done|lia|].
  cbn [mbind result_bind]. rewrite (deref_ok h' l _ Hband). cbn [mbind result_bind].
  exists h'. split; [done|].
  assert (mat ≠ l) as Hne by (intros ->; by rewrite Ha in Hfresh).
  by rewrite Hfr, lookup_insert_ne.
Qed.

Lemma insul_diamond_returns (h : store) mat a N window d :
  h !! mat = Some a → shape N N a →
  ∃ h',
    insul_diamond h mat window d
    = Ok (h', insul_score (if bool_decide (0 < d)%Z then nan_band d a else a) window).
Proof.
  intros Ha Hsh. destruct (Z.lt_trichotomy d 0) as [Hd|[->|Hd]].
  - unfold insul_diamond. rewrite bool_decide_eq_true_2 by lia.
    unfold np_copy. rewrite (deref_ok h mat a Ha). cbn [mbind result_bind].
    destruct (alloc_spec h a) as [-> Hfresh]. cbn [mbind result_bind].
    unfold range_Z. replace (Z.to_nat (d + 1 - - d)) with 0%nat by lia.
    cbn [seq map for_each mbind result_bind].
    rewrite (deref_ok _ _ a) by by rewrite lookup_insert_eq.
    cbn [mbind result_bind]. rewrite bool_decide_eq_false_2 by lia. by eexists.
  - unfold insul_diamond. rewrite bool_decide_eq_false_2 by (intros H; by apply H).
    cbn [mbind result_bind]. rewrite (deref_ok h mat a Ha). cbn [mbind result_bind].
    by eexists.
  - destruct (insul_diamond_closed h mat a N window d Ha Hsh Hd) as (h' & -> & _).
    rewrite bool_decide_eq_true_2 by done. by eexists.
Qed.

Lemma length_insul_score a window : length (insul_score a window) = length a.
Proof.
  unfold insul_score. rewrite length_map, length_zip_with, !length_map, length_seq. lia.
Qed.

Lemma insul_score_first a window :
  (0 < length a)%nat → insul_score a window !! 0%nat = Some NaN.
Proof.
  intros Ha. unfold insul_score.
  destruct (length a) as [|n] eqn:E; [lia|]. cbn [seq map zip_with].
  cbn [Nat.sub]. unfold submatrix at 1 2. unfold slice at 2 4.
  rewrite !clip_of_nat. cbn [Nat.min Nat.sub take fmap list_fmap concat].
  change (nanmean []) with NaN. cbn [not_nan List.filter length Nat.ltb Nat.leb].
  change (fdiv NaN (of_nat 1)) with NaN. done.
Qed.

(** X17. On a square matrix [insul_diamond] returns one score per bin,
    whatever [window] and [ignore_diags], and the score of the first bin
    is NaN: its diamond [mat[0:0, 0:hi]] is empty. *)
Theorem insul_diamond_track (h : store) mat a N window ignore_diags :
  h !! mat = Some a → shape N N a →
  ∃ h' score,
    insul_diamond h mat window ignore_diags = Ok (h', score) ∧
    length score = N ∧ ((0 < N)%nat → score !! 0%nat = Some NaN).
Proof.
  intros Ha Hsh.
  destruct (insul_diamond_returns h mat a N window ignore_diags Ha Hsh) as (h' & ->).
  eexists _, _. split; [done|]. rewrite length_insul_score.
  assert (length (if bool_decide (0 < ignore_diags)%Z
                  then nan_band ignore_diags a else a) = N) as Hlen.
  { case_bool_decide; [by apply (shape_mat_imap _ N N)|]; by destruct Hsh. }
  split; [done|]. intros HN. apply insul_score_first. lia.
Qed.

(** X18. With [ignore_diags = d > 0] the score does not depend on the
    entries at separations [<= d]: two square matrices that agree at all
    separations [> d] get the same track. *)
Theorem insul_diamond_ignores_near_diagonal (h1 h2 : store) m1 m2 a b N window d :
  h1 !! m1 = Some a → h2 !! m2 = Some b → shape N N a → shape N N b → (0 < d)%Z →
  (∀ r c, (r < N)%nat → (c < N)%nat → (d < Z.abs (Z.of_nat c - Z.of_nat r))%Z →
          look2 a r c = look2 b r c) →
  ∃ h1' h2' score,
    insul_diamond h1 m1 window d = Ok (h1', score) ∧
    insul_diamond h2 m2 window d = Ok (h2', score).
Proof.
  intros Ha Hb Hsa Hsb Hd Hagree.
  destruct (insul_diamond_closed h1 m1 a N window d Ha Hsa Hd) as (h1' & -> & _).
  destruct (insul_diamond_closed h2 m2 b N window d Hb Hsb Hd) as (h2' & -> & _).
  assert (nan_band d a = nan_band d b) as ->; [|by eexists _, _, _].
  apply (mat_ext N N); [by apply shape_mat_imap..|].
  intros r c Hr Hc. unfold nan_band. rewrite !look2_mat_imap.
  case_bool_decide as Hin.
  - destruct (look2_is_Some N N a r c Hsa Hr Hc) as [v ->].
    destruct (look2_is_Some N N b r c Hsb Hr Hc) as [v' ->]. done.
  - rewrite (Hagree r c) by lia. by destruct (look2 b r c).
Qed.

Lemma X15_witness :
  100%nat ≠ 0%nat ∧ (200 mod 100 = 0)%nat ∧ (1 ≤ 200 / 100)%nat ∧
  length [f1; f1; f1] = length [false; true; false] ∧
  ∃ t u d,
    mark_missing 200 100 1 [false; true; false] [f1; f1; f1] = Ok (t, u, d) ∧
    u !! 2%nat = Some (spec_upstream [false; true; false] (200 / 100) 2
                       + past_end 3 (200 / 100) 2)%Z ∧
    d !! 2%nat = Some (spec_downstream [false; true; false] (200 / 100) 2
                       - past_end 3 (200 / 100) 2)%Z.
Proof.
  split; [lia|]. split; [reflexivity|]. split; [vm_compute; lia|]. split; [reflexivity|].
  destruct (mark_missing_in_general 200 100 1 [false; true; false] [f1; f1; f1])
    as (t & u & d & Hrun & _ & _ & _ & Hpix);
    [lia|reflexivity|vm_compute; lia|reflexivity|].
  exists t, u, d. split; [exact Hrun|].
  destruct (Hpix 2%nat) as (Hu & Hd & _); [simpl; lia|]. split; [exact Hu|exact Hd].
Defined.

Lemma X16_witness :
  0%nat = 0%nat ∧ length [f1; f1] = length [false; true] ∧
  mark_missing 250 100 1 [false] [f1] = Raise Exception ∧
  ∃ t, mark_missing 250 0 1 [false; true] [f1; f1] = Ok (t, [0; 1]%Z, [0; 1]%Z).
Proof.
  split; [reflexivity|]. split; [reflexivity|].
  destruct (mark_missing_exceptions 250 100 1 [false] [f1]) as [Hraise _].
  destruct (mark_missing_exceptions 250 0 1 [false; true] [f1; f1]) as [_ Hzero].
  split.
  - apply (proj2 (Hraise Exception)). split; [lia|]. split; [vm_compute; lia|reflexivity].
  - destruct (Hzero eq_refl eq_refl) as (t & Hrun & _). exists t. exact Hrun.
Defined.

Lemma store_ones3 : ({[ 0%nat := ones3 ]} : store) !! 0%nat = Some ones3.
Proof. by vm_compute. Qed.

Lemma shape_ones3 : shape 3 3 ones3.
Proof. split; [done|]. by repeat constructor. Qed.

Lemma X17_witness :
  ({[ 0%nat := ones3 ]} : store) !! 0%nat = Some ones3 ∧ shape 3 3 ones3 ∧
  ∃ h' score,
    insul_diamond {[ 0%nat := ones3 ]} 0 1 1 = Ok (h', score) ∧
    length score = 3%nat ∧ score !! 0%nat = Some NaN.
Proof.
  split; [exact store_ones3|]. split; [exact shape_ones3|].
  destruct (insul_diamond_track _ 0 ones3 3 1 1 store_ones3 shape_ones3)
    as (h' & score & Hrun & Hlen & Hfirst).
  exists h', score. split; [exact Hrun|]. split; [exact Hlen|]. apply Hfirst. lia.
Defined.

Lemma store_zeroed4 :
  ({[ 0%nat := zeroed_diags 2 decay4 ]} : store) !! 0%nat = Some (zeroed_diags 2 decay4).
Proof. apply lookup_singleton_eq. Qed.

Lemma decay4_off_diagonal r c :
  (r < 4)%nat → (c < 4)%nat → (1 < Z.abs (Z.of_nat c - Z.of_nat r))%Z →
  look2 decay4 r c = look2 (zeroed_diags 2 decay4) r c.
Proof.
  intros Hr Hc Hd.
  do 4 (destruct r as [|r];
        [do 4 (destruct c as [|c]; [first [reflexivity|lia]|]); lia|]).
  lia.
Qed.

Lemma X18_witness :
  ({[ 0%nat := decay4 ]} : store) !! 0%nat = Some decay4 ∧
  ({[ 0%nat := zeroed_diags 2 decay4 ]} : store) !! 0%nat = Some (zeroed_diags 2 decay4) ∧
  shape 4 4 decay4 ∧ shape 4 4 (zeroed_diags 2 decay4) ∧ (0 < 1)%Z ∧
  ∃ h1' h2' score,
    insul_diamond {[ 0%nat := decay4 ]} 0 2 1 = Ok (h1', score) ∧
    insul_diamond {[ 0%nat := zeroed_diags 2 decay4 ]} 0 2 1 = Ok (h2', score).
Proof.
  split; [exact store_decay4|]. split; [exact store_zeroed4|].
  split; [exact shape_decay4|].
  split; [exact (shape_mat_imap _ 4 4 decay4 shape_decay4)|]. split; [lia|].
  apply (insul_diamond_ignores_near_diagonal _ _ 0 0 decay4 (zeroed_diags 2 decay4) 4 2 1
           store_decay4 store_zeroed4 shape_decay4
           (shape_mat_imap _ 4 4 decay4 shape_decay4)); [lia|].
  exact decay4_off_diagonal.
Defined.

(** ** More on the lazy Toeplitz matrix *)

Lemma shape_full_matrix C R : shape (length C) (length R) (full_matrix C R).
Proof. apply shape_toeplitz. Qed.

Lemma look2_full_matrix C R i j :
  (i < length C)%nat → (j < length R)%nat →
  look2 (full_matrix C R) i j
  = Some (if (j <=? i)%nat then C !!! (i - j)%nat else R !!! (j - i)%nat).
Proof. apply look2_toeplitz. Qed.

Lemma full_matrix_symmetric C i j :
  (i < length C)%nat → (j < length C)%nat →
  look2 (full_matrix C C) i j = look2 (full_matrix C C) j i.
Proof.
  intros Hi Hj. rewrite !look2_full_matrix by done. f_equal.
  destruct (Nat.leb_spec j i), (Nat.leb_spec i j); try done; try lia.
  by replace i with j by lia.
Qed.

(** X20. A lazy Toeplitz matrix built without [r] stands for a symmetric
    matrix: [__init__] accepts any [c], and the block for the rows
    [i0:i1] and the columns [j0:j1] is the transpose of the block for the
    rows [j0:j1] and the columns [i0:i1]. *)
Theorem toeplitz_without_r_is_symmetric C (i0 i1 j0 j1 : nat) :
  (i0 ≤ i1 ≤ length C)%nat → (j0 ≤ j1 ≤ length C)%nat →
  (i0 < length C)%nat → (j0 < length C)%nat →
  ∃ self,
    LazyToeplitz_init C None = Ok self ∧
    transposed
      (getitem self (Z.of_nat i0) (Z.of_nat i1) (Z.of_nat j0) (Z.of_nat j1))
      (getitem self (Z.of_nat j0) (Z.of_nat j1) (Z.of_nat i0) (Z.of_nat i1)).
Proof.
  intros Hi Hj Hi0 Hj0. exists (C, C). split; [done|].
  destruct (getitem_block C C i0 i1 j0 j1) as (c & r & E & _ & _ & Hb); try done.
  destruct (getitem_block C C j0 j1 i0 i1) as (c' & r' & E' & _ & _ & Hb'); try done.
  unfold getitem. rewrite E, E', Hb, Hb'.
  pose proof (shape_full_matrix C C) as Hsh.
  intros a b.
  destruct (decide (a < i1 - i0 ∧ b < j1 - j0)%nat) as [[Ha Hb2]|Hout].
  - rewrite !(look2_submatrix (length C) (length C)) by done.
    apply full_matrix_symmetric; lia.
  - rewrite (look2_outside (i1 - i0) (j1 - j0));
      [|by apply (shape_submatrix (length C) (length C))|lia].
    rewrite (look2_outside (j1 - j0) (i1 - i0));
      [done|by apply (shape_submatrix (length C) (length C))|lia].
Qed.

(** ** [fill_na], [fill_inf] and [fill_nainf] *)

Lemma fill_where_ok test value (h : store) arr a copy :
  h !! arr = Some a →
  ∃ h' out,
    fill_where test value h arr copy = Ok (h', out) ∧
    h' !! out = Some (map (map (λ v, if test v : bool then value else v)) a) ∧
    (if copy then out ≠ arr else out = arr) ∧
    (∀ y, y ≠ out → h' !! y = h !! y).
Proof.
  intros Ha. unfold fill_where.
  destruct (write_ok h arr a (map (map (λ v, if test v : bool then value else v)) a) copy
              (λ a, Ok (map (map (λ v, if test v : bool then value else v)) a)) Ha eq_refl)
    as (h' & out & Hrun & Hrest).
  exists h', out. split; [|done]. rewrite <-Hrun. by destruct copy.
Qed.

(** X21. [fill_nainf(arr, value)] gives the contents that
    [fill_inf(fill_na(arr, value), value, value, copy=False)] gives: the
    finite entries of [arr] are kept and all the others are [value]; the
    result has finite entries only when [value] is finite. *)
Theorem fill_nainf_is_fill_na_then_fill_inf (h : store) arr a value :
  h !! arr = Some a →
  ∃ h1 o1 h2 o2 h3 o3 a',
    fill_nainf h arr value true = Ok (h1, o1) ∧
    fill_na h arr value true = Ok (h2, o2) ∧
    fill_inf h2 o2 value value false = Ok (h3, o3) ∧
    h1 !! o1 = Some a' ∧ h3 !! o3 = Some a' ∧
    a' = map (map (λ v, if is_finite v then v else value)) a ∧
    (is_finite value = true → Forall (Forall (λ v, is_finite v = true)) a').
Proof.
  intros Ha.
  destruct (fill_where_ok (λ v, negb (is_finite v)) value h arr a true Ha)
    as (h1 & o1 & E1 & C1 & _).
  destruct (fill_where_ok is_nan value h arr a true Ha) as (h2 & o2 & E2 & C2 & _).
  destruct (fill_where_ok is_posinf value h2 o2 _ false C2) as (h3 & o3 & E3 & C3 & -> & _).
  destruct (fill_where_ok is_neginf value h3 o2 _ false C3) as (h4 & o4 & E4 & C4 & -> & _).
  exists h1, o1, h2, o2, h4, o2, (map (map (λ v, if is_finite v then v else value)) a).
  split; [done|]. split; [done|]. split; [by unfold fill_inf; rewrite E3|].
  split; [|split; [|split; [done|]]].
  - rewrite C1. f_equal. apply map_ext. intros row. apply map_ext. intros v.
    by destruct v.
  - rewrite C4. f_equal. rewrite !map_map. apply map_ext. intros row.
    rewrite !map_map. apply map_ext. intros v.
    destruct v; try done; simpl; by destruct value.
  - intros Hv. apply Forall_map, Forall_forall. intros row _.
    apply Forall_map, Forall_forall. intros v _. by destruct v.
Qed.

(** ** [slice_sorted] *)

Lemma searchsorted_le arr v : (searchsorted arr v ≤ length arr)%nat.
Proof.
  induction arr as [|x arr IH]; [done|]. simpl. destruct (x <? v)%Z; simpl; lia.
Qed.

Lemma filter_none {A} (f : A → bool) (l : list A) :
  Forall (λ x, f x = false) l → List.filter f l = [].
Proof. induction 1 as [|x l Hx _ IH]; [done|]. simpl. by rewrite Hx. Qed.

Lemma filter_ext_Forall {A} (f g : A → bool) (l : list A) :
  Forall (λ x, f x = g x) l → List.filter f l = List.filter g l.
Proof. induction 1 as [|x l Hx _ IH]; [done|]. simpl. by rewrite Hx, IH. Qed.

(** The elements below [v] are the first [searchsorted arr v] ones. *)
Lemma take_searchsorted arr v :
  StronglySorted Z.le arr →
  take (searchsorted arr v) arr = List.filter (λ x, (x <? v)%Z) arr.
Proof.
  induction 1 as [|x arr Hs IH Hall]; [done|]. simpl.
  destruct (Z.ltb_spec x v) as [Hx|Hx]; simpl; [by rewrite IH|].
  symmetry. apply filter_none. eapply Forall_impl; [done|].
  intros y Hy. simpl in Hy. apply Z.ltb_ge. lia.
Qed.

Lemma slice_sorted_spec arr lo hi :
  StronglySorted Z.le arr → slice_sorted arr lo hi = between arr lo hi.
Proof.
  unfold slice_sorted, between. rewrite slice_of_nat.
  rewrite !Nat.min_l by apply searchsorted_le.
  induction 1 as [|x arr Hs IH Hall]; [done|]. cbn [searchsorted List.filter].
  destruct (Z.ltb_spec x lo) as [Hlo|Hlo].
  - destruct (Z.leb_spec lo x) as [|_]; [lia|]. cbn [andb drop].
    destruct (Z.ltb_spec x hi) as [Hhi|Hhi].
    + by rewrite Nat.sub_succ.
    + cbn [Nat.sub take]. symmetry. apply filter_none.
      eapply Forall_impl; [done|]. intros y Hy. simpl in Hy.
      apply andb_false_iff. right. apply Z.ltb_ge. lia.
  - destruct (Z.leb_spec lo x) as [_|]; [|lia]. cbn [andb drop]. rewrite Nat.sub_0_r.
    change (if (x <? hi)%Z then S (searchsorted arr hi) else 0%nat)
      with (searchsorted (x :: arr) hi).
    rewrite take_searchsorted by by constructor. cbn [List.filter].
    destruct (x <? hi)%Z; [f_equal|]; apply filter_ext_Forall;
      (eapply Forall_impl; [done|]); intros y Hy; simpl in Hy;
      (destruct (Z.leb_spec lo y); [done|lia]).
Qed.

(** X22. On a sorted array of integers [slice_sorted(arr, lo, hi)] is
    [arr[(arr >= lo) & (arr < hi)]], as its docstring says: a sorted array
    holding exactly the elements of [arr] in [[lo, hi)]. *)
Theorem slice_sorted_is_the_filter arr lo hi :
  Sorted Z.le arr →
  slice_sorted arr lo hi = between arr lo hi ∧
  Sorted Z.le (slice_sorted arr lo hi) ∧
  ∀ x, x ∈ slice_sorted arr lo hi ↔ x ∈ arr ∧ (lo ≤ x < hi)%Z.
Proof.
  intros Hs.
  assert (StronglySorted Z.le arr) as Hss by (apply Sorted_StronglySorted; [apply _|done]).
  rewrite slice_sorted_spec by done. split; [done|]. split.
  - unfold between. clear Hss. induction Hs as [|x arr Hs IH Hhd]; [constructor|].
    simpl. destruct (_ && _); [|done]. constructor; [done|].
    clear IH. induction Hs as [|y arr' Hs' IH' Hhd']; [constructor|].
    simpl. apply HdRel_inv in Hhd. destruct (_ && _); [by constructor|].
    apply IH'. destruct Hhd' as [|z l Hz]; constructor. lia.
  - intros x. unfold between. rewrite !list_elem_of_In, filter_In.
    rewrite andb_true_iff, Z.leb_le, Z.ltb_lt. tauto.
Qed.

Lemma X20_witness :
  (0 ≤ 2 ≤ length C_ex)%nat ∧ (1 ≤ 4 ≤ length C_ex)%nat ∧
  (0 < length C_ex)%nat ∧ (1 < length C_ex)%nat ∧
  ∃ self,
    LazyToeplitz_init C_ex None = Ok self ∧
    transposed (getitem self (Z.of_nat 0) (Z.of_nat 2) (Z.of_nat 1) (Z.of_nat 4))
               (getitem self (Z.of_nat 1) (Z.of_nat 4) (Z.of_nat 0) (Z.of_nat 2)).
Proof.
  split; [simpl; lia|]. split; [simpl; lia|]. split; [simpl; lia|]. split; [simpl; lia|].
  apply (toeplitz_without_r_is_symmetric C_ex 0 2 1 4); simpl; lia.
Defined.

Lemma X21_witness :
  ({[ 0%nat := [[NaN; PInf]; [f1; NInf]] ]} : store) !! 0%nat
  = Some [[NaN; PInf]; [f1; NInf]] ∧
  ∃ h1 o1 h2 o2 h3 o3 a',
    fill_nainf {[ 0%nat := [[NaN; PInf]; [f1; NInf]] ]} 0 f0 true = Ok (h1, o1) ∧
    fill_na {[ 0%nat := [[NaN; PInf]; [f1; NInf]] ]} 0 f0 true = Ok (h2, o2) ∧
    fill_inf h2 o2 f0 f0 false = Ok (h3, o3) ∧
    h1 !! o1 = Some a' ∧ h3 !! o3 = Some a' ∧ a' = [[f0; f0]; [f1; f0]].
Proof.
  split; [apply lookup_singleton_eq|].
  destruct (fill_nainf_is_fill_na_then_fill_inf
              {[ 0%nat := [[NaN; PInf]; [f1; NInf]] ]} 0 [[NaN; PInf]; [f1; NInf]] f0
              (lookup_singleton_eq _ _))
    as (h1 & o1 & h2 & o2 & h3 & o3 & a' & E1 & E2 & E3 & C1 & C3 & Ea & _).
  exists h1, o1, h2, o2, h3, o3, a'. repeat (split; [assumption|]). exact Ea.
Defined.

Lemma X22_witness :
  Sorted Z.le [1; 3; 3; 7; 9]%Z ∧
  slice_sorted [1; 3; 3; 7; 9]%Z 3 9 = between [1; 3; 3; 7; 9]%Z 3 9 ∧
  slice_sorted [1; 3; 3; 7; 9]%Z 3 9 = [3; 3; 7]%Z.
Proof.
  assert (Sorted Z.le [1; 3; 3; 7; 9]%Z) as Hs
    by (repeat constructor; lia).
  split; [exact Hs|].
  split; [exact (proj1 (slice_sorted_is_the_filter [1; 3; 3; 7; 9]%Z 3 9 Hs))|].
  reflexivity.
Defined.

(** ** A balanced matrix keeps its scale *)


















(** ** Robust scores: unknown norms and missing values *)

Lemma existsb_is_nan l : NaN ∈ l → existsb is_nan l = true.
Proof.
  intros Hin. apply existsb_exists. exists NaN. split; [|done].
  by apply list_elem_of_In.
Qed.

Lemma fsub_nan_r v : fsub v NaN = NaN.
Proof. by destruct v. Qed.

Lemma fdiv_nan_l v : fdiv NaN v = NaN.
Proof. by destruct v. Qed.

Lemma fmul_nan_l v : fmul NaN v = NaN.
Proof. by destruct v. Qed.

(** X25. [normalize_score] raises only [ValueError], and exactly for a norm
    that is none of ['z'], ['mad'], ['madz'] in any letter case.  With
    ['mad'] or ['madz'] it returns one score per entry, a NaN entry keeps a
    NaN score, and without the NaN-aware medians ([has_nans=False]) a
    single NaN in the data turns every score into NaN.  The ['madz'] scores
    are the ['mad'] scores times 0.67449. *)
Theorem normalize_score_errors_and_nans std nanstd arr norm has_nans :
  (∀ e, normalize_score std nanstd arr norm has_nans = Raise e ↔
        e = ValueError ∧ lower norm ∉ ["z"; "mad"; "madz"]%string) ∧
  (lower norm = "mad"%string ∨ lower norm = "madz"%string →
   ∃ out, normalize_score std nanstd arr norm has_nans = Ok out ∧
     length out = length arr ∧
     (∀ i, arr !! i = Some NaN → out !! i = Some NaN) ∧
     (has_nans = false → NaN ∈ arr → out = replicate (length arr) NaN)) ∧
  (∀ mad, normalize_score std nanstd arr "mad" has_nans = Ok mad →
     normalize_score std nanstd arr "madz" has_nans
     = Ok (map (λ v, fmul v madz_factor) mad)).
Proof.
  split; [|split].
  - intros e. unfold normalize_score. cbv zeta.
    case_bool_decide as Hz.
    { split; [done|]. intros [_ Hn]. exfalso. apply Hn. rewrite Hz. left. }
    case_bool_decide as Hm; cbn [orb].
    { split; [done|]. intros [_ Hn]. exfalso. apply Hn. rewrite Hm. right; left. }
    case_bool_decide as Hmz.
    { split; [done|]. intros [_ Hn]. exfalso. apply Hn. rewrite Hmz. right; right; left. }
    split.
    + intros [= <-]. split; [done|].
      repeat (apply not_elem_of_cons; split; [done|]). apply not_elem_of_nil.
    + by intros [-> _].
  - intros Hnorm. unfold normalize_score. cbv zeta.
    assert (bool_decide (lower norm = "z"%string) = false) as ->.
    { apply bool_decide_eq_false. by destruct Hnorm as [-> | ->]. }
    assert (bool_decide (lower norm = "mad"%string)
            || bool_decide (lower norm = "madz"%string) = true) as ->.
    { destruct Hnorm as [-> | ->]; by vm_compute. }
    set (med := median_of has_nans arr).
    set (M := MAD (map (λ v, fsub v med) arr) has_nans).
    set (f := λ v, if bool_decide (lower norm = "madz"%string)
                   then fmul (fdiv (fsub v med) M) madz_factor
                   else fdiv (fsub v med) M).
    exists (map f arr). split; [|split; [|split]].
    + f_equal. unfold f. case_bool_decide; by rewrite !map_map.
    + by rewrite length_map.
    + intros i Hi. change (map f arr) with (f <$> arr).
      rewrite list_lookup_fmap, Hi. cbn [fmap option_fmap option_map]. f_equal.
      unfold f. change (fsub NaN med) with NaN.
      case_bool_decide; by rewrite fdiv_nan_l, ?fmul_nan_l.
    + intros -> Hin. rewrite <-map_const_replicate. apply map_ext. intros v.
      unfold f, med, median_of, median. rewrite (existsb_is_nan arr Hin).
      rewrite fsub_nan_r. case_bool_decide; by rewrite fdiv_nan_l, ?fmul_nan_l.
  - intros mad. unfold normalize_score. cbv zeta.
    change (lower "mad") with "mad"%string. change (lower "madz") with "madz"%string.
    rewrite (bool_decide_eq_false_2 ("mad"%string = "z"%string)) by done.
    rewrite (bool_decide_eq_false_2 ("madz"%string = "z"%string)) by done.
    rewrite (bool_decide_eq_true_2 ("mad"%string = "mad"%string)) by done.
    rewrite (bool_decide_eq_true_2 ("madz"%string = "madz"%string)) by done.
    rewrite (bool_decide_eq_false_2 ("mad"%string = "madz"%string)) by done.
    rewrite (bool_decide_eq_false_2 ("madz"%string = "mad"%string)) by done.
    cbn [orb]. by intros [= <-].
Qed.

Lemma X25_witness :
  lower "MADZ" = "madz"%string ∧
  ∃ out, normalize_score (λ _, NaN) (λ _, NaN) [f1; f0; NaN; Fin four] "MADZ" true
         = Ok out ∧ out !! 2%nat = Some NaN.
Proof.
  split; [reflexivity|].
  destruct (normalize_score_errors_and_nans (λ _, NaN) (λ _, NaN)
              [f1; f0; NaN; Fin four] "MADZ" true) as (_ & Hnan & _).
  destruct (Hnan (or_intror eq_refl)) as (out & Hrun & _ & Hkeep & _).
  exists out. split; [exact Hrun|]. apply Hkeep. reflexivity.
Defined.

(** ** The kernels *)

Lemma shape_kernel_of w mask : shape (2 * w + 1) (2 * w + 1) (kernel_of w mask).
Proof.
  unfold kernel_of. split; [by rewrite length_map, length_seq|].
  apply Forall_map, Forall_forall. intros yi _. by rewrite length_map, length_seq.
Qed.

Lemma look2_kernel_of w mask yi xi :
  (yi < 2 * w + 1)%nat → (xi < 2 * w + 1)%nat →
  look2 (kernel_of w mask) yi xi
  = Some (if mask (Z.of_nat yi - Z.of_nat w)%Z (Z.of_nat xi - Z.of_nat w)%Z
          then 0%Z else 1%Z).
Proof.
  intros Hy Hx. unfold look2, kernel_of. change (map ?g ?l) with (g <$> l).
  rewrite list_lookup_fmap, lookup_seq_lt by done. cbn [fmap option_fmap option_map mbind option_bind].
  change (map ?g ?l) with (g <$> l).
  by rewrite list_lookup_fmap, lookup_seq_lt by done.
Qed.

Lemma inner_square_sym p y x : inner_square p y x = inner_square p x y.
Proof. unfold inner_square. apply andb_comm. Qed.

Lemma get_kernel_cases w p ktype kernel :
  get_kernel w p ktype = Ok kernel → ∃ mask, kernel = kernel_of w mask.
Proof.
  unfold get_kernel. repeat case_bool_decide; intros [= <-]; by eexists.
Qed.

(** X26. [get_kernel] raises [ValueError] for a kernel type it does not
    know; every kernel it returns is a [(2w+1) x (2w+1)] array of zeros and
    ones; the ['horizontal'] kernel is the transpose of the ['vertical']
    one; the ['lowleft'] kernel is the ['upright'] one turned by 180
    degrees; and the ['upright'] kernel is non-zero only in rows below the
    centre and columns left of it. *)
Theorem get_kernel_shapes w p :
  (∀ ktype,
     ktype ∉ ["donut"; "vertical"; "horizontal"; "upright"; "lowleft"]%string →
     get_kernel w p ktype = Raise ValueError) ∧
  (∀ ktype kernel,
     get_kernel w p ktype = Ok kernel →
     shape (2 * w + 1) (2 * w + 1) kernel ∧
     Forall (Forall (λ v, v = 0 ∨ v = 1)%Z) kernel) ∧
  (∃ hor ver,
     get_kernel w p "horizontal" = Ok hor ∧ get_kernel w p "vertical" = Ok ver ∧
     transposed hor ver) ∧
  (∃ low up,
     get_kernel w p "lowleft" = Ok low ∧ get_kernel w p "upright" = Ok up ∧
     (∀ yi xi, (yi ≤ 2 * w)%nat → (xi ≤ 2 * w)%nat →
        look2 low yi xi = look2 up (2 * w - yi) (2 * w - xi)) ∧
     (∀ yi xi, look2 up yi xi = Some 1%Z → (w < yi)%nat ∧ (xi < w)%nat)).
Proof.
  split; [|split; [|split]].
  - intros ktype Hk. unfold get_kernel.
    rewrite !bool_decide_eq_false_2; [done|intros ->; apply Hk; set_solver..].
  - intros ktype kernel [mask ->]%get_kernel_cases. split; [apply shape_kernel_of|].
    unfold kernel_of. apply Forall_map, Forall_forall. intros yi _.
    apply Forall_map, Forall_forall. intros xi _. destruct (mask _ _); auto.
  - eexists _, _. split; [done|]. split; [done|]. intros yi xi.
    destruct (decide (yi < 2 * w + 1 ∧ xi < 2 * w + 1)%nat) as [[Hy Hx]|Hout].
    + rewrite !look2_kernel_of by done.
      by rewrite (inner_square_sym p (Z.of_nat yi - Z.of_nat w)).
    + rewrite !(look2_outside (2 * w + 1) (2 * w + 1));
        [done|apply shape_kernel_of|lia|apply shape_kernel_of|lia].
  - eexists _, _. split; [done|]. split; [done|]. split.
    + intros yi xi Hy Hx. rewrite !look2_kernel_of by lia.
      replace (Z.of_nat (2 * w - yi) - Z.of_nat w)%Z
        with (- (Z.of_nat yi - Z.of_nat w))%Z by lia.
      by replace (Z.of_nat (2 * w - xi) - Z.of_nat w)%Z
        with (- (Z.of_nat xi - Z.of_nat w))%Z by lia.
    + intros yi xi H.
      destruct (decide (yi < 2 * w + 1 ∧ xi < 2 * w + 1)%nat) as [[Hy Hx]|Hout].
      * rewrite look2_kernel_of in H by done. unfold upright_mask in H.
        destruct (Z.leb_spec 0 (Z.of_nat xi - Z.of_nat w));
          destruct (Z.leb_spec (Z.of_nat yi - Z.of_nat w) 0);
          rewrite ?orb_true_r in H; try done. lia.
      * rewrite (look2_outside (2 * w + 1) (2 * w + 1)) in H;
          [done|apply shape_kernel_of|lia].
Qed.

Lemma X26_witness :
  ("diamond"%string ∉ ["donut"; "vertical"; "horizontal"; "upright"; "lowleft"]%string) ∧
  get_kernel 2 1 "diamond" = Raise ValueError.
Proof.
  assert ("diamond"%string ∉ ["donut"; "vertical"; "horizontal"; "upright"; "lowleft"]%string)
    as H by (repeat (apply not_elem_of_cons; split; [done|]); apply not_elem_of_nil).
  split; [exact H|].
  exact (proj1 (get_kernel_shapes 2 1) "diamond"%string H).
Defined.

(** ** The insulation score of a window inside the ignored diagonals *)

Lemma concat_all_nan n k (m : matrix) :
  shape n k m →
  (∀ r c, (r < n)%nat → (c < k)%nat → look2 m r c = Some NaN) →
  Forall (λ v, v = NaN) (concat m).
Proof.
  intros [Hn Hk] Hall. apply Forall_concat, Forall_lookup. intros r row Hrow.
  apply Forall_lookup. intros c v Hv.
  assert (r < n)%nat as Hr by (rewrite <-Hn; by eapply lookup_lt_Some).
  assert (c < k)%nat as Hc.
  { rewrite Forall_lookup in Hk. rewrite <-(Hk r row Hrow). by eapply lookup_lt_Some. }
  specialize (Hall r c Hr Hc). unfold look2 in Hall. rewrite Hrow in Hall. simpl in Hall.
  congruence.
Qed.

Lemma not_nan_all_nan l : Forall (λ v, v = NaN) l → not_nan l = [].
Proof.
  intros Hl. unfold not_nan. apply filter_none.
  eapply Forall_impl; [done|]. by intros v ->.
Qed.

Lemma normalised_means_all_nan (D : nat → vector) (l : list nat) :
  (∀ i, i ∈ l → Forall (λ v, v = NaN) (D i)) →
  zip_with (λ s n, fdiv s (of_nat (if (0 <? n)%nat then n else 1)))
    (map (λ i, nanmean (D i)) l) (map (λ i, length (not_nan (D i))) l)
  = replicate (length l) NaN.
Proof.
  intros Hin. induction l as [|i l IH]; [done|]. cbn [map zip_with length replicate].
  rewrite IH by (intros j Hj; apply Hin; by right). f_equal.
  unfold nanmean. rewrite (not_nan_all_nan (D i)) by (apply Hin; by left).
  done.
Qed.

Lemma insul_score_all_nan (b : matrix) window :
  (∀ i, (i < length b)%nat →
     Forall (λ v, v = NaN)
       (concat (submatrix b (Z.of_nat (i - window)) (Z.of_nat i)
                            (Z.of_nat i) (Z.of_nat ((i + window) `min` length b))))) →
  insul_score b window = replicate (length b) NaN.
Proof.
  intros Hall. unfold insul_score. cbv zeta.
  rewrite (normalised_means_all_nan
             (λ i, concat (submatrix b (Z.of_nat (i - window)) (Z.of_nat i)
                      (Z.of_nat i) (Z.of_nat ((i + window) `min` length b)))))
    by (intros i ?%elem_of_seq; apply Hall; lia).
  rewrite length_seq.
  assert (nanmedian (replicate (length b) NaN) = NaN) as ->.
  { unfold nanmedian. rewrite not_nan_all_nan by by apply Forall_replicate. done. }
  generalize (length b). intros n. induction n as [|n IH]; [done|].
  cbn [replicate map]. by rewrite IH.
Qed.

(** X27. When the whole window lies inside the ignored diagonals, that is
    [2 * window - 1 <= ignore_diags] with [ignore_diags > 0], [insul_diamond]
    raises nothing and returns a track of NaN only: every pixel of every
    diamond was overwritten by the NaN band, so no bin gets a score. *)
Theorem insul_diamond_window_inside_ignored_diagonals (h : store) mat a N window d :
  h !! mat = Some a → shape N N a →
  (0 < d)%Z → (2 * Z.of_nat window - 1 ≤ d)%Z →
  ∃ h', insul_diamond h mat window d = Ok (h', replicate N NaN).
Proof.
  intros Ha Hsh Hd Hw.
  destruct (insul_diamond_closed h mat a N window d Ha Hsh Hd) as (h' & -> & _).
  exists h'. do 2 f_equal.
  assert (shape N N (nan_band d a)) as Hshb by by apply shape_mat_imap.
  assert (length (nan_band d a) = N) as Hlen by by destruct Hshb.
  rewrite <-Hlen. apply insul_score_all_nan. rewrite Hlen. intros i Hi.
  eapply concat_all_nan.
  - apply (shape_submatrix N N); [done|lia|lia].
  - intros r c Hr Hc. rewrite (look2_submatrix N N) by (done || lia).
    unfold nan_band. rewrite look2_mat_imap.
    destruct (look2_is_Some N N a (i - window + r) (i + c) Hsh) as [v ->]; [lia..|].
    cbn [fmap option_fmap option_map]. by rewrite bool_decide_eq_true_2 by lia.
Qed.

Lemma X27_witness :
  ({[ 0%nat := decay4 ]} : store) !! 0%nat = Some decay4 ∧ shape 4 4 decay4 ∧
  (0 < 2)%Z ∧ (2 * Z.of_nat 1 - 1 ≤ 2)%Z ∧
  ∃ h', insul_diamond {[ 0%nat := decay4 ]} 0 1 2 = Ok (h', replicate 4 NaN).
Proof.
  split; [exact store_decay4|]. split; [exact shape_decay4|]. split; [lia|].
  split; [lia|].
  apply (insul_diamond_window_inside_ignored_diagonals _ 0 decay4 4 1 2
           store_decay4 shape_decay4); lia.
Defined.

(** ** [MAD] is never negative *)

Lemma at_least_zero_fabs v : is_nan v = false → at_least_zero (fabs v).
Proof.
  destruct v as [q| | |]; try done. intros _. unfold fabs, fltb, f0.
  case_bool_decide as Hq; cbn [fopp at_least_zero].
  - apply Qclt_le_weak in Hq. apply Qcopp_le_compat in Hq. exact Hq.
  - by apply Qcnot_lt_le.
Qed.

Lemma at_least_zero_not_negative v : at_least_zero v → fltb v f0 = false.
Proof.
  destruct v as [q| | |]; try done. intros Hq. unfold fltb, f0.
  apply bool_decide_eq_false_2. by apply Qcle_not_lt.
Qed.

Lemma at_least_zero_midpoint a b :
  at_least_zero a → at_least_zero b →
  at_least_zero (fdiv (fadd a b) (of_nat 2)).
Proof.
  assert (Qc_of_Z (Z.of_nat 2) ≠ 0) as H2 by done.
  destruct a as [x| | |], b as [y| | |]; try done; intros Ha Hb;
    unfold of_nat; cbn [fadd fdiv at_least_zero] in *;
    rewrite bool_decide_eq_false_2 by done; try done.
  assert (0 + 0 ≤ x + y) as Hxy by by apply Qcplus_le_compat.
  rewrite Qcplus_0_l in Hxy.
  pose proof (Qcmult_le_compat_r 0 (x + y) (/ Qc_of_Z (Z.of_nat 2)) Hxy) as H.
  rewrite Qcmult_0_l in H. apply H. done.
Qed.

Lemma Forall_finsert (P : float → Prop) v l :
  P v → Forall P l → Forall P (finsert v l).
Proof.
  intros Hv Hl. induction Hl as [|w l Hw Hl IH]; cbn [finsert].
  - by constructor.
  - destruct (fleb v w); repeat constructor; done.
Qed.

Lemma Forall_fsort (P : float → Prop) l : Forall P l → Forall P (fsort l).
Proof.
  intros Hl. unfold fsort. induction Hl as [|v l Hv Hl IH]; [constructor|].
  cbn [foldr]. by apply Forall_finsert.
Qed.

Lemma nanmedian_not_negative l :
  Forall (λ v, is_nan v = true ∨ at_least_zero v) l →
  fltb (nanmedian l) f0 = false.
Proof.
  intros Hl. unfold nanmedian. cbv zeta.
  set (s := fsort (not_nan l)).
  assert (Forall at_least_zero s) as Hs.
  { apply Forall_fsort. unfold not_nan. apply Forall_forall. intros v Hv.
    apply list_elem_of_In, filter_In in Hv as [Hin Hn].
    rewrite Forall_forall in Hl. destruct (Hl v) as [E|E]; [by apply list_elem_of_In| |done].
    by rewrite E in Hn. }
  destruct (Nat.eqb_spec (length s) 0) as [|Hn]; [done|].
  assert (∀ i, (i < length s)%nat → at_least_zero (s !!! i)) as Hat.
  { intros i Hi. destruct (lookup_lt_is_Some_2 s i Hi) as [v Hv].
    rewrite (list_lookup_total_correct _ _ _ Hv).
    by eapply (Forall_lookup_1 _ _ _ _ Hs Hv). }
  assert (length s / 2 < length s)%nat as Hhalf by (apply Nat.div_lt; lia).
  destruct (Nat.odd (length s)).
  - apply at_least_zero_not_negative, Hat. done.
  - apply at_least_zero_not_negative, at_least_zero_midpoint; apply Hat; lia.
Qed.

Lemma median_of_not_negative has_nans l :
  Forall (λ v, is_nan v = true ∨ at_least_zero v) l →
  fltb (median_of has_nans l) f0 = false.
Proof.
  intros Hl. unfold median_of, median.
  destruct has_nans; [by apply nanmedian_not_negative|].
  destruct (existsb is_nan l); [done|]. by apply nanmedian_not_negative.
Qed.

(** X28. [MAD] is never negative: [MAD(arr) < 0] does not hold for any
    array, with or without the NaN-aware medians.  It is NaN for an empty
    array and, without the NaN-aware medians ([has_nans=False]), for an
    array that holds a NaN. *)
Theorem MAD_is_never_negative arr has_nans :
  fltb (MAD arr has_nans) f0 = false ∧
  MAD [] has_nans = NaN ∧
  (NaN ∈ arr → MAD arr false = NaN).
Proof.
  split; [|split].
  - unfold MAD. cbv zeta. apply median_of_not_negative.
    apply Forall_map, Forall_forall. intros v _.
    destruct (is_nan (fsub v (median_of has_nans arr))) eqn:E.
    + left. by destruct (fsub v (median_of has_nans arr)).
    + right. by apply at_least_zero_fabs.
  - by destruct has_nans.
  - intros Hin. unfold MAD, median_of, median. cbv zeta.
    rewrite (existsb_is_nan arr Hin).
    assert (existsb is_nan (map (λ v, fabs (fsub v NaN)) arr) = true) as ->; [|done].
    apply existsb_exists. exists NaN. split; [|done].
    apply in_map_iff. exists NaN. split; [done|]. by apply list_elem_of_In.
Qed.

Lemma X28_witness :
  NaN ∈ [f1; NaN] ∧ MAD [f1; NaN] false = NaN ∧
  fltb (MAD [f1; f0; Fin four] true) f0 = false.
Proof.
  assert (NaN ∈ [f1; NaN]) as Hin by (right; left).
  split; [exact Hin|]. split.
  - exact (proj2 (proj2 (MAD_is_never_negative [f1; NaN] false)) Hin).
  - exact (proj1 (MAD_is_never_negative [f1; f0; Fin four] true)).
Defined.
